(** * Paged key-value cache kernels: a shallow embedding of
      [csrc/cache_kernels.cu] and the properties of its four engines.

    The host functions ([swap_blocks], [copy_blocks], [reshape_and_cache],
    [reshape_and_cache_flash], [convert_fp8]) run in a small state-and-error
    monad whose state is the CUDA stream they enqueue work on and the
    standard output they print to.  The device kernels are functions from
    their launch parameters and a thread coordinate to the list of memory
    transfers that thread performs; a launch is the collection of the
    transfers of all its threads, executed in some order.  Memory is one
    byte-addressed space shared by every buffer. *)

From Stdlib Require Import ZArith QArith List String Bool Lia Permutation.
Import ListNotations.
Local Open Scope string_scope.
Local Open Scope list_scope.
Local Open Scope Z_scope.

(* ================================================================== *)
(** * Machine integers *)
(* ================================================================== *)

Module MachineInt.

(** Two's complement reduction of [z] to a signed [w]-bit integer. *)
Definition wrap_signed (w z : Z) : Z :=
  (z + 2 ^ (w - 1)) mod 2 ^ w - 2 ^ (w - 1).

(** C++ [int] (32 bits on the CUDA targets) and [int64_t]. *)
Definition int (z : Z) : Z := wrap_signed 32 z.
Definition int64_t (z : Z) : Z := wrap_signed 64 z.

(** Conversion to [unsigned int], the component type of [dim3]. *)
Definition unsigned_int (z : Z) : Z := z mod 2 ^ 32.

Definition INT_MAX : Z := 2 ^ 31 - 1.
Definition INT64_MAX : Z := 2 ^ 63 - 1.

(** Arithmetic at type [int] and at type [int64_t]. *)
Definition mul32 (a b : Z) : Z := int (a * b).
Definition add32 (a b : Z) : Z := int (a + b).
Definition mul64 (a b : Z) : Z := int64_t (a * b).
Definition add64 (a b : Z) : Z := int64_t (a + b).
Definition sub64 (a b : Z) : Z := int64_t (a - b).

End MachineInt.
Import MachineInt.

(** [upto n] is the index range [0, 1, ..., n-1] of a C [for] loop or of one
    dimension of a launch grid; it is empty when [n <= 0]. *)
Definition upto (n : Z) : list Z := map Z.of_nat (seq 0 (Z.to_nat n)).

(* ================================================================== *)
(** * Tensors, devices and element types *)
(* ================================================================== *)

(** [c10::DeviceType], restricted to the kinds the code asks about with
    [is_cuda()] and [is_cpu()]; [Meta] stands for every other backend. *)
Inductive DeviceType := CPU | CUDA | Meta.

Record Device := mkDevice { dev_type : DeviceType; index : Z }.

Definition is_cuda (d : Device) : bool :=
  match dev_type d with CUDA => true | _ => false end.
Definition is_cpu (d : Device) : bool :=
  match dev_type d with CPU => true | _ => false end.

(** [at::ScalarType]. *)
Inductive ScalarType :=
  Byte | Char | Short | Int | Long | Half | Float | Double | Bool | BFloat16.

Definition ScalarType_eqb (a b : ScalarType) : bool :=
  match a, b with
  | Byte, Byte | Char, Char | Short, Short | Int, Int | Long, Long
  | Half, Half | Float, Float | Double, Double | Bool, Bool
  | BFloat16, BFloat16 => true
  | _, _ => false
  end.

(** [c10::elementSize]. *)
Definition elementSize (t : ScalarType) : Z :=
  match t with
  | Byte | Char | Bool => 1
  | Short | Half | BFloat16 => 2
  | Int | Float => 4
  | Long | Double => 8
  end.

(** A data tensor: where it lives, its element type, its shape and the
    address of its first element.  Its contents are in [Memory]. *)
Record Tensor := mkTensor {
  device : Device;
  dtype : ScalarType;
  sizes : list Z;
  strides : list Z;
  data_ptr : Z
}.

Definition element_size (t : Tensor) : Z := elementSize (dtype t).
Definition prod (l : list Z) : Z := fold_right Z.mul 1 l.
Definition numel (t : Tensor) : Z := prod (sizes t).

(** An index tensor (a block mapping or a slot mapping).  The kernels take
    it as a [const __restrict__] array and the host reads it with
    [item<int64_t>()], so it is carried by value. *)
Record MappingTensor (A : Type) := mkMapping {
  map_device : Device;
  rows : list A
}.
Arguments mkMapping {A} _ _.
Arguments map_device {A} _.
Arguments rows {A} _.

(* ================================================================== *)
(** * Memory and transfers *)
(* ================================================================== *)

(** Memory is one address space of bytes, host and device together (a
    tensor's [data_ptr] is an address in it): [m a] is the byte at address
    [a], read modulo 256. *)
Definition Memory : Type := Z -> Z.

(** A pointer [T* p]: an address and [sizeof(T)].  The cell [p[i]] is the
    [sizeof(T)] bytes from [p + i * sizeof(T)]; two accesses alias as soon as
    their byte ranges meet, whatever the buffers they were derived from. *)
Record Pointer := mkPointer { address : Z; pointee_size : Z }.
Definition Cell : Type := (Pointer * Z)%type.

Definition cell_size (c : Cell) : Z := pointee_size (fst c).
Definition cell_address (c : Cell) : Z :=
  address (fst c) + snd c * pointee_size (fst c).

(** A [char*], for byte-wise copies. *)
Definition char_ptr (a : Z) : Pointer := mkPointer a 1.

(** The value of [n] bytes from address [a], little-endian as on the host
    and on the device. *)
Fixpoint load_bytes (n : nat) (m : Memory) (a : Z) : Z :=
  match n with
  | O => 0
  | S n' => m a mod 256 + 256 * load_bytes n' m (a + 1)
  end.

Definition load (m : Memory) (c : Cell) : Z :=
  load_bytes (Z.to_nat (cell_size c)) m (cell_address c).

(** Storing [v] in a cell writes the bytes of [v] that the cell holds. *)
Definition store (m : Memory) (c : Cell) (v : Z) : Memory :=
  fun a =>
    let k := a - cell_address c in
    if (0 <=? k) && (k <? cell_size c) then (v / 256 ^ k) mod 256 else m a.

(** One assignment [dst = conv(src)] between two cells; a plain copy has
    [conv] the identity. *)
Record Transfer := mkTransfer {
  t_dst : Cell;
  t_src : Cell;
  t_conv : Z -> Z
}.

Definition copy_cell (dst src : Cell) : Transfer := mkTransfer dst src (fun v => v).

Definition transfer (m : Memory) (t : Transfer) : Memory :=
  store m (t_dst t) (t_conv t (load m (t_src t))).

(** Executing a schedule of transfers, first to last. *)
Definition run (sched : list Transfer) (m : Memory) : Memory :=
  fold_left transfer sched m.

(** The value a transfer computes when its source still holds what [m]
    holds, and what its destination cell holds of it. *)
Definition written (m : Memory) (t : Transfer) : Z := t_conv t (load m (t_src t)).
Definition stored (m : Memory) (t : Transfer) : Z :=
  written m t mod 256 ^ cell_size (t_dst t).

(** Two cells whose byte ranges meet, and two cells with the same bytes. *)
Definition overlap (a b : Cell) : Prop :=
  cell_address a < cell_address b + cell_size b /\
  cell_address b < cell_address a + cell_size a.
Definition same_bytes (a b : Cell) : Prop :=
  cell_address a = cell_address b /\ cell_size a = cell_size b.

(** No transfer of the schedule reads a byte that the schedule writes. *)
Definition reads_untouched (sched : list Transfer) : Prop :=
  forall t u, In t sched -> In u sched -> ~ overlap (t_dst t) (t_src u).

(** Transfers whose destinations meet write the same bytes with the same
    value. *)
Definition writes_agree (m : Memory) (sched : list Transfer) : Prop :=
  forall t u, In t sched -> In u sched -> overlap (t_dst t) (t_dst u) ->
              same_bytes (t_dst t) (t_dst u) /\ stored m t = stored m u.

(** A range of [len] bytes from [start], a cell inside a range, and two
    ranges that do not meet. *)
Record Region := mkRegion { start : Z; len : Z }.
Definition cell_in (c : Cell) (r : Region) : Prop :=
  start r <= cell_address c /\ cell_address c + cell_size c <= start r + len r.
Definition disjoint (r1 r2 : Region) : Prop :=
  start r1 + len r1 <= start r2 \/ start r2 + len r2 <= start r1.

(* ================================================================== *)
(** * Streams and kernel launches *)
(* ================================================================== *)

Inductive cudaMemcpyKind :=
  cudaMemcpyHostToDevice | cudaMemcpyDeviceToHost | cudaMemcpyDeviceToDevice.

(** A kernel, once its arguments are bound, maps the coordinates
    [blockIdx.x], [blockIdx.y], [threadIdx.x] and the extent [blockDim.x] to
    the transfers of that thread, in program order. *)
Definition Kernel : Type := Z -> Z -> Z -> Z -> list Transfer.

(** What a host function enqueues on the current stream. *)
Inductive StreamOp :=
| MemcpyAsync (dst src : Z) (count : Z) (kind : cudaMemcpyKind)
| KernelLaunch (name : string) (grid_x grid_y block_x : Z) (kernel : Kernel).

(** [cudaMemcpyAsync(dst, src, count, ...)] moves [count] consecutive bytes
    from address [src] to address [dst]. *)
Definition memcpy_transfers (dst src : Z) (count : Z) : list Transfer :=
  map (fun k => copy_cell (char_ptr dst, k) (char_ptr src, k)) (upto count).

(** Every thread of every block of a grid, listed block by block. *)
Definition grid_threads (grid_x grid_y block_x : Z) (kernel : Kernel)
    : list Transfer :=
  flat_map (fun bx =>
    flat_map (fun by_ =>
      flat_map (fun tx => kernel bx by_ tx block_x) (upto block_x))
      (upto grid_y))
    (upto grid_x).

(** The limits of a launch configuration on every CUDA device of compute
    capability 3.0 and later: at most 2^31 - 1 blocks along x, 65535 along
    y, 1024 threads in a block, and no empty dimension. *)
Definition MAX_GRID_X : Z := 2 ^ 31 - 1.
Definition MAX_GRID_Y : Z := 65535.
Definition MAX_BLOCK_X : Z := 1024.

Definition launch_config_ok (grid_x grid_y block_x : Z) : bool :=
  (1 <=? grid_x) && (grid_x <=? MAX_GRID_X) &&
  (1 <=? grid_y) && (grid_y <=? MAX_GRID_Y) &&
  (1 <=? block_x) && (block_x <=? MAX_BLOCK_X).

(** [kernel<<<dim3(grid_x, grid_y), dim3(block_x)>>>].  A configuration
    outside the limits is refused: the kernel does not run, and the host
    functions of this file do not look at the launch status. *)
Definition launch (grid_x grid_y block_x : Z) (kernel : Kernel) : list Transfer :=
  if launch_config_ok grid_x grid_y block_x
  then grid_threads grid_x grid_y block_x kernel
  else [].

Definition op_transfers (op : StreamOp) : list Transfer :=
  match op with
  | MemcpyAsync dst src count _ => memcpy_transfers dst src count
  | KernelLaunch _ gx gy bx k => launch gx gy bx k
  end.

(** Stream synchronization: the enqueued operations take effect in order. *)
Definition synchronize (s : list StreamOp) (m : Memory) : Memory :=
  run (flat_map op_transfers s) m.

(** The loop [for (int i = threadIdx.x; i < n; i += blockDim.x) body(i)] of a
    thread; [fuel] bounds the number of iterations. *)
Fixpoint thread_loop {A : Type} (fuel : nat) (i n blockDim_x : Z)
    (body : Z -> list A) : list A :=
  match fuel with
  | O => []
  | S fuel' =>
      if i <? n
      then body i ++ thread_loop fuel' (int (i + blockDim_x)) n blockDim_x body
      else []
  end.

(* ================================================================== *)
(** * The host monad *)
(* ================================================================== *)

(** Failures of a host call.  Every [TORCH_CHECK] of the file raises a
    [c10::Error]; the ones whose message starts with "Unsupported" report a
    combination without implementation ([UnsupportedOperation]), the others a
    violated precondition on residency, device or shape
    ([PreconditionViolation]).  [IndexError] is what tensor indexing and the
    accessors [size(d)] and [stride(d)] raise out of bounds;
    [ArithmeticTrap] is an integer division by zero on the host. *)
Inductive Failure :=
| PreconditionViolation (msg : string)
| UnsupportedOperation (msg : string)
| IndexError (msg : string)
| ArithmeticTrap (msg : string).

Inductive Result (A : Type) :=
| Ok (a : A)
| Raise (e : Failure).
Arguments Ok {A} _.
Arguments Raise {A} _.

Record HostState := mkHost {
  stream : list StreamOp;
  stdout : list (string * list Z)
}.

Definition Host (A : Type) : Type := HostState -> Result A * HostState.

Definition ret {A} (a : A) : Host A := fun s => (Ok a, s).
Definition bind {A B} (c : Host A) (k : A -> Host B) : Host B :=
  fun s => match c s with
           | (Ok a, s') => k a s'
           | (Raise e, s') => (Raise e, s')
           end.
Definition raise {A} (e : Failure) : Host A := fun s => (Raise e, s).

Declare Scope host_scope.
Delimit Scope host_scope with host.
Notation "x <- c ;; k" := (bind c (fun x => k))
  (at level 61, c at next level, right associativity) : host_scope.
Notation "c ;; k" := (bind c (fun _ => k))
  (at level 61, right associativity) : host_scope.
Local Open Scope host_scope.

Definition TORCH_CHECK (cond : bool) (msg : string) : Host unit :=
  if cond then ret tt else raise (PreconditionViolation msg).
Definition TORCH_CHECK_unsupported (msg : string) : Host unit :=
  raise (UnsupportedOperation msg).
Definition printf (fmt : string) (args : list Z) : Host unit :=
  fun s => (Ok tt, mkHost (stream s) (stdout s ++ [(fmt, args)])).
Definition enqueue (op : StreamOp) : Host unit :=
  fun s => (Ok tt, mkHost (stream s ++ [op]) (stdout s)).

(** [for_each l body acc]: a host loop over [l] threading the local
    variables [acc]. *)
Fixpoint for_each {A S : Type} (l : list A) (body : A -> S -> Host S) (acc : S)
    : Host S :=
  match l with
  | [] => ret acc
  | a :: l' => acc' <- body a acc ;; for_each l' body acc'
  end.

(** [t.size(d)] and [t.stride(d)] for a literal dimension [d]: the extent
    and the stride of the dimension, or an index error when the tensor has
    no such dimension. *)
Definition size (t : Tensor) (d : nat) : Host Z :=
  match nth_error (sizes t) d with
  | Some n => ret n
  | None => raise (IndexError "Dimension out of range")
  end.
Definition stride (t : Tensor) (d : nat) : Host Z :=
  match nth_error (strides t) d with
  | Some n => ret n
  | None => raise (IndexError "Dimension out of range")
  end.

(** [t[0]]: the first slice along dimension 0. *)
Definition select0 (t : Tensor) : Host Tensor :=
  match sizes t with
  | [] => raise (IndexError "invalid index of a 0-dim tensor")
  | n :: rest =>
      if 0 <? n
      then ret (mkTensor (device t) (dtype t) rest (tl (strides t)) (data_ptr t))
      else raise (IndexError "index 0 is out of bounds for dimension 0")
  end.

(** [m[i].item<int64_t>()] on a one-dimensional index tensor. *)
Definition item {A : Type} (m : MappingTensor A) (i : Z) : Host A :=
  match nth_error (rows m) (Z.to_nat i) with
  | Some a => ret a
  | None => raise (IndexError "index out of range")
  end.

(** The host operator [a % b] at type [int64_t]. *)
Definition host_rem (a b : Z) : Host Z :=
  if b =? 0 then raise (ArithmeticTrap "integer division by zero")
  else ret (Z.rem a b).

(* ================================================================== *)
(** * Block Transfer Engine: [swap_blocks] *)
(* ================================================================== *)

(** The diagnostic counters of [swap_blocks] and [copy_blocks], each an
    [int64_t]. *)
Record Stats := mkStats {
  free_tokens : Z;
  used_tokens : Z;
  internal_fragmentation : Z
}.

(** One iteration of the copy loop of [swap_blocks]. *)
Definition swap_blocks_step (src : Tensor) (src_ptr dst_ptr : Z)
    (block_size_in_bytes : Z) (memcpy_type : cudaMemcpyKind)
    (pair : Z * Z) (st : Stats) : Host Stats :=
  let src_block_number := fst pair in
  let dst_block_number := snd pair in
  let src_offset := mul64 src_block_number block_size_in_bytes in
  let dst_offset := mul64 dst_block_number block_size_in_bytes in
  let st1 :=
    if negb (src_block_number =? 0)
    then mkStats (free_tokens st) (add64 (used_tokens st) 1)
           (internal_fragmentation st)
    else mkStats (add64 (free_tokens st) 1) (used_tokens st)
           (internal_fragmentation st) in
  src_size0 <- size src 0 ;;
  last_block_size <- host_rem src_size0 block_size_in_bytes ;;
  let st2 :=
    if 0 <? last_block_size
    then mkStats (free_tokens st1) (used_tokens st1)
           (add64 (internal_fragmentation st1)
              (sub64 block_size_in_bytes last_block_size))
    else st1 in
  enqueue (MemcpyAsync (dst_ptr + dst_offset) (src_ptr + src_offset)
             block_size_in_bytes memcpy_type) ;;
  ret st2.

(** The residency test at the head of [swap_blocks], which picks
    [memcpy_type] or rejects the call. *)
Definition swap_blocks_memcpy_type (src_device dst_device : Device)
    : Host cudaMemcpyKind :=
  if is_cuda src_device && is_cuda dst_device then
    TORCH_CHECK (index src_device =? index dst_device)
      "src and dst must be on the same GPU" ;;
    ret cudaMemcpyDeviceToDevice
  else if is_cuda src_device && is_cpu dst_device then
    ret cudaMemcpyDeviceToHost
  else if is_cpu src_device && is_cuda dst_device then
    ret cudaMemcpyHostToDevice
  else
    raise (PreconditionViolation "invalid device combination").

Definition swap_blocks (src dst : Tensor) (block_mapping : MappingTensor (Z * Z))
    : Host unit :=
  printf "swap_blocks function called\n" [] ;;
  let src_device := device src in
  let dst_device := device dst in
  memcpy_type <- swap_blocks_memcpy_type src_device dst_device ;;
  TORCH_CHECK (is_cpu (map_device block_mapping))
    "block_mapping must be on the CPU" ;;
  let src_ptr := data_ptr src in
  let dst_ptr := data_ptr dst in
  src0 <- select0 src ;;
  let block_size_in_bytes := mul64 (element_size src) (numel src0) in
  st <- for_each (rows block_mapping)
          (swap_blocks_step src src_ptr dst_ptr block_size_in_bytes memcpy_type)
          (mkStats 0 0 0) ;;
  printf "Free Tokens: %ld\n" [free_tokens st] ;;
  printf "Used Tokens: %ld\n" [used_tokens st] ;;
  printf "Internal Fragmentation: %ld bytes\n" [internal_fragmentation st].

(* ================================================================== *)
(** * Block Replication Engine: [copy_blocks] *)
(* ================================================================== *)

(** Grid: (num_layers, num_pairs).  The kernel is instantiated at the
    element type [scalar_t]; the entries of the pointer tables are
    addresses, cast to [scalar_t*]. *)
Definition copy_blocks_kernel (scalar_t : ScalarType)
    (key_cache_ptrs value_cache_ptrs : list Z)
    (block_mapping : list Z) (numel_per_block : Z) : Kernel :=
  fun blockIdx_x blockIdx_y threadIdx_x blockDim_x =>
  let layer_idx := int blockIdx_x in
  let pair_idx := int blockIdx_y in
  let key_cache :=
    mkPointer (nth (Z.to_nat layer_idx) key_cache_ptrs 0)
      (elementSize scalar_t) in
  let value_cache :=
    mkPointer (nth (Z.to_nat layer_idx) value_cache_ptrs 0)
      (elementSize scalar_t) in
  let src_block_number := nth (Z.to_nat (mul32 2 pair_idx)) block_mapping 0 in
  let dst_block_number :=
    nth (Z.to_nat (add32 (mul32 2 pair_idx) 1)) block_mapping 0 in
  let src_block_offset := mul64 src_block_number numel_per_block in
  let dst_block_offset := mul64 dst_block_number numel_per_block in
  thread_loop (Z.to_nat numel_per_block) (int threadIdx_x) numel_per_block
    blockDim_x (fun i =>
      let src_offset := add64 src_block_offset i in
      let dst_offset := add64 dst_block_offset i in
      [copy_cell (key_cache, dst_offset) (key_cache, src_offset)])
  ++
  thread_loop (Z.to_nat numel_per_block) (int threadIdx_x) numel_per_block
    blockDim_x (fun i =>
      let src_offset := add64 src_block_offset i in
      let dst_offset := add64 dst_block_offset i in
      [copy_cell (value_cache, dst_offset) (value_cache, src_offset)]).

(** The contiguous [num_pairs x 2] storage of a block mapping. *)
Definition flatten_pairs (l : list (Z * Z)) : list Z :=
  flat_map (fun p => [fst p; snd p]) l.

(** Modelled from the spec: the macro [VLLM_DISPATCH_FLOATING_AND_BYTE_TYPES]
    of [dispatch_utils.h], which is not among the sources.  "Numeric dispatch
    spans the supported floating representations plus an opaque byte type";
    the macro has a case for exactly these element types. *)
Definition VLLM_DISPATCH_FLOATING_AND_BYTE_TYPES (t : ScalarType) : bool :=
  match t with
  | Float | Half | BFloat16 | Byte => true
  | _ => false
  end.

Definition null_tensor : Tensor := mkTensor (mkDevice CPU 0) Byte [] [] 0.

(** The statistics loop of [copy_blocks] for one (layer, pair). *)
Definition copy_blocks_stat (numel_per_block : Z) (layer : Tensor)
    (pair : Z * Z) (st : Stats) : Host Stats :=
  let src_block_number := fst pair in
  let st1 :=
    if negb (src_block_number =? 0)
    then mkStats (free_tokens st) (add64 (used_tokens st) 1)
           (internal_fragmentation st)
    else mkStats (add64 (free_tokens st) 1) (used_tokens st)
           (internal_fragmentation st) in
  layer_size0 <- size layer 0 ;;
  last_block_size <- host_rem layer_size0 numel_per_block ;;
  ret (if 0 <? last_block_size
       then mkStats (free_tokens st1) (used_tokens st1)
              (add64 (internal_fragmentation st1)
                 (sub64 numel_per_block last_block_size))
       else st1).

Definition copy_blocks (key_caches value_caches : list Tensor)
    (block_mapping : MappingTensor (Z * Z)) : Host unit :=
  printf "copy_blocks function called\n" [] ;;
  let num_layers := int (Z.of_nat (List.length key_caches)) in
  TORCH_CHECK (num_layers =? Z.of_nat (List.length value_caches))
    "Expected num_layers == value_caches.size() to be true" ;;
  if num_layers =? 0 then ret tt else
  let cache_device := device (hd null_tensor key_caches) in
  TORCH_CHECK (is_cuda cache_device)
    "Expected cache_device.is_cuda() to be true" ;;
  let key_cache_ptrs := map data_ptr key_caches in
  let value_cache_ptrs := map data_ptr value_caches in
  let num_pairs := int (Z.of_nat (List.length (rows block_mapping))) in
  key00 <- select0 (hd null_tensor key_caches) ;;
  let numel_per_block := int (numel key00) in
  let grid := (unsigned_int num_layers, unsigned_int num_pairs) in
  let block := unsigned_int (Z.min 1024 numel_per_block) in
  st <- for_each key_caches (fun layer st =>
          for_each (rows block_mapping) (copy_blocks_stat numel_per_block layer) st)
          (mkStats 0 0 0) ;;
  printf "Free Tokens: %ld\n" [free_tokens st] ;;
  printf "Used Tokens: %ld\n" [used_tokens st] ;;
  printf "Internal Fragmentation: %ld bytes\n" [internal_fragmentation st] ;;
  let scalar_t := dtype (hd null_tensor key_caches) in
  if VLLM_DISPATCH_FLOATING_AND_BYTE_TYPES scalar_t
  then enqueue (KernelLaunch "copy_blocks_kernel" (fst grid) (snd grid) block
                  (copy_blocks_kernel scalar_t key_cache_ptrs value_cache_ptrs
                     (flatten_pairs (rows block_mapping)) numel_per_block))
  else raise (UnsupportedOperation "copy_blocks_kernel not implemented for dtype").

(* ================================================================== *)
(** * Precision conversion of one scalar *)
(* ================================================================== *)

(** [vllm::Fp8KVCacheDataType], with the tags this file names. *)
Inductive Fp8KVCacheDataType := kAuto | kFp8E4M3.

(** The C++ types the kernels are instantiated at. *)
Inductive CType := c_float | c_uint16_t | c_nv_bfloat16 | c_uint8_t.

Definition sizeof (t : CType) : Z :=
  match t with
  | c_float => 4
  | c_uint16_t | c_nv_bfloat16 => 2
  | c_uint8_t => 1
  end.

(** A pointer to the objects of type [t] at address [a]:
    [reinterpret_cast<t*>(a)]. *)
Definition pointer_to (t : CType) (a : Z) : Pointer := mkPointer a (sizeof t).

Section Conversion.

(** The conversion [fp8::scaled_convert<Tout, Tin, kv_dt>(x, scale)] of
    [quantization/fp8/.../quant_utils.cuh], which is not among the sources:
    from the bit pattern of a [Tin] and the scale to the bit pattern of a
    [Tout]. *)
Variable scaled_convert :
  CType -> CType -> Fp8KVCacheDataType -> Z -> Q -> Z.

(* ================================================================ *)
(** * Cache Scatter Engine: [reshape_and_cache] *)
(* ================================================================ *)

(** [tgt_key_idx] of [reshape_and_cache_kernel]; the first and the fourth
    products are computed at [int64_t], the others at [int]. *)
Definition tgt_key_idx (num_heads head_size block_size x : Z)
    (block_idx block_offset head_idx x_idx x_offset : Z) : Z :=
  add64 (add64 (add64 (add64
    (mul64 (mul64 (mul64 (mul64 block_idx num_heads) (Z.quot head_size x))
              block_size) x)
    (mul32 (mul32 (mul32 head_idx (Z.quot head_size x)) block_size) x))
    (mul32 (mul32 x_idx block_size) x))
    (mul64 block_offset x))
    x_offset.

(** [tgt_value_idx] of [reshape_and_cache_kernel]. *)
Definition tgt_value_idx (num_heads head_size block_size : Z)
    (block_idx block_offset head_idx head_offset : Z) : Z :=
  add64 (add64 (add64
    (mul64 (mul64 (mul64 block_idx num_heads) head_size) block_size)
    (mul32 (mul32 head_idx head_size) block_size))
    (mul32 head_offset block_size))
    block_offset.

(** [block_idx] and [block_offset] of a slot, as both scatter kernels
    compute them. *)
Definition block_idx_of (slot_idx block_size : Z) : Z :=
  int64_t (Z.quot slot_idx block_size).
Definition block_offset_of (slot_idx block_size : Z) : Z :=
  int64_t (Z.rem slot_idx block_size).

(** Grid: (num_tokens).  [key] and [value] are the [const scalar_t*
    __restrict__] arrays, [key_cache] and [value_cache] the [cache_t*
    __restrict__] arrays. *)
Definition reshape_and_cache_kernel (scalar_t cache_t : CType)
    (kv_dt : Fp8KVCacheDataType)
    (key value key_cache value_cache : Pointer) (slot_mapping : list Z)
    (key_stride value_stride num_heads head_size block_size x : Z)
    (kv_scale : Q) : Kernel :=
  fun blockIdx_x blockIdx_y threadIdx_x blockDim_x =>
  let token_idx := blockIdx_x in
  let slot_idx := nth (Z.to_nat token_idx) slot_mapping 0 in
  if slot_idx <? 0 then [] else
  let block_idx := block_idx_of slot_idx block_size in
  let block_offset := block_offset_of slot_idx block_size in
  let n := mul32 num_heads head_size in
  thread_loop (Z.to_nat n) (int threadIdx_x) n blockDim_x (fun i =>
    let src_key_idx := add64 (mul64 token_idx key_stride) i in
    let src_value_idx := add64 (mul64 token_idx value_stride) i in
    let head_idx := Z.quot i head_size in
    let head_offset := Z.rem i head_size in
    let x_idx := Z.quot head_offset x in
    let x_offset := Z.rem head_offset x in
    let tgt_key_idx :=
      tgt_key_idx num_heads head_size block_size x
        block_idx block_offset head_idx x_idx x_offset in
    let tgt_value_idx :=
      tgt_value_idx num_heads head_size block_size
        block_idx block_offset head_idx head_offset in
    let conv :=
      match kv_dt with
      | kAuto => fun v => v
      | _ => fun v => scaled_convert cache_t scalar_t kv_dt v kv_scale
      end in
    [ mkTransfer (key_cache, tgt_key_idx) (key, src_key_idx) conv;
      mkTransfer (value_cache, tgt_value_idx) (value, src_value_idx) conv ]).

(** Grid: (num_tokens); flat layout, plain copy. *)
Definition reshape_and_cache_flash_kernel
    (key value k_cache v_cache : Pointer) (slot_mapping : list Z)
    (block_stride key_stride value_stride num_heads head_size block_size : Z)
    : Kernel :=
  fun blockIdx_x blockIdx_y threadIdx_x blockDim_x =>
  let token_idx := blockIdx_x in
  let slot_idx := nth (Z.to_nat token_idx) slot_mapping 0 in
  if slot_idx <? 0 then [] else
  let block_idx := block_idx_of slot_idx block_size in
  let block_offset := block_offset_of slot_idx block_size in
  let n := mul32 num_heads head_size in
  thread_loop (Z.to_nat n) (int threadIdx_x) n blockDim_x (fun i =>
    let src_key_idx := add64 (mul64 token_idx key_stride) i in
    let src_value_idx := add64 (mul64 token_idx value_stride) i in
    let head_idx := Z.quot i head_size in
    let head_offset := Z.rem i head_size in
    let tgt_value_idx :=
      add64 (add64 (add64
        (mul64 block_idx block_stride)
        (mul64 (mul64 block_offset num_heads) head_size))
        (mul32 head_idx head_size))
        head_offset in
    [ copy_cell (k_cache, tgt_value_idx) (key, src_key_idx);
      copy_cell (v_cache, tgt_value_idx) (value, src_value_idx) ]).

(** The token statistics loop shared by the two scatter entry points:
    the pair (free_tokens, used_tokens) of [int64_t] counters. *)
Definition count_tokens (slot_mapping : MappingTensor Z) (num_tokens : Z)
    : Host (Z * Z) :=
  for_each (upto num_tokens) (fun i acc =>
    slot_idx <- item slot_mapping i ;;
    ret (if slot_idx <? 0 then (add64 (fst acc) 1, snd acc)
         else (fst acc, add64 (snd acc) 1)))
    (0, 0).

(** The macro [DISPATCH_BY_KV_CACHE_DTYPE] of [quant_utils.cuh], which is
    not among the sources: from the element type of [key] and the cache
    dtype tag to the instantiation [(KV_T, CACHE_T, KV_DTYPE)] handed to
    [CALL_RESHAPE_AND_CACHE], or a failure. *)
Variable DISPATCH_BY_KV_CACHE_DTYPE :
  ScalarType -> string -> Result (CType * CType * Fp8KVCacheDataType).

(** The conversion of the [double] scale to the [float] kernel parameter. *)
Variable double_to_float : Q -> Q.

Definition reshape_and_cache (key value key_cache value_cache : Tensor)
    (slot_mapping : MappingTensor Z) (kv_cache_dtype : string) (kv_scale : Q)
    : Host unit :=
  printf "reshape_and_cache function called\n" [] ;;
  key_size0 <- size key 0 ;;
  let num_tokens := int key_size0 in
  key_size1 <- size key 1 ;;
  let num_heads := int key_size1 in
  key_size2 <- size key 2 ;;
  let head_size := int key_size2 in
  key_cache_size3 <- size key_cache 3 ;;
  let block_size := int key_cache_size3 in
  key_cache_size4 <- size key_cache 4 ;;
  let x := int key_cache_size4 in
  key_stride0 <- stride key 0 ;;
  let key_stride := int key_stride0 in
  value_stride0 <- stride value 0 ;;
  let value_stride := int value_stride0 in
  let grid := unsigned_int num_tokens in
  let block := unsigned_int (Z.min (mul32 num_heads head_size) 512) in
  st <- count_tokens slot_mapping num_tokens ;;
  printf "Free Tokens: %ld\n" [fst st] ;;
  printf "Used Tokens: %ld\n" [snd st] ;;
  match DISPATCH_BY_KV_CACHE_DTYPE (dtype key) kv_cache_dtype with
  | Ok (KV_T, CACHE_T, KV_DTYPE) =>
      enqueue (KernelLaunch "reshape_and_cache_kernel" grid 1 block
                 (reshape_and_cache_kernel KV_T CACHE_T KV_DTYPE
                    (pointer_to KV_T (data_ptr key))
                    (pointer_to KV_T (data_ptr value))
                    (pointer_to CACHE_T (data_ptr key_cache))
                    (pointer_to CACHE_T (data_ptr value_cache))
                    (rows slot_mapping) key_stride value_stride
                    num_heads head_size block_size x
                    (double_to_float kv_scale)))
  | Raise e => raise e
  end.

(** Modelled from the spec: the macro [VLLM_DISPATCH_FLOATING_TYPES] of
    [dispatch_utils.h], which is not among the sources; it has a case for
    each of "the supported floating representations" (32-bit float, 16-bit
    float, 16-bit alternate-exponent float). *)
Definition VLLM_DISPATCH_FLOATING_TYPES (t : ScalarType) : bool :=
  match t with
  | Float | Half | BFloat16 => true
  | _ => false
  end.

(** [t.data_ptr<scalar_t>()]: the typed accessor checks the element type. *)
Definition data_ptr_as (scalar_t : ScalarType) (t : Tensor) : Host Pointer :=
  TORCH_CHECK (ScalarType_eqb (dtype t) scalar_t)
    "expected scalar type does not match the tensor" ;;
  ret (mkPointer (data_ptr t) (elementSize scalar_t)).

Definition reshape_and_cache_flash (key value k_cache v_cache : Tensor)
    (slot_mapping : MappingTensor Z) (kv_cache_dtype : string) : Host unit :=
  printf "reshape_and_cache_flash function called\n" [] ;;
  (if negb (String.eqb kv_cache_dtype "auto")
   then TORCH_CHECK_unsupported
          ("Unsupported data type of kv cache: " ++ kv_cache_dtype)%string
   else ret tt) ;;
  key_size0 <- size key 0 ;;
  let num_tokens := int key_size0 in
  key_size1 <- size key 1 ;;
  let num_heads := int key_size1 in
  key_size2 <- size key 2 ;;
  let head_size := int key_size2 in
  k_cache_size1 <- size k_cache 1 ;;
  let block_size := int k_cache_size1 in
  key_stride0 <- stride key 0 ;;
  let key_stride := int key_stride0 in
  value_stride0 <- stride value 0 ;;
  let value_stride := int value_stride0 in
  k_cache_stride0 <- stride k_cache 0 ;;
  let block_stride := int k_cache_stride0 in
  k_stride <- stride k_cache 0 ;;
  v_stride <- stride v_cache 0 ;;
  TORCH_CHECK (k_stride =? v_stride)
    "Expected k_cache.stride(0) == v_cache.stride(0) to be true" ;;
  st <- count_tokens slot_mapping num_tokens ;;
  printf "Free Tokens: %ld\n" [fst st] ;;
  printf "Used Tokens: %ld\n" [snd st] ;;
  let grid := unsigned_int num_tokens in
  let block := unsigned_int (Z.min (mul32 num_heads head_size) 512) in
  if VLLM_DISPATCH_FLOATING_TYPES (dtype key) then
    let scalar_t := dtype key in
    key_p <- data_ptr_as scalar_t key ;;
    value_p <- data_ptr_as scalar_t value ;;
    k_cache_p <- data_ptr_as scalar_t k_cache ;;
    v_cache_p <- data_ptr_as scalar_t v_cache ;;
    enqueue (KernelLaunch "reshape_and_cache_flash_kernel" grid 1 block
               (reshape_and_cache_flash_kernel key_p value_p k_cache_p v_cache_p
                  (rows slot_mapping) block_stride key_stride value_stride
                  num_heads head_size block_size))
  else raise (UnsupportedOperation
                "reshape_and_cache_flash not implemented for dtype").

(* ================================================================ *)
(** * Precision Conversion Engine: [convert_fp8] *)
(* ================================================================ *)

(** Grid: (num_blocks).  [src_cache] is the [const Tin* __restrict__]
    array and [dst_cache] the [Tout* __restrict__] array. *)
Definition convert_fp8_kernel (Tout Tin : CType) (kv_dt : Fp8KVCacheDataType)
    (src_cache dst_cache : Pointer) (kv_scale : Q) (block_stride : Z) : Kernel :=
  fun blockIdx_x blockIdx_y threadIdx_x blockDim_x =>
  let block_idx := blockIdx_x in
  thread_loop (Z.to_nat block_stride) (int threadIdx_x) block_stride
    blockDim_x (fun i =>
      let idx := add64 (mul64 block_idx block_stride) i in
      [ mkTransfer (dst_cache, idx) (src_cache, idx)
          (fun v => scaled_convert Tout Tin kv_dt v kv_scale) ]).

(** The macro [CALL_CONVERT_FP8(Tout, Tin, KV_DTYPE)], with the variables
    it captures made explicit. *)
Definition CALL_CONVERT_FP8 (grid block : Z) (src_cache dst_cache : Tensor)
    (kv_scale : Q) (block_stride : Z)
    (Tout Tin : CType) (KV_DTYPE : Fp8KVCacheDataType) : Host unit :=
  enqueue (KernelLaunch "convert_fp8_kernel" grid 1 block
             (convert_fp8_kernel Tout Tin KV_DTYPE
                (pointer_to Tin (data_ptr src_cache))
                (pointer_to Tout (data_ptr dst_cache))
                (double_to_float kv_scale) block_stride)).

Definition convert_fp8 (dst_cache src_cache : Tensor) (kv_scale : Q)
    (kv_cache_dtype : string) : Host unit :=
  let src_device := device src_cache in
  let dst_device := device dst_cache in
  TORCH_CHECK (is_cuda src_device) "src must be on a GPU" ;;
  TORCH_CHECK (is_cuda dst_device) "dst must be on a GPU" ;;
  TORCH_CHECK (index src_device =? index dst_device)
    "src and dst must be on the same GPU" ;;
  num_blocks <- size src_cache 0 ;;
  block_stride <- stride src_cache 0 ;;
  let grid := unsigned_int num_blocks in
  let block := unsigned_int (Z.min block_stride 512) in
  let CALL := CALL_CONVERT_FP8 grid block src_cache dst_cache kv_scale
                block_stride in
  if String.eqb kv_cache_dtype "auto" then
    if ScalarType_eqb (dtype src_cache) Float then
      CALL c_uint8_t c_float kAuto
    else if ScalarType_eqb (dtype src_cache) Half then
      CALL c_uint8_t c_uint16_t kAuto
    else if ScalarType_eqb (dtype src_cache) BFloat16 then
      CALL c_uint8_t c_nv_bfloat16 kAuto
    else if ScalarType_eqb (dtype dst_cache) Float then
      CALL c_float c_uint8_t kAuto
    else if ScalarType_eqb (dtype dst_cache) Half then
      CALL c_uint16_t c_uint8_t kAuto
    else if ScalarType_eqb (dtype dst_cache) BFloat16 then
      CALL c_nv_bfloat16 c_uint8_t kAuto
    else ret tt
  else if String.eqb kv_cache_dtype "fp8" || String.eqb kv_cache_dtype "fp8_e4m3" then
    if ScalarType_eqb (dtype src_cache) Float then
      CALL c_uint8_t c_float kFp8E4M3
    else if ScalarType_eqb (dtype src_cache) Half then
      CALL c_uint8_t c_uint16_t kFp8E4M3
    else if ScalarType_eqb (dtype src_cache) BFloat16 then
      CALL c_uint8_t c_nv_bfloat16 kFp8E4M3
    else if ScalarType_eqb (dtype dst_cache) Float then
      CALL c_float c_uint8_t kFp8E4M3
    else if ScalarType_eqb (dtype dst_cache) Half then
      CALL c_uint16_t c_uint8_t kFp8E4M3
    else if ScalarType_eqb (dtype dst_cache) BFloat16 then
      CALL c_nv_bfloat16 c_uint8_t kFp8E4M3
    else ret tt
  else
    TORCH_CHECK_unsupported ("Unsupported data type: " ++ kv_cache_dtype)%string.

End Conversion.

(* ================================================================== *)
(** * Specification vocabulary *)
(* ================================================================== *)

(** The accepted residency combinations of [swap_blocks] and the copy
    direction each one selects. *)
Definition swap_direction (src_device dst_device : Device) (kind : cudaMemcpyKind)
    : Prop :=
  (is_cuda src_device = true /\ is_cuda dst_device = true /\
   index src_device = index dst_device /\ kind = cudaMemcpyDeviceToDevice) \/
  (is_cuda src_device = true /\ is_cpu dst_device = true /\
   kind = cudaMemcpyDeviceToHost) \/
  (is_cpu src_device = true /\ is_cuda dst_device = true /\
   kind = cudaMemcpyHostToDevice).

(** The copies [swap_blocks] enqueues for a mapping, in mapping order. *)
Definition swap_copies (src_ptr dst_ptr block_size_in_bytes : Z)
    (kind : cudaMemcpyKind) (pairs : list (Z * Z)) : list StreamOp :=
  map (fun p => MemcpyAsync (dst_ptr + mul64 (snd p) block_size_in_bytes)
                            (src_ptr + mul64 (fst p) block_size_in_bytes)
                            block_size_in_bytes kind) pairs.


(** The size of a buffer in bytes, and the bytes it occupies. *)
Definition nbytes (t : Tensor) : Z := element_size t * numel t.
Definition buffer (t : Tensor) : Region := mkRegion (data_ptr t) (nbytes t).

(** A block mapping is valid for a transfer of blocks of [B] bytes from a
    buffer of [src_bytes] bytes to one of [dst_bytes] bytes when every
    source and destination block lies inside its buffer and no destination
    block is given two different sources. *)
Definition valid_block_mapping (B src_bytes dst_bytes : Z)
    (pairs : list (Z * Z)) : Prop :=
  (forall p, In p pairs ->
     0 <= fst p /\ (fst p + 1) * B <= src_bytes /\
     0 <= snd p /\ (snd p + 1) * B <= dst_bytes) /\
  (forall p q, In p pairs -> In q pairs -> snd p = snd q -> fst p = fst q).

(** Conditions on the block mapping of a replication call over buffers of
    [num_blocks] blocks. *)
Definition blocks_in_range (num_blocks : Z) (pairs : list (Z * Z)) : Prop :=
  forall p, In p pairs ->
    0 <= fst p < num_blocks /\ 0 <= snd p < num_blocks.

(** No destination block is given two different sources. *)
Definition single_source (pairs : list (Z * Z)) : Prop :=
  forall p q, In p pairs -> In q pairs -> snd p = snd q -> fst p = fst q.

(** No destination block is also a source block. *)
Definition targets_disjoint_from_sources (pairs : list (Z * Z)) : Prop :=
  forall p q, In p pairs -> In q pairs -> snd p <> fst q.

(** The copy of element [i] of the source block of pair [p] onto element [i]
    of its destination block, in the buffer at [ptr] whose blocks have
    [numel_per_block] elements. *)
Definition replica (ptr : Pointer) (numel_per_block : Z) (p : Z * Z) (i : Z)
    : Transfer :=
  copy_cell (ptr, snd p * numel_per_block + i) (ptr, fst p * numel_per_block + i).

(** The encoding tags [convert_fp8] knows. *)
Definition supported_encoding (kv_cache_dtype : string) : bool :=
  String.eqb kv_cache_dtype "auto" || String.eqb kv_cache_dtype "fp8"
  || String.eqb kv_cache_dtype "fp8_e4m3".

Definition is_wide (t : ScalarType) : bool :=
  match t with Float | Half | BFloat16 => true | _ => false end.
Definition is_narrow (t : ScalarType) : bool :=
  match t with Byte => true | _ => false end.

(** The supported set of the Precision Conversion Engine as the
    specification words it: one of the three wide representations paired
    with the narrow one, in either direction, under a known encoding. *)
Definition supported_conversion (src_dtype dst_dtype : ScalarType)
    (kv_cache_dtype : string) : bool :=
  supported_encoding kv_cache_dtype &&
  ((is_wide src_dtype && is_narrow dst_dtype) ||
   (is_narrow src_dtype && is_wide dst_dtype)).

(** The split-layout addressing of the specification, written with the
    mathematical quotient and remainder: for channel [i] of a token with
    slot [slot], [head = i / head_size], [head_off = i % head_size],
    [x_idx = head_off / x], [x_off = head_off % x],
    [block = slot / block_size], [boff = slot % block_size]. *)
Definition spec_key_offset (heads head_size block_size x slot i : Z) : Z :=
  let head := i / head_size in
  let head_off := i mod head_size in
  let x_idx := head_off / x in
  let x_off := head_off mod x in
  let block := slot / block_size in
  let boff := slot mod block_size in
  block * heads * (head_size / x) * block_size * x
  + head * (head_size / x) * block_size * x
  + x_idx * block_size * x + boff * x + x_off.

Definition spec_value_offset (heads head_size block_size slot i : Z) : Z :=
  let head := i / head_size in
  let head_off := i mod head_size in
  let block := slot / block_size in
  let boff := slot mod block_size in
  block * heads * head_size * block_size
  + head * head_size * block_size + head_off * block_size + boff.

(** A host computation that leaves stream and output as they are. *)
Definition pure_host {A : Type} (c : Host A) : Prop :=
  forall s, snd (c s) = s.

(** The reading under which every conversion outside the supported set is
    refused before anything is enqueued. *)
Definition refuses_every_unsupported_conversion
    (scaled_convert : CType -> CType -> Fp8KVCacheDataType -> Z -> Q -> Z)
    (double_to_float : Q -> Q) : Prop :=
  forall dst_cache src_cache kv_scale kv_cache_dtype s,
    supported_conversion (dtype src_cache) (dtype dst_cache) kv_cache_dtype = false ->
    (exists msg,
       fst (convert_fp8 scaled_convert double_to_float
              dst_cache src_cache kv_scale kv_cache_dtype s)
       = Raise (UnsupportedOperation msg)) /\
    stream (snd (convert_fp8 scaled_convert double_to_float
                   dst_cache src_cache kv_scale kv_cache_dtype s)) = stream s.

(** The reading under which [copy_blocks] refuses every layer set that
    holds a buffer which is not device-resident. *)
Definition rejects_every_non_device_buffer : Prop :=
  forall key_caches value_caches block_mapping s,
    (exists t, In t (key_caches ++ value_caches) /\
               is_cuda (device t) = false) ->
    exists msg,
      fst (copy_blocks key_caches value_caches block_mapping s)
      = Raise (PreconditionViolation msg).

(* ================================================================== *)
(** * Scenario data *)
(* ================================================================== *)

Module Scenario.

Definition gpu0 : Device := mkDevice CUDA 0.
Definition gpu1 : Device := mkDevice CUDA 1.
Definition host : Device := mkDevice CPU 0.

(** An idle host: nothing enqueued, nothing printed. *)
Definition idle : HostState := mkHost [] [].

(** Buffers of 8 blocks of 4 half-precision elements. *)
Definition device_buffer : Tensor := mkTensor gpu0 Half [8; 4] [4; 1] 4096.
Definition other_device_buffer : Tensor := mkTensor gpu1 Half [8; 4] [4; 1] 8192.
Definition host_buffer : Tensor := mkTensor host Half [8; 4] [4; 1] 12288.
Definition host_buffer' : Tensor := mkTensor host Half [8; 4] [4; 1] 16384.

Definition host_mapping : MappingTensor (Z * Z) := mkMapping host [(0, 0); (1, 1)].
Definition device_mapping : MappingTensor (Z * Z) := mkMapping gpu0 [(0, 0); (1, 1)].

(** Two layers of key and value caches, 8 blocks of 4 elements each. *)
Definition key_layers : list Tensor :=
  [ mkTensor gpu0 Half [8; 4] [4; 1] 100000;
    mkTensor gpu0 Half [8; 4] [4; 1] 200000 ].
Definition value_layers : list Tensor :=
  [ mkTensor gpu0 Half [8; 4] [4; 1] 300000;
    mkTensor gpu0 Half [8; 4] [4; 1] 400000 ].
(** Value caches of which the first is host-resident. *)
Definition mixed_value_layers : list Tensor :=
  [ mkTensor host Half [8; 4] [4; 1] 300000;
    mkTensor gpu0 Half [8; 4] [4; 1] 400000 ].
Definition host_key_layers : list Tensor :=
  [ mkTensor host Half [8; 4] [4; 1] 100000 ].
Definition host_value_layers : list Tensor :=
  [ mkTensor host Half [8; 4] [4; 1] 300000 ].

(** Block 2 is replicated into block 5. *)
Definition fork_mapping : MappingTensor (Z * Z) := mkMapping gpu0 [(2, 5)].
Definition empty_mapping : MappingTensor (Z * Z) := mkMapping gpu0 [].

(** Two integer buffers on one device: no wide or narrow representation. *)
Definition int_src : Tensor := mkTensor gpu0 Int [8; 4] [4; 1] 500000.
Definition int_dst : Tensor := mkTensor gpu0 Int [8; 4] [4; 1] 600000.

(** A wide buffer, a narrow buffer and a second wide buffer, 8 blocks of 4
    elements each. *)
Definition wide_src : Tensor := mkTensor gpu0 Float [8; 4] [4; 1] 700000.
Definition narrow_tmp : Tensor := mkTensor gpu0 Byte [8; 4] [4; 1] 800000.
Definition wide_dst : Tensor := mkTensor gpu0 Float [8; 4] [4; 1] 900000.

(** The scatter scenario: three tokens, 2 heads of size 4, blocks of 16
    slots, x = 2; the second token is padding. *)
Definition tokens_key : Tensor := mkTensor gpu0 Half [3; 2; 4] [8; 4; 1] 1000.
Definition tokens_value : Tensor := mkTensor gpu0 Half [3; 2; 4] [8; 4; 1] 2000.
Definition split_key_cache : Tensor :=
  mkTensor gpu0 Half [2; 2; 2; 16; 2] [128; 64; 32; 2; 1] 3000.
Definition split_value_cache : Tensor :=
  mkTensor gpu0 Half [2; 2; 4; 16] [128; 64; 16; 1] 4000.
Definition flat_k_cache : Tensor :=
  mkTensor gpu0 Half [2; 16; 2; 4] [128; 8; 4; 1] 5000.
Definition flat_v_cache : Tensor :=
  mkTensor gpu0 Half [2; 16; 2; 4] [128; 8; 4; 1] 6000.
Definition slots : MappingTensor Z := mkMapping gpu0 [5; -1; 20].
Definition padding_only : MappingTensor Z := mkMapping gpu0 [-1; -1; -1].

(** Stand-ins for the parts of the fp8 support that are not modelled. *)
Definition no_fp8 : CType -> CType -> Fp8KVCacheDataType -> Z -> Q -> Z :=
  fun _ _ _ x _ => x.
Definition same_scale : Q -> Q := fun q => q.
Definition dispatch_direct
    : ScalarType -> string -> Result (CType * CType * Fp8KVCacheDataType) :=
  fun _ _ => Ok (c_uint16_t, c_uint16_t, kAuto).

(** A memory in which every byte holds a value determined by its
    address. *)
Definition numbered : Memory := fun a => a.

End Scenario.


(* ================================================================== *)
(** * Further specification vocabulary *)
(* ================================================================== *)

(** Every source and destination block of the mapping lies inside its
    buffer, for blocks of [B] bytes. *)
Definition blocks_inside (B src_bytes dst_bytes : Z) (pairs : list (Z * Z))
    : Prop :=
  forall p, In p pairs ->
    0 <= fst p /\ (fst p + 1) * B <= src_bytes /\
    0 <= snd p /\ (snd p + 1) * B <= dst_bytes.

(** Byte [k] of block [b] of a buffer at [ptr], for blocks of [B] bytes. *)
Definition block_byte (ptr B b k : Z) : Cell := (char_ptr ptr, b * B + k).

(** Element [i] of block [b] of the layer [layer] whose blocks hold
    [numel_per_block] elements, as [copy_blocks_kernel] instantiated at
    [scalar_t] addresses it. *)
Definition block_element (scalar_t : ScalarType) (layer : Tensor)
    (numel_per_block b i : Z) : Cell :=
  (mkPointer (data_ptr layer) (elementSize scalar_t), b * numel_per_block + i).

(** The bytes of the first [count] elements of type [scalar_t] of a
    layer. *)
Definition layer_region (scalar_t : ScalarType) (count : Z) (layer : Tensor)
    : Region :=
  mkRegion (data_ptr layer) (count * elementSize scalar_t).

(** Any two layers of a layer set are the same storage or occupy bytes
    that do not meet. *)
Definition layers_separate (scalar_t : ScalarType) (count : Z)
    (layers : list Tensor) : Prop :=
  forall a b, In a layers -> In b layers ->
    data_ptr a = data_ptr b \/
    disjoint (layer_region scalar_t count a) (layer_region scalar_t count b).

(* ================================================================== *)
(** * Further scenario data *)
(* ================================================================== *)

Module Cases.

(** Two pairs name destination block 3; the last one is (1, 3). *)
Definition contended_mapping : MappingTensor (Z * Z) :=
  mkMapping Scenario.host [(0, 3); (1, 3); (2, 4)].

Definition no_pairs : MappingTensor (Z * Z) := mkMapping Scenario.host [].

(** A buffer without a block, and one whose blocks hold no element. *)
Definition blockless_buffer : Tensor :=
  mkTensor Scenario.gpu0 Half [0; 4] [4; 1] 20000.
Definition hollow_buffer : Tensor :=
  mkTensor Scenario.gpu0 Half [8; 0] [0; 1] 24000.

(** A chain of two replications: block 2 into block 5, then block 5 into
    block 7. *)
Definition second_fork : MappingTensor (Z * Z) := mkMapping Scenario.gpu0 [(5, 7)].

(** Two slots for the three tokens of the scatter scenario. *)
Definition short_slots : MappingTensor Z := mkMapping Scenario.gpu0 [5; -1].

(** One pair more than a launch grid has rows. *)
Definition oversized_mapping : MappingTensor (Z * Z) :=
  mkMapping Scenario.gpu0 (repeat (2, 5) (Z.to_nat 65536)).

End Cases.

(** The pairs of a mapping whose source block number is zero, which the
    statistics count as free, and the others, counted as used. *)
Definition count_free (pairs : list (Z * Z)) : Z :=
  Z.of_nat (List.length (filter (fun p => fst p =? 0) pairs)).
Definition count_used (pairs : list (Z * Z)) : Z :=
  Z.of_nat (List.length (filter (fun p => negb (fst p =? 0)) pairs)).

(** The conditions under which a replication call is free of races: the
    blocks are in range, no destination has two sources and no destination
    is also a source. *)
Definition race_free_mapping (num_blocks : Z) (pairs : list (Z * Z)) : Prop :=
  blocks_in_range num_blocks pairs /\ single_source pairs /\
  targets_disjoint_from_sources pairs.

(** The tensor [t] moved to device [d], everything else the same. *)
Definition with_device (d : Device) (t : Tensor) : Tensor :=
  mkTensor d (dtype t) (sizes t) (strides t) (data_ptr t).

(** The flat-layout addressing, written with the mathematical quotient and
    remainder: channel [i] of a token with slot [slot] goes to
    [block * block_stride + boff * heads * head_size + head * head_size
     + head_off]. *)
Definition spec_flat_offset (block_stride heads head_size block_size slot i : Z)
    : Z :=
  let head := i / head_size in
  let head_off := i mod head_size in
  let block := slot / block_size in
  let boff := slot mod block_size in
  block * block_stride + boff * heads * head_size + head * head_size + head_off.

(** The negative entries of a slot mapping, which mark padding tokens, and
    the others. *)
Definition padding_tokens (slots : list Z) : Z :=
  Z.of_nat (List.length (filter (fun slot => slot <? 0) slots)).
Definition cached_tokens (slots : list Z) : Z :=
  Z.of_nat (List.length (filter (fun slot => negb (slot <? 0)) slots)).

(** Tensors that [reshape_and_cache_flash] refuses: a value cache with
    another leading stride, integer tokens, and single-precision values
    beside half-precision keys. *)
Definition strided_v_cache : Tensor :=
  mkTensor Scenario.gpu0 Half [2; 16; 2; 4] [256; 8; 4; 1] 6000.
Definition int_tokens : Tensor :=
  mkTensor Scenario.gpu0 Int [3; 2; 4] [8; 4; 1] 1000.
Definition float_tokens_value : Tensor :=
  mkTensor Scenario.gpu0 Float [3; 2; 4] [8; 4; 1] 2000.

(** The dispatch of [convert_fp8] as a table.  The tag selects the
    encoding; the element type of the source, when wide, selects an
    encoding instance [(Tout, Tin)] into 8 bits, and otherwise the element
    type of the destination, when wide, selects a decoding instance. *)
Definition encoding_of_tag (kv_cache_dtype : string)
    : option Fp8KVCacheDataType :=
  if String.eqb kv_cache_dtype "auto" then Some kAuto
  else if String.eqb kv_cache_dtype "fp8" || String.eqb kv_cache_dtype "fp8_e4m3"
       then Some kFp8E4M3
       else None.

Definition ctype_of_wide (t : ScalarType) : option CType :=
  match t with
  | Float => Some c_float
  | Half => Some c_uint16_t
  | BFloat16 => Some c_nv_bfloat16
  | _ => None
  end.

Definition convert_fp8_instance (src_dtype dst_dtype : ScalarType)
    : option (CType * CType) :=
  match ctype_of_wide src_dtype with
  | Some Tin => Some (c_uint8_t, Tin)
  | None =>
      match ctype_of_wide dst_dtype with
      | Some Tout => Some (Tout, c_uint8_t)
      | None => None
      end
  end.

(** The tensor [t] seen with element type [d], everything else the same. *)
Definition with_dtype (d : ScalarType) (t : Tensor) : Tensor :=
  mkTensor (device t) d (sizes t) (strides t) (data_ptr t).

(** The part of the last block of a layer that its leading extent leaves
    unused, as the fragmentation statistics of [copy_blocks] compute it, and
    its sum over the layers. *)
Definition block_gap (numel_per_block : Z) (layer : Tensor) : Z :=
  let last_block_size := Z.rem (hd 0 (sizes layer)) numel_per_block in
  if 0 <? last_block_size then numel_per_block - last_block_size else 0.
Definition sum_gaps (numel_per_block : Z) (layers : list Tensor) : Z :=
  fold_right (fun layer acc => block_gap numel_per_block layer + acc) 0 layers.

(** The bytes of the first [count] elements of the array at [p], and a cell
    that lies entirely outside a range of bytes. *)
Definition array_region (p : Pointer) (count : Z) : Region :=
  mkRegion (address p) (count * pointee_size p).
Definition cell_outside (c : Cell) (r : Region) : Prop :=
  cell_address c + cell_size c <= start r \/ start r + len r <= cell_address c.

(* ================================================================== *)
(** * Machine arithmetic in range *)
(* ================================================================== *)

Lemma int_small z : - 2 ^ 31 <= z <= INT_MAX -> int z = z.
Proof.
  unfold int, wrap_signed, INT_MAX. intros H.
  rewrite Z.mod_small; lia.
Qed.

Lemma int64_t_small z : - 2 ^ 63 <= z <= INT64_MAX -> int64_t z = z.
Proof.
  unfold int64_t, wrap_signed, INT64_MAX. intros H.
  rewrite Z.mod_small; lia.
Qed.

Lemma unsigned_int_small z : 0 <= z <= INT_MAX -> unsigned_int z = z.
Proof.
  unfold unsigned_int, INT_MAX. intros H. apply Z.mod_small. lia.
Qed.

Lemma mul32_small a b : 0 <= a * b <= INT_MAX -> mul32 a b = a * b.
Proof. intros H. unfold mul32. apply int_small. lia. Qed.

Lemma add32_small a b : 0 <= a + b <= INT_MAX -> add32 a b = a + b.
Proof. intros H. unfold add32. apply int_small. lia. Qed.

Lemma mul64_small a b : 0 <= a * b <= INT64_MAX -> mul64 a b = a * b.
Proof. intros H. unfold mul64. apply int64_t_small. lia. Qed.

Lemma add64_small a b : 0 <= a + b <= INT64_MAX -> add64 a b = a + b.
Proof. intros H. unfold add64. apply int64_t_small. lia. Qed.

Lemma INT_MAX_lt_INT64_MAX : INT_MAX < INT64_MAX.
Proof. unfold INT_MAX, INT64_MAX. lia. Qed.

(** Wrap-around commutes with addition: an [int64_t] counter holds the
    wrapped value of the exact sum. *)
Lemma int64_t_add_l a b : int64_t (int64_t a + b) = int64_t (a + b).
Proof.
  unfold int64_t, wrap_signed. f_equal.
  replace ((a + 2 ^ (64 - 1)) mod 2 ^ 64 - 2 ^ (64 - 1) + b + 2 ^ (64 - 1))
    with ((a + 2 ^ (64 - 1)) mod 2 ^ 64 + b) by ring.
  rewrite Zplus_mod_idemp_l. f_equal. ring.
Qed.

Lemma int64_t_add_r a b : int64_t (a + int64_t b) = int64_t (a + b).
Proof. rewrite Z.add_comm, int64_t_add_l. f_equal. ring. Qed.

Lemma int64_t_idem a : int64_t (int64_t a) = int64_t a.
Proof.
  replace (int64_t a) with (int64_t a + 0) at 1 by ring.
  rewrite int64_t_add_l. f_equal. ring.
Qed.

Lemma add64_wrapped a b : add64 (int64_t a) b = int64_t (a + b).
Proof. apply int64_t_add_l. Qed.

(* ================================================================== *)
(** * Index ranges *)
(* ================================================================== *)

Lemma in_upto n i : In i (upto n) <-> 0 <= i < n.
Proof.
  unfold upto. rewrite in_map_iff. split.
  - intros [k [<- Hk]]. apply in_seq in Hk. lia.
  - intros H. exists (Z.to_nat i). split; [lia|]. apply in_seq. lia.
Qed.

Lemma upto_nonpos n : n <= 0 -> upto n = [].
Proof.
  intros H. unfold upto. replace (Z.to_nat n) with O by lia. reflexivity.
Qed.

Lemma ScalarType_eqb_eq a b : ScalarType_eqb a b = true <-> a = b.
Proof. destruct a, b; simpl; split; congruence. Qed.

Lemma elementSize_pos t : 0 < elementSize t.
Proof. destruct t; simpl; lia. Qed.

Lemma sizeof_pos t : 0 < sizeof t.
Proof. destruct t; simpl; lia. Qed.

(* ================================================================== *)
(** * Memory: loads, stores and schedules *)
(* ================================================================== *)

(** A load depends on the bytes of its range only. *)
Lemma load_bytes_ext n : forall m1 m2 a,
  (forall k, 0 <= k < Z.of_nat n -> m1 (a + k) = m2 (a + k)) ->
  load_bytes n m1 a = load_bytes n m2 a.
Proof.
  induction n as [|n IH]; intros m1 m2 a H; [reflexivity|].
  simpl. rewrite (IH m1 m2 (a + 1)).
  - specialize (H 0 ltac:(lia)). rewrite Z.add_0_r in H. now rewrite H.
  - intros k Hk. replace (a + 1 + k) with (a + (k + 1)) by ring.
    apply H. lia.
Qed.

(** A range that holds the bytes of [v] loads [v], up to the width. *)
Lemma load_bytes_digits n : forall m a v,
  (forall k, 0 <= k < Z.of_nat n -> m (a + k) mod 256 = (v / 256 ^ k) mod 256) ->
  load_bytes n m a = v mod 256 ^ Z.of_nat n.
Proof.
  induction n as [|n IH]; intros m a v H.
  - simpl. now rewrite Z.mod_1_r.
  - cbn [load_bytes]. rewrite (IH m (a + 1) (v / 256)).
    + pose proof (H 0 ltac:(lia)) as H0.
      rewrite Z.add_0_r, Z.pow_0_r, Z.div_1_r in H0. rewrite H0.
      rewrite Nat2Z.inj_succ, Z.pow_succ_r by lia.
      rewrite Z.rem_mul_r by lia. reflexivity.
    + intros k Hk. replace (a + 1 + k) with (a + (k + 1)) by ring.
      rewrite H by lia.
      rewrite Z.pow_add_r, Z.pow_1_r by lia.
      rewrite (Z.mul_comm (256 ^ k)), Z.div_div by lia. reflexivity.
Qed.

Lemma load_bytes_range n : forall m a, 0 <= load_bytes n m a < 256 ^ Z.of_nat n.
Proof.
  induction n as [|n IH]; intros m a.
  - simpl. lia.
  - cbn [load_bytes]. rewrite Nat2Z.inj_succ, Z.pow_succ_r by lia.
    specialize (IH m (a + 1)).
    pose proof (Z.mod_pos_bound (m a) 256 ltac:(lia)). lia.
Qed.

Lemma load_range m c : 0 <= cell_size c -> 0 <= load m c < 256 ^ cell_size c.
Proof.
  intros H. unfold load.
  pose proof (load_bytes_range (Z.to_nat (cell_size c)) m (cell_address c)) as R.
  now rewrite Z2Nat.id in R.
Qed.

Lemma load_ext m1 m2 c :
  (forall a, cell_address c <= a < cell_address c + cell_size c -> m1 a = m2 a) ->
  load m1 c = load m2 c.
Proof.
  intros H. unfold load. apply load_bytes_ext. intros k Hk. apply H. lia.
Qed.

(** Two cells with the same bytes load the same value. *)
Lemma load_same_bytes m c d : same_bytes c d -> load m c = load m d.
Proof. intros [Ea Es]. unfold load. now rewrite Ea, Es. Qed.

Lemma store_outside m c v a :
  ~ (cell_address c <= a < cell_address c + cell_size c) ->
  store m c v a = m a.
Proof.
  intros H. unfold store. cbv zeta.
  destruct (Z.leb_spec 0 (a - cell_address c));
    destruct (Z.ltb_spec (a - cell_address c) (cell_size c)); simpl;
    try reflexivity.
  exfalso. apply H. lia.
Qed.

Lemma load_store_same m c v :
  0 <= cell_size c -> load (store m c v) c = v mod 256 ^ cell_size c.
Proof.
  intros Hs. unfold load.
  rewrite (load_bytes_digits _ _ _ v).
  { now rewrite Z2Nat.id. }
  intros k Hk. rewrite Z2Nat.id in Hk by exact Hs.
  unfold store. cbv zeta.
  replace (cell_address c + k - cell_address c) with k by ring.
  destruct (Z.leb_spec 0 k); [|lia].
  destruct (Z.ltb_spec k (cell_size c)); [|lia].
  simpl. now rewrite Z.mod_mod by lia.
Qed.

Lemma load_store_other m c d v :
  ~ overlap c d -> load (store m c v) d = load m d.
Proof.
  intros H. apply load_ext. intros a Ha. apply store_outside.
  intros Hc. apply H. unfold overlap. lia.
Qed.

Lemma overlap_sym a b : overlap a b -> overlap b a.
Proof. unfold overlap. tauto. Qed.

Lemma overlap_dec a b : {overlap a b} + {~ overlap a b}.
Proof.
  unfold overlap.
  destruct (Z_lt_dec (cell_address a) (cell_address b + cell_size b));
    destruct (Z_lt_dec (cell_address b) (cell_address a + cell_size a));
    first [left; tauto | right; tauto].
Defined.

(** Cells of an array meet only when they are the same cell. *)
Lemma overlap_same_pointer p i j :
  0 < pointee_size p -> overlap (p, i) (p, j) -> i = j.
Proof.
  unfold overlap, cell_address, cell_size. simpl. intros Hp [H1 H2]. nia.
Qed.

(** Cells inside ranges that do not meet do not meet. *)
Lemma disjoint_no_overlap a b r1 r2 :
  cell_in a r1 -> cell_in b r2 -> disjoint r1 r2 -> ~ overlap a b.
Proof. unfold cell_in, disjoint, overlap. lia. Qed.

Lemma disjoint_sym r1 r2 : disjoint r1 r2 -> disjoint r2 r1.
Proof. unfold disjoint. tauto. Qed.

(** A copy between cells of one width stores what it loads. *)
Lemma stored_copy m d s :
  cell_size d = cell_size s -> 0 <= cell_size s ->
  stored m (copy_cell d s) = load m s.
Proof.
  intros E Hs. unfold stored, written, copy_cell. simpl. rewrite E.
  apply Z.mod_small. now apply load_range.
Qed.

Lemma run_cons t sched m : run (t :: sched) m = run sched (transfer m t).
Proof. reflexivity. Qed.

Lemma run_app s1 s2 m : run (s1 ++ s2) m = run s2 (run s1 m).
Proof. unfold run. apply fold_left_app. Qed.

(** A cell that no transfer of the schedule touches keeps its content. *)
Lemma run_frame sched : forall m c,
  (forall t, In t sched -> ~ overlap (t_dst t) c) ->
  load (run sched m) c = load m c.
Proof.
  induction sched as [|t sched IH]; intros m c H; [reflexivity|].
  rewrite run_cons, IH by (intros u Hu; apply H; now right).
  unfold transfer. apply load_store_other. apply H. now left.
Qed.

Lemma written_by_dec (sched : list Transfer) (c : Cell) :
  (exists u, In u sched /\ overlap (t_dst u) c) \/
  (forall u, In u sched -> ~ overlap (t_dst u) c).
Proof.
  induction sched as [|t sched [[u [Hu Hc]] | IH]].
  - right. intros u [].
  - left. exists u. split; [now right | exact Hc].
  - destruct (overlap_dec (t_dst t) c) as [E | N].
    + left. exists t. split; [now left | exact E].
    + right. intros u [<- | Hu]; [exact N | now apply IH].
Qed.

Lemma reads_untouched_tail t sched :
  reads_untouched (t :: sched) -> reads_untouched sched.
Proof. intros H u v Hu Hv. apply H; now right. Qed.

Lemma written_after_transfer m t u :
  ~ overlap (t_dst t) (t_src u) -> written (transfer m t) u = written m u.
Proof.
  intros H. unfold written, transfer. now rewrite load_store_other.
Qed.

Lemma stored_after_transfer m t u :
  ~ overlap (t_dst t) (t_src u) -> stored (transfer m t) u = stored m u.
Proof. intros H. unfold stored. now rewrite written_after_transfer. Qed.

(** When no transfer reads what the schedule writes and writes that meet
    agree, every destination ends up holding the converted initial content
    of its source, whatever the order of execution. *)
Lemma run_written sched : forall m t,
  reads_untouched sched -> writes_agree m sched -> In t sched ->
  0 <= cell_size (t_dst t) ->
  load (run sched m) (t_dst t) = stored m t.
Proof.
  induction sched as [|t0 sched IH]; intros m t HR HW Hin Hsz; [destruct Hin|].
  rewrite run_cons.
  assert (HW' : writes_agree (transfer m t0) sched).
  { intros u v Hu Hv E.
    rewrite !stored_after_transfer
      by (apply HR; [now left | now right]).
    apply HW; [now right | now right | exact E]. }
  assert (Hrest : forall u, In u sched -> 0 <= cell_size (t_dst u) ->
            load (run sched (transfer m t0)) (t_dst u) = stored m u).
  { intros u Hu Hsu.
    rewrite (IH (transfer m t0) u (reads_untouched_tail _ _ HR) HW' Hu Hsu).
    apply stored_after_transfer. apply HR; [now left | now right]. }
  destruct Hin as [<- | Hin]; [|now apply Hrest].
  destruct (written_by_dec sched (t_dst t0)) as [[u [Hu E]] | Hno].
  - destruct (HW u t0 (or_intror Hu) (or_introl eq_refl) E) as [Hsame Hval].
    rewrite <- (load_same_bytes _ _ _ Hsame), Hrest; try assumption.
    destruct Hsame as [_ Es]. unfold cell_size in *. lia.
  - rewrite run_frame by exact Hno.
    unfold transfer. now apply load_store_same.
Qed.

Lemma reads_untouched_perm s1 s2 :
  Permutation s1 s2 -> reads_untouched s2 -> reads_untouched s1.
Proof.
  intros P H t u Ht Hu. apply H; eapply Permutation_in; eauto.
Qed.

Lemma writes_agree_perm m s1 s2 :
  Permutation s1 s2 -> writes_agree m s2 -> writes_agree m s1.
Proof.
  intros P H t u Ht Hu. apply H; eapply Permutation_in; eauto.
Qed.

(* ================================================================== *)
(** * Thread loops and launches *)
(* ================================================================== *)

(** With enough fuel the loop of thread [i0] visits exactly the indices
    [i0, i0 + blockDim, i0 + 2 blockDim, ...] below [n]. *)
Lemma thread_loop_in {A : Type} (n bd : Z) (body : Z -> list A) (a : A) :
  0 < bd -> n + bd <= INT_MAX ->
  forall fuel i, 0 <= i -> n - i <= Z.of_nat fuel ->
  In a (thread_loop fuel i n bd body) <->
  exists k, 0 <= k /\ i + k * bd < n /\ In a (body (i + k * bd)).
Proof.
  intros Hbd Hmax. induction fuel as [|fuel IH]; intros i Hi Hfuel; simpl.
  - split; [intros [] | intros [k [Hk [Hlt _]]]; nia].
  - destruct (Z.ltb_spec i n) as [Hlt | Hge].
    + rewrite in_app_iff, int_small by (unfold INT_MAX in *; lia).
      rewrite IH by lia. split.
      * intros [Hb | [k [Hk [Hkn Hb]]]].
        -- exists 0. rewrite Z.mul_0_l, Z.add_0_r. auto with zarith.
        -- exists (k + 1). replace (i + (k + 1) * bd) with (i + bd + k * bd) by lia.
           repeat split; auto; lia.
      * intros [k [Hk [Hkn Hb]]].
        destruct (Z.eq_dec k 0) as [-> | Hk0].
        -- left. now rewrite Z.mul_0_l, Z.add_0_r in Hb.
        -- right. exists (k - 1).
           replace (i + bd + (k - 1) * bd) with (i + k * bd) by lia.
           repeat split; auto; lia.
    + split; [intros [] | intros [k [Hk [Hkn _]]]; nia].
Qed.

(** The threads of one block together visit every index below [n]. *)
Lemma block_loop_in {A : Type} (n bd : Z) (body : Z -> list A) (a : A) :
  0 < bd -> 0 <= n -> n + bd <= INT_MAX ->
  In a (flat_map (fun tx => thread_loop (Z.to_nat n) (int tx) n bd body) (upto bd))
  <-> exists j, 0 <= j < n /\ In a (body j).
Proof.
  intros Hbd Hn Hmax. rewrite in_flat_map. split.
  - intros [tx [Htx Hin]]. apply in_upto in Htx.
    rewrite int_small in Hin by (unfold INT_MAX in *; lia).
    apply thread_loop_in in Hin; try lia.
    destruct Hin as [k [Hk [Hlt Hb]]]. exists (tx + k * bd). split; [nia | exact Hb].
  - intros [j [Hj Hb]]. exists (j mod bd).
    pose proof (Z.mod_pos_bound j bd Hbd) as Hm.
    pose proof (Z.div_mod j bd ltac:(lia)) as Hdm.
    assert (0 <= j / bd) by (apply Z.div_pos; lia).
    split; [apply in_upto; lia|].
    rewrite int_small by (unfold INT_MAX in *; lia).
    apply thread_loop_in; try lia.
    exists (j / bd). replace (j mod bd + j / bd * bd) with j by lia.
    repeat split; auto; lia.
Qed.

Lemma in_grid_threads gx gy bx (k : Kernel) t :
  In t (grid_threads gx gy bx k) <->
  exists x y, 0 <= x < gx /\ 0 <= y < gy /\
    In t (flat_map (fun tx => k x y tx bx) (upto bx)).
Proof.
  unfold grid_threads. rewrite in_flat_map. split.
  - intros [x [Hx H]]. rewrite in_flat_map in H. destruct H as [y [Hy H]].
    exists x, y. rewrite in_upto in Hx, Hy. auto.
  - intros [x [y [Hx [Hy H]]]]. exists x. split; [now apply in_upto|].
    rewrite in_flat_map. exists y. split; [now apply in_upto | exact H].
Qed.

(** A launch inside the limits runs every thread of its grid; any other
    launch runs none. *)
Lemma launch_accepted gx gy bx (k : Kernel) :
  1 <= gx <= MAX_GRID_X -> 1 <= gy <= MAX_GRID_Y -> 1 <= bx <= MAX_BLOCK_X ->
  launch gx gy bx k = grid_threads gx gy bx k.
Proof.
  intros Hx Hy Hb. unfold launch, launch_config_ok.
  destruct (Z.leb_spec 1 gx); [|lia]. destruct (Z.leb_spec gx MAX_GRID_X); [|lia].
  destruct (Z.leb_spec 1 gy); [|lia]. destruct (Z.leb_spec gy MAX_GRID_Y); [|lia].
  destruct (Z.leb_spec 1 bx); [|lia]. destruct (Z.leb_spec bx MAX_BLOCK_X); [|lia].
  reflexivity.
Qed.

Lemma launch_incl gx gy bx (k : Kernel) t :
  In t (launch gx gy bx k) -> In t (grid_threads gx gy bx k).
Proof.
  unfold launch. destruct (launch_config_ok gx gy bx); [auto | intros []].
Qed.

Lemma launch_empty_grid_y gx bx (k : Kernel) : launch gx 0 bx k = [].
Proof.
  unfold launch, launch_config_ok. simpl. now rewrite !andb_false_r.
Qed.

(* ================================================================== *)
(** * Running host code *)
(* ================================================================== *)

Ltac host_simpl :=
  unfold bind, ret, raise, TORCH_CHECK, TORCH_CHECK_unsupported, printf,
    enqueue, host_rem in *; simpl in *.


Lemma size_ok t d n : nth_error (sizes t) d = Some n -> size t d = ret n.
Proof. intros H. unfold size. now rewrite H. Qed.

Lemma stride_ok t d n : nth_error (strides t) d = Some n -> stride t d = ret n.
Proof. intros H. unfold stride. now rewrite H. Qed.

(** The accessors leave the host state as it is, and fail only with an
    index error. *)
Lemma size_cases t d s :
  (exists n, nth_error (sizes t) d = Some n /\ size t d s = (Ok n, s)) \/
  (nth_error (sizes t) d = None /\
   size t d s = (Raise (IndexError "Dimension out of range"), s)).
Proof.
  unfold size. destruct (nth_error (sizes t) d) as [n|]; [left; eauto | right; auto].
Qed.

Lemma stride_cases t d s :
  (exists n, nth_error (strides t) d = Some n /\ stride t d s = (Ok n, s)) \/
  (nth_error (strides t) d = None /\
   stride t d s = (Raise (IndexError "Dimension out of range"), s)).
Proof.
  unfold stride. destruct (nth_error (strides t) d) as [n|]; [left; eauto | right; auto].
Qed.


Lemma swap_step_ok src sp dp B kind p st s n rest :
  sizes src = n :: rest -> B <> 0 ->
  exists st',
    swap_blocks_step src sp dp B kind p st s =
    (Ok st', mkHost (stream s ++ swap_copies sp dp B kind [p]) (stdout s)).
Proof.
  intros Hsz HB. unfold swap_blocks_step.
  rewrite (size_ok src 0 n) by (now rewrite Hsz).
  unfold bind, host_rem, ret.
  destruct (Z.eqb_spec B 0) as [|_]; [contradiction|].
  eexists. reflexivity.
Qed.

Lemma swap_loop_ok src sp dp B kind n rest :
  sizes src = n :: rest -> B <> 0 -> forall pairs st s,
  exists st',
    for_each pairs (swap_blocks_step src sp dp B kind) st s =
    (Ok st', mkHost (stream s ++ swap_copies sp dp B kind pairs) (stdout s)).
Proof.
  intros Hsz HB. induction pairs as [|p pairs IH]; intros st s; simpl.
  - exists st. unfold ret. rewrite app_nil_r. now destruct s.
  - unfold bind.
    destruct (swap_step_ok src sp dp B kind p st s n rest Hsz HB) as [st1 ->].
    match goal with |- context [for_each pairs _ ?a ?b] =>
      destruct (IH a b) as [st' ->] end.
    exists st'. simpl. now rewrite <- app_assoc.
Qed.

Lemma swap_loop_trap src sp dp kind p pairs st s n rest :
  sizes src = n :: rest ->
  exists msg,
    for_each (p :: pairs) (swap_blocks_step src sp dp 0 kind) st s =
    (Raise (ArithmeticTrap msg), s).
Proof.
  intros Hsz. simpl. unfold swap_blocks_step.
  rewrite (size_ok src 0 n) by (now rewrite Hsz).
  eexists. reflexivity.
Qed.

(** A failing copy loop has enqueued nothing. *)
Lemma swap_loop_raise src sp dp B kind pairs st s e s' :
  for_each pairs (swap_blocks_step src sp dp B kind) st s = (Raise e, s') ->
  s' = s.
Proof.
  intros H. destruct pairs as [|p pairs]; [discriminate H|].
  destruct (sizes src) as [|n rest] eqn:Hsz.
  - simpl in H. unfold swap_blocks_step, size in H. rewrite Hsz in H.
    simpl in H. unfold bind, raise in H. congruence.
  - destruct (Z.eq_dec B 0) as [-> | HB].
    + destruct (swap_loop_trap src sp dp kind p pairs st s n rest Hsz)
        as [msg E].
      rewrite E in H. congruence.
    + destruct (swap_loop_ok src sp dp B kind n rest Hsz HB (p :: pairs) st s)
        as [st' E].
      rewrite E in H. discriminate H.
Qed.
Lemma is_cuda_not_cpu d : is_cuda d = true -> is_cpu d = false.
Proof. unfold is_cuda, is_cpu. destruct (dev_type d); congruence. Qed.

Lemma is_cpu_not_cuda d : is_cpu d = true -> is_cuda d = false.
Proof. unfold is_cuda, is_cpu. destruct (dev_type d); congruence. Qed.

Lemma memcpy_type_ok sd dd kind s :
  swap_direction sd dd kind ->
  swap_blocks_memcpy_type sd dd s = (Ok kind, s).
Proof.
  unfold swap_blocks_memcpy_type.
  intros [(Hs & Hd & Hi & ->) | [(Hs & Hd & ->) | (Hs & Hd & ->)]].
  - rewrite Hs, Hd. simpl. unfold bind, TORCH_CHECK.
    rewrite (proj2 (Z.eqb_eq _ _) Hi). reflexivity.
  - rewrite Hs, Hd, (is_cpu_not_cuda _ Hd). reflexivity.
  - rewrite Hs, Hd, (is_cpu_not_cuda _ Hs). reflexivity.
Qed.

(** The residency test never touches the stream, and it fails only with a
    precondition violation. *)
Lemma memcpy_type_cases sd dd s :
  (exists kind, swap_direction sd dd kind /\
                swap_blocks_memcpy_type sd dd s = (Ok kind, s)) \/
  (exists msg, swap_blocks_memcpy_type sd dd s =
               (Raise (PreconditionViolation msg), s)).
Proof.
  unfold swap_blocks_memcpy_type, swap_direction.
  destruct (is_cuda sd) eqn:Hs, (is_cuda dd) eqn:Hd; simpl.
  - unfold bind, TORCH_CHECK.
    destruct (Z.eqb_spec (index sd) (index dd)) as [E | N].
    + left. eexists. split; [left; eauto | reflexivity].
    + right. eexists. reflexivity.
  - destruct (is_cpu dd) eqn:Hd'.
    + left. eexists. split; [right; left; eauto | reflexivity].
    + rewrite andb_false_r. right. eexists. reflexivity.
  - destruct (is_cpu sd) eqn:Hs'; simpl.
    + left. eexists. split; [right; right; eauto | reflexivity].
    + right. eexists. reflexivity.
  - rewrite andb_false_r. right. eexists. reflexivity.
Qed.

Lemma swap_blocks_accept src dst bm s kind n rest :
  swap_direction (device src) (device dst) kind ->
  is_cpu (map_device bm) = true ->
  sizes src = n :: rest -> 0 < n ->
  mul64 (element_size src) (prod rest) <> 0 \/ rows bm = [] ->
  exists out,
    swap_blocks src dst bm s =
    (Ok tt, mkHost (stream s ++ swap_copies (data_ptr src) (data_ptr dst)
                      (mul64 (element_size src) (prod rest)) kind (rows bm)) out).
Proof.
  intros Hdir Hmap Hsz Hn HB.
  unfold swap_blocks, select0. rewrite Hsz.
  destruct (Z.ltb_spec 0 n) as [_|]; [|lia].
  unfold bind at 1. unfold printf at 1.
  unfold bind at 1. rewrite (memcpy_type_ok _ _ _ _ Hdir).
  unfold bind at 1. unfold TORCH_CHECK at 1. rewrite Hmap. unfold ret at 1.
  unfold bind at 1. unfold ret at 1. unfold numel. simpl sizes.
  unfold bind at 1.
  destruct HB as [HB | HB].
  - match goal with |- context [for_each ?l ?f ?a ?b] =>
      destruct (swap_loop_ok src (data_ptr src) (data_ptr dst) _ kind n rest
                  Hsz HB l a b)
        as [st' ->] end.
    host_simpl. eexists. reflexivity.
  - rewrite HB. host_simpl. rewrite app_nil_r. eexists. reflexivity.
Qed.

(** Whenever [swap_blocks] fails, the stream is as it was. *)
Lemma swap_blocks_raise src dst bm s e s' :
  swap_blocks src dst bm s = (Raise e, s') -> stream s' = stream s.
Proof.
  unfold swap_blocks. unfold bind at 1. unfold printf at 1.
  unfold bind at 1.
  destruct (memcpy_type_cases (device src) (device dst)
              (mkHost (stream s) (stdout s ++ [("swap_blocks function called\n", [])])))
    as [[kind [_ ->]] | [msg ->]]; [|intros H; inversion H; reflexivity].
  unfold bind at 1. unfold TORCH_CHECK at 1.
  destruct (is_cpu (map_device bm)); [|intros H; inversion H; reflexivity].
  unfold ret at 1. unfold bind at 1. unfold select0.
  destruct (sizes src) as [|n rest]; [intros H; inversion H; reflexivity|].
  destruct (0 <? n); [|intros H; inversion H; reflexivity].
  unfold ret at 1. unfold bind at 1.
  match goal with |- context [for_each ?l ?f ?a ?b] =>
    destruct (for_each l f a b) as [[st|e0] s0] eqn:E end.
  - host_simpl. intros H. inversion H.
  - apply swap_loop_raise in E. subst s0. intros H. inversion H. reflexivity.
Qed.

(* ================================================================== *)
(** * Block Transfer Engine: residency *)
(* ================================================================== *)

(** C6: [swap_blocks] rejects a device-to-device transfer between two
    different devices, rejects a host-to-host transfer and rejects a block
    mapping that is not host-resident, each with a PreconditionViolation;
    it accepts device-to-device on one device, device-to-host and
    host-to-device, enqueueing one copy per pair in the selected direction;
    and whenever it fails, nothing has been enqueued. *)
Theorem swap_blocks_residency (src dst : Tensor)
    (block_mapping : MappingTensor (Z * Z)) (s : HostState) :
  (is_cuda (device src) = true -> is_cuda (device dst) = true ->
   index (device src) <> index (device dst) ->
   exists msg, fst (swap_blocks src dst block_mapping s)
               = Raise (PreconditionViolation msg)) /\
  (is_cpu (device src) = true -> is_cpu (device dst) = true ->
   exists msg, fst (swap_blocks src dst block_mapping s)
               = Raise (PreconditionViolation msg)) /\
  (is_cpu (map_device block_mapping) = false ->
   exists msg, fst (swap_blocks src dst block_mapping s)
               = Raise (PreconditionViolation msg)) /\
  (forall kind n rest,
     swap_direction (device src) (device dst) kind ->
     is_cpu (map_device block_mapping) = true ->
     sizes src = n :: rest -> 0 < n ->
     mul64 (element_size src) (prod rest) <> 0 ->
     fst (swap_blocks src dst block_mapping s) = Ok tt /\
     stream (snd (swap_blocks src dst block_mapping s)) =
       stream s ++ swap_copies (data_ptr src) (data_ptr dst)
                     (mul64 (element_size src) (prod rest)) kind
                     (rows block_mapping)) /\
  (forall e, fst (swap_blocks src dst block_mapping s) = Raise e ->
     stream (snd (swap_blocks src dst block_mapping s)) = stream s).
Proof.
  assert (Hrej : forall s0,
            (forall kind, ~ swap_direction (device src) (device dst) kind) ->
            exists msg, swap_blocks_memcpy_type (device src) (device dst) s0
                        = (Raise (PreconditionViolation msg), s0)).
  { intros s0 Hno.
    destruct (memcpy_type_cases (device src) (device dst) s0)
      as [[kind [Hdir _]] | H]; [destruct (Hno kind Hdir) | exact H]. }
  repeat apply conj.
  - intros Hs Hd Hi. unfold swap_blocks, bind, printf.
    match goal with |- context [swap_blocks_memcpy_type _ _ ?s0] =>
      destruct (Hrej s0) as [msg ->] end.
    + intros kind [(_ & _ & E & _) | [(_ & Hc & _) | (Hc & _ & _)]];
        [ contradiction
        | rewrite (is_cuda_not_cpu _ Hd) in Hc; discriminate
        | rewrite (is_cuda_not_cpu _ Hs) in Hc; discriminate ].
    + eexists. reflexivity.
  - intros Hs Hd. unfold swap_blocks, bind, printf.
    match goal with |- context [swap_blocks_memcpy_type _ _ ?s0] =>
      destruct (Hrej s0) as [msg ->] end.
    + intros kind [(Hc & _) | [(Hc & _) | (_ & Hc & _)]];
        [ rewrite (is_cpu_not_cuda _ Hs) in Hc; discriminate
        | rewrite (is_cpu_not_cuda _ Hs) in Hc; discriminate
        | rewrite (is_cpu_not_cuda _ Hd) in Hc; discriminate ].
    + eexists. reflexivity.
  - intros Hm. unfold swap_blocks. unfold bind at 1. unfold printf at 1.
    unfold bind at 1.
    match goal with |- context [swap_blocks_memcpy_type _ _ ?s0] =>
      destruct (memcpy_type_cases (device src) (device dst) s0)
        as [[kind [_ ->]] | [msg ->]] end.
    + unfold bind at 1. unfold TORCH_CHECK. rewrite Hm. eexists. reflexivity.
    + eexists. reflexivity.
  - intros kind n rest Hdir Hm Hsz Hn HB.
    destruct (swap_blocks_accept src dst block_mapping s kind n rest
                Hdir Hm Hsz Hn (or_introl HB)) as [out ->].
    split; reflexivity.
  - intros e He.
    destruct (swap_blocks src dst block_mapping s) as [r s'] eqn:E.
    simpl in *. subst r. eapply swap_blocks_raise. exact E.
Qed.

Lemma swap_blocks_residency_witness :
  (exists msg, fst (swap_blocks Scenario.device_buffer Scenario.other_device_buffer
                      Scenario.host_mapping Scenario.idle)
               = Raise (PreconditionViolation msg)) /\
  (exists msg, fst (swap_blocks Scenario.host_buffer Scenario.host_buffer'
                      Scenario.host_mapping Scenario.idle)
               = Raise (PreconditionViolation msg)) /\
  (exists msg, fst (swap_blocks Scenario.device_buffer Scenario.host_buffer
                      Scenario.device_mapping Scenario.idle)
               = Raise (PreconditionViolation msg)) /\
  (fst (swap_blocks Scenario.device_buffer Scenario.host_buffer
          Scenario.host_mapping Scenario.idle) = Ok tt /\
   stream (snd (swap_blocks Scenario.device_buffer Scenario.host_buffer
                  Scenario.host_mapping Scenario.idle)) =
     [ MemcpyAsync 12288 4096 8 cudaMemcpyDeviceToHost;
       MemcpyAsync 12296 4104 8 cudaMemcpyDeviceToHost ]) /\
  stream (snd (swap_blocks Scenario.host_buffer Scenario.host_buffer'
                 Scenario.host_mapping Scenario.idle)) = [].
Proof.
  repeat apply conj.
  - apply (proj1 (swap_blocks_residency Scenario.device_buffer
                    Scenario.other_device_buffer Scenario.host_mapping
                    Scenario.idle)); [reflexivity | reflexivity | simpl; lia].
  - apply (proj1 (proj2 (swap_blocks_residency Scenario.host_buffer
                    Scenario.host_buffer' Scenario.host_mapping
                    Scenario.idle))); reflexivity.
  - apply (proj1 (proj2 (proj2 (swap_blocks_residency Scenario.device_buffer
                    Scenario.host_buffer Scenario.device_mapping
                    Scenario.idle)))); reflexivity.
  - apply (proj1 (proj1 (proj2 (proj2 (proj2 (swap_blocks_residency
                    Scenario.device_buffer Scenario.host_buffer
                    Scenario.host_mapping Scenario.idle))))
             cudaMemcpyDeviceToHost 8 [4]
             (or_intror (or_introl (conj eq_refl (conj eq_refl eq_refl))))
             eq_refl eq_refl ltac:(lia) ltac:(vm_compute; discriminate))).
  - apply (proj2 (proj1 (proj2 (proj2 (proj2 (swap_blocks_residency
                    Scenario.device_buffer Scenario.host_buffer
                    Scenario.host_mapping Scenario.idle))))
             cudaMemcpyDeviceToHost 8 [4]
             (or_intror (or_introl (conj eq_refl (conj eq_refl eq_refl))))
             eq_refl eq_refl ltac:(lia) ltac:(vm_compute; discriminate))).
  - apply (proj2 (proj2 (proj2 (proj2 (swap_blocks_residency
                    Scenario.host_buffer Scenario.host_buffer'
                    Scenario.host_mapping Scenario.idle))))
             (PreconditionViolation "invalid device combination") eq_refl).
Defined.


(* ================================================================== *)
(** * Block Transfer Engine: what the copies do *)
(* ================================================================== *)

Lemma in_memcpy_transfers dst src count t :
  In t (memcpy_transfers dst src count) <->
  exists k, 0 <= k < count /\
    t = copy_cell (char_ptr dst, k) (char_ptr src, k).
Proof.
  unfold memcpy_transfers. rewrite in_map_iff. split.
  - intros [k [<- Hk]]. exists k. split; [now apply in_upto | reflexivity].
  - intros [k [Hk ->]]. exists k. split; [reflexivity | now apply in_upto].
Qed.

Lemma in_swap_transfers sp dp B kind pairs t :
  In t (flat_map op_transfers (swap_copies sp dp B kind pairs)) <->
  exists p k, In p pairs /\ 0 <= k < B /\
    t = copy_cell (char_ptr (dp + mul64 (snd p) B), k)
                  (char_ptr (sp + mul64 (fst p) B), k).
Proof.
  unfold swap_copies. rewrite in_flat_map. split.
  - intros [op [Hop Ht]]. apply in_map_iff in Hop. destruct Hop as [p [<- Hp]].
    simpl in Ht. apply in_memcpy_transfers in Ht. destruct Ht as [k [Hk ->]].
    exists p, k. auto.
  - intros [p [k [Hp [Hk ->]]]].
    exists (MemcpyAsync (dp + mul64 (snd p) B) (sp + mul64 (fst p) B) B kind).
    split; [apply in_map_iff; exists p; auto|].
    simpl. apply in_memcpy_transfers. exists k. auto.
Qed.

(** Blocks of [B] cells tile the index space: a cell belongs to one block
    at one offset. *)
Lemma block_offset_unique B b k b' k' :
  0 <= k < B -> 0 <= k' < B -> b * B + k = b' * B + k' -> b = b' /\ k = k'.
Proof. intros Hk Hk' E. assert (b = b') by nia. subst. lia. Qed.

Lemma block_byte_address ptr B b k :
  cell_address (block_byte ptr B b k) = ptr + b * B + k /\
  cell_size (block_byte ptr B b k) = 1.
Proof. unfold block_byte, cell_address, cell_size. simpl. split; ring. Qed.

Lemma block_byte_in ptr B b k total :
  0 <= b -> (b + 1) * B <= total -> 0 <= k < B ->
  cell_in (block_byte ptr B b k) (mkRegion ptr total).
Proof.
  intros Hb Hfit Hk. unfold cell_in. simpl.
  destruct (block_byte_address ptr B b k) as [-> ->].
  assert (0 <= b * B) by nia. lia.
Qed.

(** The transfers of the copies of [swap_blocks], for blocks that fit
    their buffers: byte [k] of the source block onto byte [k] of the
    destination block, up to the bytes addressed. *)
Lemma swap_transfers_bytes sp dp B kind pairs src_bytes dst_bytes :
  0 < B -> src_bytes <= INT64_MAX -> dst_bytes <= INT64_MAX ->
  blocks_inside B src_bytes dst_bytes pairs ->
  forall t, In t (flat_map op_transfers (swap_copies sp dp B kind pairs)) <->
    exists p k, In p pairs /\ 0 <= k < B /\
      t = copy_cell (char_ptr (dp + snd p * B), k) (char_ptr (sp + fst p * B), k).
Proof.
  intros HB Hs Hd Hin t. rewrite in_swap_transfers.
  assert (Hoff : forall p, In p pairs ->
            mul64 (fst p) B = fst p * B /\ mul64 (snd p) B = snd p * B).
  { intros p Hp. destruct (Hin p Hp) as (H1 & H2 & H3 & H4).
    split; apply mul64_small; nia. }
  split; intros [p [k [Hp [Hk ->]]]]; exists p, k;
    destruct (Hoff p Hp) as [E1 E2]; rewrite ?E1, ?E2; auto.
Qed.

Lemma swap_cell_bytes ptr B b k :
  same_bytes (char_ptr (ptr + b * B), k) (block_byte ptr B b k).
Proof.
  unfold same_bytes, block_byte, cell_address, cell_size. simpl.
  split; [ring | reflexivity].
Qed.

Lemma swap_cell_address ptr B b k :
  cell_address (char_ptr (ptr + b * B), k) = ptr + b * B + k /\
  cell_size (char_ptr (ptr + b * B), k) = 1.
Proof. unfold cell_address, cell_size. simpl. split; ring. Qed.

Lemma swap_copies_app sp dp B kind l1 l2 :
  swap_copies sp dp B kind (l1 ++ l2)
  = swap_copies sp dp B kind l1 ++ swap_copies sp dp B kind l2.
Proof. unfold swap_copies. apply map_app. Qed.

(** What a successful [swap_blocks] enqueues, with the block offsets
    computed without wrap-around. *)
Lemma swap_blocks_ops src dst bm s kind n rest :
  let B := element_size src * prod rest in
  swap_direction (device src) (device dst) kind ->
  is_cpu (map_device bm) = true ->
  sizes src = n :: rest -> 0 < n -> 0 < prod rest ->
  nbytes src <= INT64_MAX -> nbytes dst <= INT64_MAX ->
  blocks_inside B (nbytes src) (nbytes dst) (rows bm) ->
  0 < B /\
  (exists out,
     swap_blocks src dst bm s =
     (Ok tt, mkHost (stream s ++ swap_copies (data_ptr src) (data_ptr dst) B kind
                                   (rows bm)) out)) /\
  (forall pairs t, incl pairs (rows bm) ->
     (In t (flat_map op_transfers
              (swap_copies (data_ptr src) (data_ptr dst) B kind pairs)) <->
      exists p k, In p pairs /\ 0 <= k < B /\
        t = copy_cell (char_ptr (data_ptr dst + snd p * B), k)
                      (char_ptr (data_ptr src + fst p * B), k))).
Proof.
  intros B Hdir Hmap Hsz Hn Hrest Hsb Hdb Hrange.
  pose proof (elementSize_pos (dtype src)) as Hes. fold (element_size src) in Hes.
  assert (HBpos : 0 < B) by (unfold B; nia).
  assert (Hsrc_bytes : nbytes src = n * B).
  { unfold nbytes, numel, B. rewrite Hsz. simpl. lia. }
  assert (HBmax : B <= INT64_MAX) by nia.
  assert (HB64 : mul64 (element_size src) (prod rest) = B).
  { apply mul64_small. fold B. lia. }
  split; [exact HBpos|]. split.
  - destruct (swap_blocks_accept src dst bm s kind n rest Hdir Hmap Hsz Hn)
      as [out E].
    { left. rewrite HB64. lia. }
    rewrite HB64 in E. eauto.
  - intros pairs t Hincl.
    apply (swap_transfers_bytes _ _ B kind pairs (nbytes src) (nbytes dst));
      try assumption.
    intros p Hp. apply Hrange. now apply Hincl.
Qed.

(** C2: for a valid block mapping between two buffers that do not overlap,
    in an accepted residency combination, [swap_blocks] succeeds and
    enqueues one copy per pair, each of exactly block_size_in_bytes =
    element size times elements per block of the source; after
    synchronization every byte of each destination block equals the byte of
    its source block as it was before the call, and every byte of the
    source buffer is as it was. *)
Theorem swap_blocks_copies_blocks (src dst : Tensor)
    (block_mapping : MappingTensor (Z * Z)) (s : HostState) (m : Memory)
    (kind : cudaMemcpyKind) (n : Z) (rest : list Z) :
  let block_size_in_bytes := element_size src * prod rest in
  swap_direction (device src) (device dst) kind ->
  is_cpu (map_device block_mapping) = true ->
  sizes src = n :: rest -> 0 < n -> 0 < prod rest ->
  nbytes src <= INT64_MAX -> nbytes dst <= INT64_MAX ->
  valid_block_mapping block_size_in_bytes (nbytes src) (nbytes dst)
    (rows block_mapping) ->
  disjoint (buffer src) (buffer dst) ->
  exists ops,
    fst (swap_blocks src dst block_mapping s) = Ok tt /\
    stream (snd (swap_blocks src dst block_mapping s)) = stream s ++ ops /\
    List.length ops = List.length (rows block_mapping) /\
    (forall op, In op ops ->
       exists d c, op = MemcpyAsync d c block_size_in_bytes kind) /\
    (forall p k, In p (rows block_mapping) -> 0 <= k < block_size_in_bytes ->
       load (synchronize ops m)
         (block_byte (data_ptr dst) block_size_in_bytes (snd p) k)
       = load m (block_byte (data_ptr src) block_size_in_bytes (fst p) k)) /\
    (forall i, 0 <= i < nbytes src ->
       load (synchronize ops m) (char_ptr (data_ptr src), i)
       = load m (char_ptr (data_ptr src), i)).
Proof.
  intros B Hdir Hmap Hsz Hn Hrest Hsb Hdb [Hrange Hfun] Hsep.
  destruct (swap_blocks_ops src dst block_mapping s kind n rest
              Hdir Hmap Hsz Hn Hrest Hsb Hdb Hrange) as (HB & [out E] & Hin0).
  fold B in E, Hin0.
  pose proof (Hin0 (rows block_mapping)) as Hin.
  set (ops := swap_copies (data_ptr src) (data_ptr dst) B kind (rows block_mapping)) in *.
  assert (Hdst : forall p k, In p (rows block_mapping) -> 0 <= k < B ->
            cell_in (char_ptr (data_ptr dst + snd p * B), k) (buffer dst)).
  { intros p k Hp Hk. destruct (Hrange p Hp) as (H1 & H2 & H3 & H4).
    unfold cell_in, buffer. simpl.
    destruct (swap_cell_address (data_ptr dst) B (snd p) k) as [-> ->].
    assert (0 <= snd p * B) by nia. lia. }
  assert (Hsrc : forall p k, In p (rows block_mapping) -> 0 <= k < B ->
            cell_in (char_ptr (data_ptr src + fst p * B), k) (buffer src)).
  { intros p k Hp Hk. destruct (Hrange p Hp) as (H1 & H2 & H3 & H4).
    unfold cell_in, buffer. simpl.
    destruct (swap_cell_address (data_ptr src) B (fst p) k) as [-> ->].
    assert (0 <= fst p * B) by nia. lia. }
  exists ops. rewrite E. simpl. repeat apply conj; auto.
  - unfold ops, swap_copies. apply length_map.
  - intros op Hop. unfold ops, swap_copies in Hop. apply in_map_iff in Hop.
    destruct Hop as [p [<- _]]. eauto.
  - intros p k Hp Hk. unfold synchronize.
    assert (Ht : In (copy_cell (char_ptr (data_ptr dst + snd p * B), k)
                               (char_ptr (data_ptr src + fst p * B), k))
                    (flat_map op_transfers ops)).
    { apply Hin; [apply incl_refl|]. exists p, k. auto. }
    apply (run_written _ m) in Ht.
    + simpl t_dst in Ht.
      rewrite <- (load_same_bytes _ _ _ (swap_cell_bytes (data_ptr dst) B (snd p) k)).
      rewrite <- (load_same_bytes _ _ _ (swap_cell_bytes (data_ptr src) B (fst p) k)).
      rewrite Ht. apply stored_copy; [reflexivity | simpl; unfold cell_size; simpl; lia].
    + intros t u Hu Hv.
      apply Hin in Hu; [|apply incl_refl]. apply Hin in Hv; [|apply incl_refl].
      destruct Hu as [p1 [k1 [Hp1 [Hk1 ->]]]].
      destruct Hv as [p2 [k2 [Hp2 [Hk2 ->]]]]. simpl.
      apply (disjoint_no_overlap _ _ (buffer dst) (buffer src));
        [now apply Hdst | now apply Hsrc | now apply disjoint_sym].
    + intros t u Hu Hv.
      apply Hin in Hu; [|apply incl_refl]. apply Hin in Hv; [|apply incl_refl].
      destruct Hu as [p1 [k1 [Hp1 [Hk1 ->]]]].
      destruct Hv as [p2 [k2 [Hp2 [Hk2 ->]]]]. simpl. intros Ov.
      unfold overlap in Ov.
      destruct (swap_cell_address (data_ptr dst) B (snd p1) k1) as [A1 S1].
      destruct (swap_cell_address (data_ptr dst) B (snd p2) k2) as [A2 S2].
      rewrite A1, A2, S1, S2 in Ov.
      assert (Edst : snd p1 * B + k1 = snd p2 * B + k2) by lia.
      destruct (block_offset_unique B _ _ _ _ Hk1 Hk2 Edst) as [Eb ->].
      split.
      * unfold same_bytes. rewrite A1, A2, S1, S2. split; [lia | reflexivity].
      * unfold stored, written. simpl. now rewrite (Hfun p1 p2 Hp1 Hp2 Eb).
    + simpl. unfold cell_size. simpl. lia.
  - intros i Hi. unfold synchronize. apply run_frame.
    intros t Ht. apply Hin in Ht; [|apply incl_refl].
    destruct Ht as [p [k [Hp [Hk ->]]]]. simpl.
    apply (disjoint_no_overlap _ _ (buffer dst) (buffer src));
      [now apply Hdst | | now apply disjoint_sym].
    unfold cell_in, buffer, cell_address, cell_size. simpl. lia.
Qed.

Lemma swap_blocks_copies_blocks_witness :
  exists ops,
    fst (swap_blocks Scenario.device_buffer Scenario.host_buffer
           Scenario.host_mapping Scenario.idle) = Ok tt /\
    stream (snd (swap_blocks Scenario.device_buffer Scenario.host_buffer
                   Scenario.host_mapping Scenario.idle)) = [] ++ ops /\
    List.length ops = 2%nat /\
    (forall op, In op ops ->
       exists d c, op = MemcpyAsync d c 8 cudaMemcpyDeviceToHost) /\
    (forall p k, In p [(0, 0); (1, 1)] -> 0 <= k < 8 ->
       load (synchronize ops Scenario.numbered) (block_byte 12288 8 (snd p) k)
       = load Scenario.numbered (block_byte 4096 8 (fst p) k)) /\
    (forall i, 0 <= i < 64 ->
       load (synchronize ops Scenario.numbered) (char_ptr 4096, i)
       = load Scenario.numbered (char_ptr 4096, i)).
Proof.
  apply (swap_blocks_copies_blocks Scenario.device_buffer Scenario.host_buffer
           Scenario.host_mapping Scenario.idle Scenario.numbered
           cudaMemcpyDeviceToHost 8 [4]).
  - right; left. repeat split.
  - reflexivity.
  - reflexivity.
  - lia.
  - simpl. lia.
  - vm_compute. discriminate.
  - vm_compute. discriminate.
  - split.
    + intros p [<- | [<- | []]]; vm_compute; repeat split; discriminate.
    + intros p q [<- | [<- | []]] [<- | [<- | []]]; simpl; intros; congruence.
  - left. vm_compute. discriminate.
Defined.

(* ================================================================== *)
(** * Block Replication Engine: the kernel *)
(* ================================================================== *)

Lemma flatten_pairs_nth pairs : forall j,
  (j < List.length pairs)%nat ->
  nth (2 * j) (flatten_pairs pairs) 0 = fst (nth j pairs (0, 0)) /\
  nth (2 * j + 1) (flatten_pairs pairs) 0 = snd (nth j pairs (0, 0)).
Proof.
  induction pairs as [|p pairs IH]; intros j Hj; simpl in Hj; [lia|].
  destruct j as [|j]; [split; reflexivity|].
  replace (2 * S j)%nat with (S (S (2 * j))) by lia.
  simpl. apply IH. lia.
Qed.

(** The transfers of the block (layer, pair) of a [copy_blocks_kernel]
    launch: every element of the pair's source block, once for the key
    cache and once for the value cache of the layer. *)
Lemma in_copy_blocks_kernel_block scalar_t kps vps flat npb x y bd t :
  0 <= x <= INT_MAX -> 0 <= y -> 2 * y + 1 <= INT_MAX ->
  0 < bd -> 0 <= npb -> npb + bd <= INT_MAX ->
  let kc := mkPointer (nth (Z.to_nat x) kps 0) (elementSize scalar_t) in
  let vc := mkPointer (nth (Z.to_nat x) vps 0) (elementSize scalar_t) in
  let sb := nth (2 * Z.to_nat y) flat 0 in
  let db := nth (2 * Z.to_nat y + 1) flat 0 in
  In t (flat_map (fun tx => copy_blocks_kernel scalar_t kps vps flat npb x y tx bd)
          (upto bd))
  <-> exists i, 0 <= i < npb /\
        (t = copy_cell (kc, add64 (mul64 db npb) i) (kc, add64 (mul64 sb npb) i) \/
         t = copy_cell (vc, add64 (mul64 db npb) i) (vc, add64 (mul64 sb npb) i)).
Proof.
  intros Hx Hy Hy2 Hbd Hn Hmax kc vc sb db.
  unfold copy_blocks_kernel.
  assert (Ex : int x = x) by (apply int_small; unfold INT_MAX in *; lia).
  assert (Ey : int y = y) by (apply int_small; unfold INT_MAX in *; lia).
  rewrite Ex, Ey.
  rewrite (mul32_small 2 y), (add32_small (2 * y) 1) by lia.
  replace (Z.to_nat (2 * y)) with (2 * Z.to_nat y)%nat by lia.
  replace (Z.to_nat (2 * y + 1)) with (2 * Z.to_nat y + 1)%nat by lia.
  fold kc vc sb db.
  rewrite in_flat_map. split.
  - intros [tx [Htx Hin]]. apply in_app_or in Hin.
    destruct Hin as [Hin | Hin];
      (assert (Hb : In t (flat_map (fun tx => thread_loop (Z.to_nat npb) (int tx)
                            npb bd _) (upto bd)))
         by (apply in_flat_map; exists tx; split; [exact Htx | exact Hin]));
      apply block_loop_in in Hb; try assumption;
      destruct Hb as [i [Hi [<- | []]]]; exists i; auto.
  - intros [i [Hi [-> | ->]]].
    + assert (Hb : In (copy_cell (kc, add64 (mul64 db npb) i)
                                 (kc, add64 (mul64 sb npb) i))
                      (flat_map (fun tx => thread_loop (Z.to_nat npb) (int tx) npb bd
                         (fun i => [copy_cell (kc, add64 (mul64 db npb) i)
                                              (kc, add64 (mul64 sb npb) i)]))
                         (upto bd))).
      { apply block_loop_in; try assumption. exists i. split; [exact Hi | now left]. }
      apply in_flat_map in Hb. destruct Hb as [tx [Htx Hb]].
      exists tx. split; [exact Htx | apply in_or_app; left; exact Hb].
    + assert (Hb : In (copy_cell (vc, add64 (mul64 db npb) i)
                                 (vc, add64 (mul64 sb npb) i))
                      (flat_map (fun tx => thread_loop (Z.to_nat npb) (int tx) npb bd
                         (fun i => [copy_cell (vc, add64 (mul64 db npb) i)
                                              (vc, add64 (mul64 sb npb) i)]))
                         (upto bd))).
      { apply block_loop_in; try assumption. exists i. split; [exact Hi | now left]. }
      apply in_flat_map in Hb. destruct Hb as [tx [Htx Hb]].
      exists tx. split; [exact Htx | apply in_or_app; right; exact Hb].
Qed.

Lemma block_offsets_small nb npb b i :
  0 <= b < nb -> 0 <= i < npb -> nb * npb <= INT64_MAX ->
  add64 (mul64 b npb) i = b * npb + i.
Proof.
  intros Hb Hi Hmax.
  rewrite mul64_small by nia. apply add64_small. nia.
Qed.

(** A [copy_blocks_kernel] launch over [L] layers and the pairs of a
    mapping performs exactly the element copies of every pair in the key
    buffer and in the value buffer of every layer. *)
Lemma in_copy_blocks_grid scalar_t kps vps pairs npb nb t :
  List.length kps = List.length vps ->
  Z.of_nat (List.length kps) <= INT_MAX ->
  2 * Z.of_nat (List.length pairs) + 1 <= INT_MAX ->
  0 < npb -> npb + 1024 <= INT_MAX ->
  blocks_in_range nb pairs -> nb * npb <= INT64_MAX ->
  In t (grid_threads (Z.of_nat (List.length kps)) (Z.of_nat (List.length pairs))
          (Z.min 1024 npb)
          (copy_blocks_kernel scalar_t kps vps (flatten_pairs pairs) npb))
  <-> exists l p i, (l < List.length kps)%nat /\ In p pairs /\ 0 <= i < npb /\
        (t = replica (mkPointer (nth l kps 0) (elementSize scalar_t)) npb p i \/
         t = replica (mkPointer (nth l vps 0) (elementSize scalar_t)) npb p i).
Proof.
  intros HL HLmax HP Hnpb Hmax Hrange Hnb.
  rewrite in_grid_threads. split.
  - intros [x [y [Hx [Hy Hin]]]].
    apply in_copy_blocks_kernel_block in Hin; try lia.
    destruct Hin as [i [Hi Hin]].
    destruct (flatten_pairs_nth pairs (Z.to_nat y) ltac:(lia)) as [Es Ed].
    rewrite Es, Ed in Hin.
    assert (Hp : In (nth (Z.to_nat y) pairs (0, 0)) pairs) by (apply nth_In; lia).
    destruct (Hrange _ Hp) as [Hs Hd].
    rewrite !(block_offsets_small nb) in Hin by assumption.
    exists (Z.to_nat x), (nth (Z.to_nat y) pairs (0, 0)), i.
    repeat split; try lia; auto.
  - intros [l [p [i [Hl [Hp [Hi Ht]]]]]].
    destruct (In_nth pairs p (0, 0) Hp) as [j [Hj Ej]].
    exists (Z.of_nat l), (Z.of_nat j). split; [lia|]. split; [lia|].
    apply in_copy_blocks_kernel_block; try lia.
    cbv zeta. rewrite !Nat2Z.id.
    destruct (flatten_pairs_nth pairs j Hj) as [Es Ed].
    rewrite Es, Ed, Ej.
    destruct (Hrange _ Hp) as [Hs Hd].
    exists i. split; [exact Hi|].
    rewrite !(block_offsets_small nb) by assumption. exact Ht.
Qed.

(* ================================================================== *)
(** * Host loops that only compute *)
(* ================================================================== *)

Lemma for_each_pure {A S : Type} (l : list A) (body : A -> S -> Host S) :
  (forall a acc, pure_host (body a acc)) ->
  forall acc, pure_host (for_each l body acc).
Proof.
  intros Hb. induction l as [|a l IH]; intros acc s; simpl; [reflexivity|].
  unfold bind. specialize (Hb a acc s).
  destruct (body a acc s) as [[acc'|e] s1]; simpl in Hb; subst s1.
  - apply IH.
  - reflexivity.
Qed.

Lemma for_each_ok {A S : Type} (l : list A) (body : A -> S -> Host S) :
  (forall a acc s, In a l -> exists acc', body a acc s = (Ok acc', s)) ->
  forall acc s, exists acc', for_each l body acc s = (Ok acc', s).
Proof.
  induction l as [|a l IH]; intros Hb acc s; simpl.
  - exists acc. reflexivity.
  - unfold bind. destruct (Hb a acc s (or_introl eq_refl)) as [acc1 ->].
    apply IH. intros b acc0 s0 Hin. apply Hb. now right.
Qed.

Lemma copy_blocks_stat_pure npb layer p st : pure_host (copy_blocks_stat npb layer p st).
Proof.
  intros s. unfold copy_blocks_stat, bind, host_rem, size.
  destruct (nth_error (sizes layer) 0); [|reflexivity].
  unfold ret at 1. destruct (npb =? 0); reflexivity.
Qed.

Lemma copy_blocks_stats_pure npb layers pairs st :
  pure_host (for_each layers (fun layer st =>
               for_each pairs (copy_blocks_stat npb layer) st) st).
Proof.
  apply for_each_pure. intros layer acc. apply for_each_pure.
  intros p acc'. apply copy_blocks_stat_pure.
Qed.

Lemma copy_blocks_stats_ok npb layers pairs st s :
  (npb <> 0 /\ forall layer, In layer layers -> sizes layer <> []) \/
  pairs = [] ->
  exists st', for_each layers (fun layer st =>
                for_each pairs (copy_blocks_stat npb layer) st) st s = (Ok st', s).
Proof.
  intros H. apply for_each_ok. intros layer acc s0 Hl.
  apply for_each_ok. intros p acc0 s1 Hp.
  destruct H as [[H Hrank] | ->]; [|destruct Hp].
  unfold copy_blocks_stat, bind, host_rem, size.
  specialize (Hrank layer Hl).
  destruct (sizes layer) as [|n0 rest0]; [contradiction|]. simpl.
  destruct (Z.eqb_spec npb 0); [contradiction|]. eexists. reflexivity.
Qed.

(* ================================================================== *)
(** * Block Replication Engine: the host function *)
(* ================================================================== *)

(** What a successful [copy_blocks] call enqueues. *)
Lemma copy_blocks_run key_caches value_caches bm s n rest :
  let key0 := hd null_tensor key_caches in
  let npb := int (prod rest) in
  Z.of_nat (List.length key_caches) <= INT_MAX ->
  List.length key_caches = List.length value_caches ->
  key_caches <> [] ->
  is_cuda (device key0) = true ->
  sizes key0 = n :: rest -> 0 < n ->
  VLLM_DISPATCH_FLOATING_AND_BYTE_TYPES (dtype key0) = true ->
  (npb <> 0 /\ forall layer, In layer key_caches -> sizes layer <> []) \/
  rows bm = [] ->
  exists out,
    copy_blocks key_caches value_caches bm s =
    (Ok tt,
     mkHost (stream s ++
       [KernelLaunch "copy_blocks_kernel"
          (unsigned_int (Z.of_nat (List.length key_caches)))
          (unsigned_int (int (Z.of_nat (List.length (rows bm)))))
          (unsigned_int (Z.min 1024 npb))
          (copy_blocks_kernel (dtype key0)
             (map data_ptr key_caches) (map data_ptr value_caches)
             (flatten_pairs (rows bm)) npb)]) out).
Proof.
  intros key0 npb HL Hlen Hne Hcuda Hsz Hn Hdisp Hnpb.
  unfold copy_blocks.
  assert (EL : int (Z.of_nat (List.length key_caches)) = Z.of_nat (List.length key_caches))
    by (apply int_small; unfold INT_MAX in *; lia).
  rewrite EL.
  unfold bind at 1. unfold printf at 1.
  unfold bind at 1. unfold TORCH_CHECK at 1.
  rewrite Hlen, Z.eqb_refl. unfold ret at 1.
  destruct (Z.eqb_spec (Z.of_nat (List.length value_caches)) 0) as [E0 | _].
  { destruct key_caches; [contradiction | simpl in Hlen; lia]. }
  fold key0.
  unfold bind at 1. unfold TORCH_CHECK at 1. rewrite Hcuda. unfold ret at 1.
  unfold bind at 1. unfold select0. rewrite Hsz.
  destruct (Z.ltb_spec 0 n) as [_|]; [|lia].
  unfold ret at 1. unfold numel. simpl sizes. fold npb.
  unfold bind at 1.
  match goal with |- context [for_each key_caches ?f ?a ?b] =>
    destruct (copy_blocks_stats_ok npb key_caches (rows bm) a b Hnpb) as [st' ->] end.
  cbv zeta. fold key0. rewrite Hdisp. host_simpl. eexists. reflexivity.
Qed.

(** Whenever [copy_blocks] fails, the stream is as it was. *)
Lemma copy_blocks_raise key_caches value_caches bm s e s' :
  copy_blocks key_caches value_caches bm s = (Raise e, s') -> stream s' = stream s.
Proof.
  unfold copy_blocks.
  unfold bind at 1. unfold printf at 1.
  unfold bind at 1. unfold TORCH_CHECK at 1.
  destruct (_ =? Z.of_nat _); [|intros H; inversion H; reflexivity].
  unfold ret at 1.
  destruct (_ =? 0); [intros H; inversion H|].
  unfold bind at 1. unfold TORCH_CHECK at 1.
  destruct (is_cuda _); [|intros H; inversion H; reflexivity].
  unfold ret at 1. unfold bind at 1. unfold select0.
  destruct (sizes _) as [|n rest]; [intros H; inversion H; reflexivity|].
  destruct (0 <? n); [|intros H; inversion H; reflexivity].
  unfold ret at 1. unfold bind at 1.
  match goal with |- context [for_each key_caches ?f ?a ?b] =>
    pose proof (copy_blocks_stats_pure
                  (int (numel (mkTensor (device (hd null_tensor key_caches))
                     (dtype (hd null_tensor key_caches)) rest
                     (tl (strides (hd null_tensor key_caches)))
                     (data_ptr (hd null_tensor key_caches)))))
                  key_caches (rows bm) a b) as Hp;
    destruct (for_each key_caches f a b) as [[st|e0] s0] end;
    simpl in Hp; subst s0.
  - destruct (VLLM_DISPATCH_FLOATING_AND_BYTE_TYPES _); host_simpl;
      intros H; inversion H; reflexivity.
  - intros H; inversion H; reflexivity.
Qed.


(** With a device-resident first key buffer, a host-resident value buffer
    is not refused: the call succeeds and launches. *)
Lemma copy_blocks_accepts_host_value_buffer :
  ~ rejects_every_non_device_buffer.
Proof.
  intros H.
  destruct (H Scenario.key_layers Scenario.mixed_value_layers
              Scenario.fork_mapping Scenario.idle) as [msg Hraise].
  - exists (mkTensor Scenario.host Half [8; 4] [4; 1] 300000).
    split; [right; right; now left | reflexivity].
  - discriminate Hraise.
Qed.

(** C8, amended: [copy_blocks] fails with a PreconditionViolation when the
    numbers of key and value layers differ and when the first key buffer,
    whose device stands for the whole layer set, is not device-resident (so
    also when all the buffers are on one device that is not a GPU); whenever
    it fails nothing has been enqueued, so nothing is written; with an empty
    layer list it succeeds and enqueues nothing, and with an empty block
    mapping (and a first key buffer that has a block 0 and a dispatched
    element type) it succeeds and what it enqueues writes no cell. *)
Theorem copy_blocks_checks (key_caches value_caches : list Tensor)
    (block_mapping : MappingTensor (Z * Z)) (s : HostState) :
  (Z.of_nat (List.length key_caches) <= INT_MAX ->
   List.length key_caches <> List.length value_caches ->
   exists msg, fst (copy_blocks key_caches value_caches block_mapping s)
               = Raise (PreconditionViolation msg)) /\
  (Z.of_nat (List.length key_caches) <= INT_MAX ->
   List.length key_caches = List.length value_caches ->
   key_caches <> [] ->
   is_cuda (device (hd null_tensor key_caches)) = false ->
   exists msg, fst (copy_blocks key_caches value_caches block_mapping s)
               = Raise (PreconditionViolation msg)) /\
  (forall d,
   Z.of_nat (List.length key_caches) <= INT_MAX ->
   List.length key_caches = List.length value_caches ->
   key_caches <> [] ->
   (forall t, In t (key_caches ++ value_caches) -> device t = d) ->
   is_cuda d = false ->
   exists msg, fst (copy_blocks key_caches value_caches block_mapping s)
               = Raise (PreconditionViolation msg)) /\
  (forall e, fst (copy_blocks key_caches value_caches block_mapping s) = Raise e ->
   stream (snd (copy_blocks key_caches value_caches block_mapping s)) = stream s /\
   forall m, synchronize
               (skipn (List.length (stream s))
                  (stream (snd (copy_blocks key_caches value_caches block_mapping s))))
               m = m) /\
  (key_caches = [] -> value_caches = [] ->
   fst (copy_blocks key_caches value_caches block_mapping s) = Ok tt /\
   stream (snd (copy_blocks key_caches value_caches block_mapping s)) = stream s) /\
  (forall n rest,
   rows block_mapping = [] ->
   Z.of_nat (List.length key_caches) <= INT_MAX ->
   List.length key_caches = List.length value_caches ->
   key_caches <> [] ->
   is_cuda (device (hd null_tensor key_caches)) = true ->
   sizes (hd null_tensor key_caches) = n :: rest -> 0 < n ->
   VLLM_DISPATCH_FLOATING_AND_BYTE_TYPES (dtype (hd null_tensor key_caches)) = true ->
   fst (copy_blocks key_caches value_caches block_mapping s) = Ok tt /\
   exists op,
     stream (snd (copy_blocks key_caches value_caches block_mapping s))
       = stream s ++ [op] /\
     op_transfers op = [] /\
     forall m, synchronize [op] m = m).
Proof.
  assert (Hmis : Z.of_nat (List.length key_caches) <= INT_MAX ->
            List.length key_caches <> List.length value_caches ->
            exists msg, fst (copy_blocks key_caches value_caches block_mapping s)
                        = Raise (PreconditionViolation msg)).
  { intros HL Hne. unfold copy_blocks, bind, printf, TORCH_CHECK.
    rewrite int_small by (unfold INT_MAX in *; lia).
    destruct (Z.eqb_spec (Z.of_nat (List.length key_caches))
                (Z.of_nat (List.length value_caches))); [lia|].
    eexists. reflexivity. }
  assert (Hdev : Z.of_nat (List.length key_caches) <= INT_MAX ->
            List.length key_caches = List.length value_caches ->
            key_caches <> [] ->
            is_cuda (device (hd null_tensor key_caches)) = false ->
            exists msg, fst (copy_blocks key_caches value_caches block_mapping s)
                        = Raise (PreconditionViolation msg)).
  { intros HL Hlen Hne Hcpu. unfold copy_blocks, bind, printf, TORCH_CHECK.
    rewrite int_small by (unfold INT_MAX in *; lia).
    rewrite Hlen, Z.eqb_refl. unfold ret at 1.
    destruct (Z.eqb_spec (Z.of_nat (List.length value_caches)) 0) as [E0 | _].
    { destruct key_caches; [contradiction | simpl in Hlen; lia]. }
    rewrite Hcpu. eexists. reflexivity. }
  repeat apply conj.
  - exact Hmis.
  - exact Hdev.
  - intros d HL Hlen Hne Hall Hd. apply Hdev; auto.
    rewrite (Hall (hd null_tensor key_caches)); [exact Hd|].
    apply in_or_app. left. destruct key_caches; [contradiction | now left].
  - intros e He.
    destruct (copy_blocks key_caches value_caches block_mapping s) as [r s'] eqn:E.
    simpl in He. subst r. apply copy_blocks_raise in E. simpl.
    split; [exact E|]. intros m. rewrite E, skipn_all. reflexivity.
  - intros -> ->. split; reflexivity.
  - intros n rest Hrows HL Hlen Hne Hcuda Hsz Hn Hdisp.
    destruct (copy_blocks_run key_caches value_caches block_mapping s n rest
                HL Hlen Hne Hcuda Hsz Hn Hdisp (or_intror Hrows)) as [out ->].
    simpl. split; [reflexivity|]. eexists. split; [reflexivity|].
    assert (E : forall gx bx k,
              op_transfers (KernelLaunch "copy_blocks_kernel" gx
                 (unsigned_int (int (Z.of_nat (List.length (rows block_mapping)))))
                 bx k) = []).
    { intros. rewrite Hrows. simpl. apply launch_empty_grid_y. }
    split; [apply E|]. intros m. unfold synchronize. cbn [flat_map].
    rewrite E. reflexivity.
Qed.

Lemma copy_blocks_checks_witness :
  (exists msg, fst (copy_blocks Scenario.key_layers Scenario.host_value_layers
                      Scenario.fork_mapping Scenario.idle)
               = Raise (PreconditionViolation msg)) /\
  (exists msg, fst (copy_blocks Scenario.host_key_layers Scenario.host_value_layers
                      Scenario.fork_mapping Scenario.idle)
               = Raise (PreconditionViolation msg)) /\
  (stream (snd (copy_blocks Scenario.host_key_layers Scenario.host_value_layers
                  Scenario.fork_mapping Scenario.idle)) = []) /\
  (fst (copy_blocks [] [] Scenario.fork_mapping Scenario.idle) = Ok tt) /\
  (fst (copy_blocks Scenario.key_layers Scenario.value_layers
          Scenario.empty_mapping Scenario.idle) = Ok tt).
Proof.
  repeat apply conj.
  - destruct (copy_blocks_checks Scenario.key_layers Scenario.host_value_layers
                Scenario.fork_mapping Scenario.idle) as (H & _).
    apply H; [vm_compute; discriminate | simpl; lia].
  - destruct (copy_blocks_checks Scenario.host_key_layers Scenario.host_value_layers
                Scenario.fork_mapping Scenario.idle) as (_ & _ & H & _).
    apply (H Scenario.host); [vm_compute; discriminate | reflexivity
                             | discriminate | | reflexivity].
    intros t [<- | [<- | []]]; reflexivity.
  - destruct (copy_blocks_checks Scenario.host_key_layers Scenario.host_value_layers
                Scenario.fork_mapping Scenario.idle) as (_ & _ & _ & H & _).
    apply (H (PreconditionViolation "Expected cache_device.is_cuda() to be true")).
    reflexivity.
  - destruct (copy_blocks_checks [] [] Scenario.fork_mapping Scenario.idle)
      as (_ & _ & _ & _ & H & _).
    apply H; reflexivity.
  - destruct (copy_blocks_checks Scenario.key_layers Scenario.value_layers
                Scenario.empty_mapping Scenario.idle) as (_ & _ & _ & _ & _ & H).
    apply (H 8 [4]); try reflexivity; [vm_compute; discriminate | discriminate].
Defined.


(* ================================================================== *)
(** * Block Replication Engine: what a launch does to memory *)
(* ================================================================== *)

Lemma block_element_in scalar_t layer npb nb b i :
  0 <= b < nb -> 0 <= i < npb ->
  cell_in (block_element scalar_t layer npb b i)
          (layer_region scalar_t (nb * npb) layer).
Proof.
  intros Hb Hi. pose proof (elementSize_pos scalar_t) as Hw.
  unfold cell_in, block_element, layer_region, cell_address, cell_size.
  simpl.
  assert (0 <= b * npb + i) by nia.
  assert (b * npb + i + 1 <= nb * npb) by nia.
  split; nia.
Qed.

Lemma replica_cells scalar_t layer npb p i :
  replica (mkPointer (data_ptr layer) (elementSize scalar_t)) npb p i
  = copy_cell (block_element scalar_t layer npb (snd p) i)
              (block_element scalar_t layer npb (fst p) i).
Proof. reflexivity. Qed.

(** Elements of blocks of two layers of a separate layer set meet only
    when they are the same element of the same storage. *)
Lemma block_elements_meet scalar_t layers npb nb a b ba bb i j :
  layers_separate scalar_t (nb * npb) layers ->
  In a layers -> In b layers ->
  0 <= ba < nb -> 0 <= bb < nb -> 0 <= i < npb -> 0 <= j < npb ->
  overlap (block_element scalar_t a npb ba i) (block_element scalar_t b npb bb j) ->
  data_ptr a = data_ptr b /\ ba = bb /\ i = j.
Proof.
  intros Hsep Ha Hb Hba Hbb Hi Hj Ov.
  destruct (Hsep a b Ha Hb) as [E | D].
  - split; [exact E|]. unfold block_element in Ov. rewrite E in Ov.
    apply overlap_same_pointer in Ov; [|simpl; apply elementSize_pos].
    now apply (block_offset_unique npb).
  - exfalso. revert Ov.
    apply (disjoint_no_overlap _ _ _ _
             (block_element_in scalar_t a npb nb ba i Hba Hi)
             (block_element_in scalar_t b npb nb bb j Hbb Hj) D).
Qed.

Section Replicas.

Variables (T : list Transfer) (scalar_t : ScalarType) (layers : list Tensor).
Variables (pairs : list (Z * Z)) (npb nb : Z).
Hypothesis T_replicas : forall t, In t T ->
  exists layer p i, In layer layers /\ In p pairs /\ 0 <= i < npb /\
    t = replica (mkPointer (data_ptr layer) (elementSize scalar_t)) npb p i.
Hypothesis Hrange : blocks_in_range nb pairs.
Hypothesis Hseparate : layers_separate scalar_t (nb * npb) layers.
Hypothesis Hsingle : single_source pairs.
Hypothesis Hdisjoint : targets_disjoint_from_sources pairs.

Lemma replicas_reads_untouched : reads_untouched T.
Proof.
  intros t u Ht Hu.
  destruct (T_replicas t Ht) as [a [p [i [Ha [Hp [Hi ->]]]]]].
  destruct (T_replicas u Hu) as [b [q [j [Hb [Hq [Hj ->]]]]]].
  rewrite !replica_cells. simpl. intros Ov.
  destruct (Hrange p Hp) as [_ Hd]. destruct (Hrange q Hq) as [Hs _].
  destruct (block_elements_meet _ _ _ _ _ _ _ _ _ _ Hseparate Ha Hb Hd Hs Hi Hj Ov)
    as (_ & Eb & _).
  exact (Hdisjoint p q Hp Hq Eb).
Qed.

Lemma replicas_writes_agree m : writes_agree m T.
Proof.
  intros t u Ht Hu.
  destruct (T_replicas t Ht) as [a [p [i [Ha [Hp [Hi ->]]]]]].
  destruct (T_replicas u Hu) as [b [q [j [Hb [Hq [Hj ->]]]]]].
  rewrite !replica_cells. simpl. intros Ov.
  destruct (Hrange p Hp) as [_ Hd]. destruct (Hrange q Hq) as [_ Hd'].
  destruct (block_elements_meet _ _ _ _ _ _ _ _ _ _ Hseparate Ha Hb Hd Hd' Hi Hj Ov)
    as (Eptr & Eb & ->).
  unfold same_bytes, stored, written, block_element, cell_address, cell_size.
  simpl. rewrite Eptr, Eb, (Hsingle p q Hp Hq Eb). auto.
Qed.

Lemma replicas_spare_sources layer p i t :
  In layer layers -> In p pairs -> 0 <= i < npb -> In t T ->
  ~ overlap (t_dst t) (block_element scalar_t layer npb (fst p) i).
Proof.
  intros Hl Hp Hi Ht.
  destruct (T_replicas t Ht) as [a [q [j [Ha [Hq [Hj ->]]]]]].
  rewrite replica_cells. simpl. intros Ov.
  destruct (Hrange q Hq) as [_ Hd]. destruct (Hrange p Hp) as [Hs _].
  destruct (block_elements_meet _ _ _ _ _ _ _ _ _ _ Hseparate Ha Hl Hd Hs Hj Hi Ov)
    as (_ & Eb & _).
  exact (Hdisjoint q p Hq Hp Eb).
Qed.

(** Whatever the order in which the transfers run, every destination
    block ends up equal to the initial source block and every source
    block is as it was. *)
Lemma replicas_run sched m layer p i :
  Permutation sched T ->
  In layer layers -> In p pairs -> 0 <= i < npb ->
  In (replica (mkPointer (data_ptr layer) (elementSize scalar_t)) npb p i) T ->
  load (run sched m) (block_element scalar_t layer npb (snd p) i)
  = load m (block_element scalar_t layer npb (fst p) i) /\
  load (run sched m) (block_element scalar_t layer npb (fst p) i)
  = load m (block_element scalar_t layer npb (fst p) i).
Proof.
  intros Hperm Hl Hp Hi Hin. pose proof (elementSize_pos scalar_t) as Hw. split.
  - rewrite replica_cells in Hin.
    change (block_element scalar_t layer npb (snd p) i)
      with (t_dst (copy_cell (block_element scalar_t layer npb (snd p) i)
                             (block_element scalar_t layer npb (fst p) i))).
    rewrite run_written.
    + apply stored_copy; [reflexivity|]. unfold cell_size. simpl. lia.
    + eapply reads_untouched_perm; [exact Hperm | exact replicas_reads_untouched].
    + eapply writes_agree_perm; [exact Hperm | apply replicas_writes_agree].
    + eapply Permutation_in; [apply Permutation_sym; exact Hperm | exact Hin].
    + unfold cell_size. simpl. lia.
  - apply run_frame. intros t Ht.
    apply replicas_spare_sources; auto.
    eapply Permutation_in; [exact Hperm | exact Ht].
Qed.

End Replicas.

Lemma nth_map_data_ptr l ts :
  nth l (map data_ptr ts) 0 = data_ptr (nth l ts null_tensor).
Proof. exact (map_nth data_ptr ts null_tensor l). Qed.

(** What a successful [copy_blocks] enqueues: one launch, whose transfers
    are the element copies of every pair in every key and value buffer. *)
Lemma copy_blocks_ops key_caches value_caches bm s n rest :
  let key0 := hd null_tensor key_caches in
  let npb := prod rest in
  Z.of_nat (List.length key_caches) <= INT_MAX ->
  List.length key_caches = List.length value_caches ->
  key_caches <> [] ->
  Z.of_nat (List.length (rows bm)) <= MAX_GRID_Y ->
  (rows bm <> [] -> forall layer, In layer key_caches -> sizes layer <> []) ->
  is_cuda (device key0) = true ->
  VLLM_DISPATCH_FLOATING_AND_BYTE_TYPES (dtype key0) = true ->
  sizes key0 = n :: rest -> 0 < n ->
  0 < npb -> npb + 1024 <= INT_MAX -> n * npb <= INT64_MAX ->
  blocks_in_range n (rows bm) ->
  exists op out,
    copy_blocks key_caches value_caches bm s
    = (Ok tt, mkHost (stream s ++ [op]) out) /\
    forall t, In t (op_transfers op) <->
      exists layer p i,
        In layer (key_caches ++ value_caches) /\ In p (rows bm) /\
        0 <= i < npb /\
        t = replica (mkPointer (data_ptr layer) (elementSize (dtype key0)))
              npb p i.
Proof.
  intros key0 npb HL Hlen Hne HP Hrank Hcuda Hdisp Hsz Hn Hnpb Hmax Hnb Hrange.
  assert (Enpb : int (prod rest) = npb)
    by (apply int_small; unfold npb, INT_MAX in *; lia).
  assert (HP' : Z.of_nat (List.length (rows bm)) <= INT_MAX)
    by (unfold MAX_GRID_Y, INT_MAX in *; lia).
  destruct (copy_blocks_run key_caches value_caches bm s n rest
              HL Hlen Hne Hcuda Hsz Hn Hdisp) as [out E].
  { destruct (rows bm) as [|p0 ps] eqn:Erows; [now right|].
    left. rewrite Enpb. split; [lia|]. apply Hrank. discriminate. }
  rewrite Enpb in E. fold key0 in E.
  rewrite (int_small (Z.of_nat (List.length (rows bm)))) in E
    by (unfold INT_MAX in *; lia).
  rewrite !unsigned_int_small in E by lia.
  match type of E with _ = (_, mkHost (_ ++ [?o]) _) => set (op := o) in * end.
  exists op, out. split; [exact E|].
  intros t. unfold op. simpl op_transfers.
  destruct (rows bm) as [|p0 ps] eqn:Erows.
  { simpl List.length. rewrite launch_empty_grid_y.
    split; [intros [] | intros [layer [p [i [_ [[] _]]]]]]. }
  rewrite <- Erows in *.
  assert (Hpos : (0 < List.length (rows bm))%nat) by (rewrite Erows; simpl; lia).
  assert (HLpos : (0 < List.length key_caches)%nat)
    by (destruct key_caches; [contradiction | simpl; lia]).
  rewrite launch_accepted
    by (unfold MAX_GRID_X, MAX_GRID_Y, MAX_BLOCK_X, INT_MAX in *; lia).
  rewrite <- (length_map data_ptr key_caches).
  rewrite (in_copy_blocks_grid _ _ _ _ npb n);
    rewrite ?length_map; try assumption;
    [|unfold MAX_GRID_Y, INT_MAX in *; lia].
  split.
  - intros [l [p [i [Hl [Hp [Hi Ht]]]]]]. rewrite !nth_map_data_ptr in Ht.
    destruct Ht as [-> | ->].
    + exists (nth l key_caches null_tensor), p, i. repeat split; auto; try lia.
      apply in_or_app. left. now apply nth_In.
    + exists (nth l value_caches null_tensor), p, i. repeat split; auto; try lia.
      apply in_or_app. right. apply nth_In. lia.
  - intros [layer [p [i [Hl [Hp [Hi ->]]]]]]. apply in_app_or in Hl.
    destruct Hl as [Hl | Hl];
      destruct (In_nth _ _ null_tensor Hl) as [l [Hlt El]];
      exists l, p, i; rewrite !nth_map_data_ptr, El;
      repeat split; auto; lia.
Qed.



(* ================================================================== *)
(** * Precision Conversion Engine: the checks of [convert_fp8] *)
(* ================================================================== *)

Section ConvertChecks.

Variable scaled_convert :
  CType -> CType -> Fp8KVCacheDataType -> Z -> Q -> Z.
Variable double_to_float : Q -> Q.

Local Abbreviation convert_fp8 :=
  (convert_fp8 scaled_convert double_to_float).

(** The residency checks come first: when one fails, the call fails with
    its PreconditionViolation and the host state is untouched. *)
Lemma convert_fp8_rejects dst_cache src_cache kv_scale kv_cache_dtype s :
  is_cuda (device src_cache) = false \/
  is_cuda (device dst_cache) = false \/
  index (device src_cache) <> index (device dst_cache) ->
  exists msg,
    convert_fp8 dst_cache src_cache kv_scale kv_cache_dtype s
    = (Raise (PreconditionViolation msg), s).
Proof.
  intros H. unfold convert_fp8, bind, TORCH_CHECK.
  destruct (is_cuda (device src_cache)) eqn:Hs; [|eexists; reflexivity].
  unfold ret at 1.
  destruct (is_cuda (device dst_cache)) eqn:Hd; [|eexists; reflexivity].
  unfold ret at 1.
  destruct (Z.eqb_spec (index (device src_cache)) (index (device dst_cache)));
    [|eexists; reflexivity].
  destruct H as [H | [H | H]]; [discriminate | discriminate | contradiction].
Qed.

(** Past the residency checks and the reading of the source's block count
    and block stride, an unknown encoding tag is refused. *)
Lemma convert_fp8_unknown_tag dst_cache src_cache kv_scale kv_cache_dtype s :
  is_cuda (device src_cache) = true ->
  is_cuda (device dst_cache) = true ->
  index (device src_cache) = index (device dst_cache) ->
  sizes src_cache <> [] -> strides src_cache <> [] ->
  supported_encoding kv_cache_dtype = false ->
  convert_fp8 dst_cache src_cache kv_scale kv_cache_dtype s
  = (Raise (UnsupportedOperation ("Unsupported data type: " ++ kv_cache_dtype)), s).
Proof.
  intros Hs Hd Hi Hsz Hst Htag.
  unfold convert_fp8, bind, TORCH_CHECK, size, stride.
  rewrite Hs, Hd, (proj2 (Z.eqb_eq _ _) Hi). unfold ret.
  destruct (sizes src_cache) as [|nb sz]; [contradiction|].
  destruct (strides src_cache) as [|bs st]; [contradiction|]. simpl.
  unfold supported_encoding in Htag.
  apply orb_false_elim in Htag. destruct Htag as [Htag H3].
  apply orb_false_elim in Htag. destruct Htag as [H1 H2].
  rewrite H1, H2, H3. reflexivity.
Qed.

(** Whenever [convert_fp8] fails, the host state is as it was. *)
Lemma convert_fp8_raise dst_cache src_cache kv_scale kv_cache_dtype s e s' :
  convert_fp8 dst_cache src_cache kv_scale kv_cache_dtype s = (Raise e, s') ->
  s' = s.
Proof.
  unfold convert_fp8, bind, TORCH_CHECK.
  destruct (is_cuda (device src_cache)); [|intros H; now inversion H].
  unfold ret at 1.
  destruct (is_cuda (device dst_cache)); [|intros H; now inversion H].
  unfold ret at 1.
  destruct (index (device src_cache) =? index (device dst_cache));
    [|intros H; now inversion H].
  unfold ret at 1. unfold size, stride.
  destruct (nth_error (sizes src_cache) 0); [|intros H; now inversion H].
  unfold ret at 1.
  destruct (nth_error (strides src_cache) 0); [|intros H; now inversion H].
  unfold ret at 1.
  unfold CALL_CONVERT_FP8, enqueue, ret, TORCH_CHECK_unsupported, raise.
  destruct (String.eqb kv_cache_dtype "auto");
    [|destruct (String.eqb kv_cache_dtype "fp8" || String.eqb kv_cache_dtype "fp8_e4m3")];
    repeat match goal with
           | |- context [if ?b then _ else _] => destruct b
           end;
    intros H; now inversion H.
Qed.

(** C10: [convert_fp8] requires both buffers to be device-resident and on
    one device; a host-resident source or destination, or two different
    device indices, make the call fail with a PreconditionViolation before
    anything is enqueued, so before any element is written. *)
Theorem convert_fp8_residency dst_cache src_cache kv_scale kv_cache_dtype s :
  is_cuda (device src_cache) = false \/
  is_cuda (device dst_cache) = false \/
  index (device src_cache) <> index (device dst_cache) ->
  (exists msg,
     fst (convert_fp8 dst_cache src_cache kv_scale kv_cache_dtype s)
     = Raise (PreconditionViolation msg)) /\
  snd (convert_fp8 dst_cache src_cache kv_scale kv_cache_dtype s) = s /\
  forall m,
    synchronize
      (stream (snd (convert_fp8 dst_cache src_cache kv_scale kv_cache_dtype s))) m
    = synchronize (stream s) m.
Proof.
  intros H.
  destruct (convert_fp8_rejects dst_cache src_cache kv_scale kv_cache_dtype s H)
    as [msg ->].
  simpl. split; [eauto | split; reflexivity].
Qed.

(** C1, amended: on device-resident buffers of one device, with a source
    that has a leading dimension, an encoding tag other than auto, fp8 and
    fp8_e4m3 makes [convert_fp8] fail with UnsupportedOperation; and
    whenever [convert_fp8] fails, nothing has been enqueued and no
    destination element is written. *)
Theorem convert_fp8_unsupported_encoding
    dst_cache src_cache kv_scale kv_cache_dtype s :
  (is_cuda (device src_cache) = true ->
   is_cuda (device dst_cache) = true ->
   index (device src_cache) = index (device dst_cache) ->
   sizes src_cache <> [] -> strides src_cache <> [] ->
   supported_encoding kv_cache_dtype = false ->
   fst (convert_fp8 dst_cache src_cache kv_scale kv_cache_dtype s)
   = Raise (UnsupportedOperation ("Unsupported data type: " ++ kv_cache_dtype))) /\
  (forall e,
     fst (convert_fp8 dst_cache src_cache kv_scale kv_cache_dtype s) = Raise e ->
     snd (convert_fp8 dst_cache src_cache kv_scale kv_cache_dtype s) = s /\
     forall m,
       synchronize
         (stream (snd (convert_fp8 dst_cache src_cache kv_scale kv_cache_dtype s))) m
       = synchronize (stream s) m).
Proof.
  split.
  - intros Hs Hd Hi Hsz Hst Htag.
    now rewrite (convert_fp8_unknown_tag _ _ _ _ _ Hs Hd Hi Hsz Hst Htag).
  - intros e He.
    destruct (convert_fp8 dst_cache src_cache kv_scale kv_cache_dtype s)
      as [r s'] eqn:E.
    simpl in He. subst r. apply convert_fp8_raise in E. subst s'.
    split; reflexivity.
Qed.

End ConvertChecks.

Lemma convert_fp8_residency_witness :
  (exists msg,
     fst (convert_fp8 Scenario.no_fp8 Scenario.same_scale
            Scenario.narrow_tmp Scenario.host_buffer 1 "auto" Scenario.idle)
     = Raise (PreconditionViolation msg)) /\
  snd (convert_fp8 Scenario.no_fp8 Scenario.same_scale
         Scenario.narrow_tmp Scenario.host_buffer 1 "auto" Scenario.idle)
  = Scenario.idle /\
  forall m,
    synchronize
      (stream (snd (convert_fp8 Scenario.no_fp8 Scenario.same_scale
                      Scenario.narrow_tmp Scenario.host_buffer 1 "auto"
                      Scenario.idle))) m
    = synchronize (stream Scenario.idle) m.
Proof.
  apply (convert_fp8_residency Scenario.no_fp8 Scenario.same_scale
           Scenario.narrow_tmp Scenario.host_buffer 1 "auto" Scenario.idle).
  left. reflexivity.
Defined.

(** With the encoding tag auto and two integer buffers on one device, a
    pair outside the supported set, [convert_fp8] returns normally: no dtype
    test of either chain matches and no final branch raises. *)
Lemma convert_fp8_accepts_unsupported_pair :
  ~ refuses_every_unsupported_conversion Scenario.no_fp8 Scenario.same_scale.
Proof.
  intros H.
  destruct (H Scenario.int_dst Scenario.int_src 1%Q "auto" Scenario.idle eq_refl)
    as [[msg Hraise] _].
  discriminate Hraise.
Qed.

(** The same happens with a launch when the source is wide: the destination
    dtype is never looked at. *)
Example convert_fp8_same_width_launches :
  supported_conversion Float Float "auto" = false /\
  fst (convert_fp8 Scenario.no_fp8 Scenario.same_scale
         Scenario.wide_dst Scenario.wide_src 1 "auto" Scenario.idle) = Ok tt /\
  List.length (stream (snd (convert_fp8 Scenario.no_fp8 Scenario.same_scale
                 Scenario.wide_dst Scenario.wide_src 1 "auto" Scenario.idle)))
  = 1%nat.
Proof. repeat split. Qed.

Lemma convert_fp8_unsupported_encoding_witness :
  fst (convert_fp8 Scenario.no_fp8 Scenario.same_scale
         Scenario.narrow_tmp Scenario.wide_src 1 "int8" Scenario.idle)
  = Raise (UnsupportedOperation "Unsupported data type: int8") /\
  snd (convert_fp8 Scenario.no_fp8 Scenario.same_scale
         Scenario.narrow_tmp Scenario.wide_src 1 "int8" Scenario.idle)
  = Scenario.idle.
Proof.
  split.
  - apply (proj1 (convert_fp8_unsupported_encoding Scenario.no_fp8
                    Scenario.same_scale Scenario.narrow_tmp Scenario.wide_src
                    1 "int8" Scenario.idle));
      reflexivity || discriminate.
  - apply (proj2 (convert_fp8_unsupported_encoding Scenario.no_fp8
                    Scenario.same_scale Scenario.narrow_tmp Scenario.wide_src
                    1 "int8" Scenario.idle)
             (UnsupportedOperation "Unsupported data type: int8") eq_refl).
Defined.


(* ================================================================== *)
(** * Cache Scatter Engine: the host functions *)
(* ================================================================== *)

Lemma item_pure {A : Type} (m : MappingTensor A) i : pure_host (item m i).
Proof. intros s. unfold item. destruct (nth_error _ _); reflexivity. Qed.

Lemma count_tokens_pure slot_mapping num_tokens : pure_host (count_tokens slot_mapping num_tokens).
Proof.
  unfold count_tokens. apply for_each_pure. intros i acc s.
  unfold bind. pose proof (item_pure slot_mapping i s) as H.
  destruct (item slot_mapping i s) as [[a|e] s1]; simpl in *; now subst.
Qed.

Lemma count_tokens_ok slot_mapping num_tokens s :
  num_tokens <= Z.of_nat (List.length (rows slot_mapping)) ->
  exists st, count_tokens slot_mapping num_tokens s = (Ok st, s).
Proof.
  intros H. unfold count_tokens. apply for_each_ok.
  intros i acc s0 Hi. apply in_upto in Hi.
  unfold bind, item.
  destruct (nth_error (rows slot_mapping) (Z.to_nat i)) eqn:E.
  - eexists. reflexivity.
  - apply nth_error_None in E. lia.
Qed.

Lemma bind_ret {A B : Type} (a : A) (k : A -> Host B) s :
  bind (ret a) k s = k a s.
Proof. reflexivity. Qed.



(* ================================================================== *)
(** * Cache Scatter Engine: split-layout addressing *)
(* ================================================================== *)

Lemma mul_bounds a a' b b' :
  0 <= a <= a' -> 0 <= b <= b' -> 0 <= a * b <= a' * b'.
Proof.
  intros Ha Hb. split.
  - apply Z.mul_nonneg_nonneg; lia.
  - apply Z.mul_le_mono_nonneg; lia.
Qed.

(** Within the bounds of a cache whose blocks fit [int] and whose whole
    fits [int64_t], no product or sum of [tgt_key_idx] wraps around. *)
Lemma tgt_key_idx_exact H D B x nb blk bo hd ho xi xo q :
  0 < D -> 0 < B -> 0 < x <= D ->
  H * D * B <= INT_MAX -> (nb + 1) * (H * D * B) <= INT64_MAX ->
  0 <= hd < H -> 0 <= ho < D -> 0 <= xi -> xi * x <= ho -> 0 <= xo < x ->
  0 <= blk < nb -> 0 <= bo < B -> 0 <= q -> q * x <= D ->
  Z.quot D x = q ->
  tgt_key_idx H D B x blk bo hd xi xo
  = blk * H * q * B * x + hd * q * B * x + xi * B * x + bo * x + xo.
Proof.
  intros HD HB Hx HM HM64 Hh Hho Hxi Hxi' Hxo Hb Hbo Hq Hq' Eq.
  pose proof INT_MAX_lt_INT64_MAX as HMM.
  unfold tgt_key_idx. rewrite Eq. clear Eq.
  remember (H * D * B) as M eqn:EM.
  (* the factors *)
  assert (Qx : 0 <= q * x <= D).
  { pose proof (mul_bounds q q 1 x). clear - H0 Hq Hx Hq'. lia. }
  assert (Xx : 0 <= xi * x <= ho).
  { pose proof (mul_bounds xi xi 1 x). clear - H0 Hxi Hx Hxi'. lia. }
  assert (Xi : 0 <= xi <= ho).
  { pose proof (mul_bounds xi xi 1 x). clear - H0 Hxi Hx Hxi'. lia. }
  assert (Qd : 0 <= q <= D).
  { pose proof (mul_bounds q q 1 x). clear - H0 Hq Hx Hq'. lia. }
  (* M and its parts *)
  assert (DB : 1 <= D * B).
  { pose proof (mul_bounds 1 D 1 B). clear - H0 HD HB. lia. }
  assert (HDB : 0 <= (H - 1) * (D * B)).
  { apply Z.mul_nonneg_nonneg; clear - Hh DB; lia. }
  assert (EM2 : M = (H - 1) * (D * B) + D * B) by (subst M; ring).
  assert (HM0 : D * B <= M) by (clear - EM2 HDB; lia).
  assert (HMB : blk * M + 2 * M <= INT64_MAX).
  { pose proof (mul_bounds (blk + 2) (nb + 1) M M).
    replace ((blk + 2) * M) with (blk * M + 2 * M) in H0 by ring.
    clear - H0 HM64 Hb HM0 DB. lia. }
  assert (BM : 0 <= blk * M).
  { apply Z.mul_nonneg_nonneg; clear - Hb HM0 DB; lia. }
  (* the int64_t product *)
  assert (F1 : 0 <= H * q <= H * D)
    by (apply mul_bounds; clear - Hh Qd; lia).
  assert (F2 : 0 <= H * q * B <= H * D * B)
    by (apply mul_bounds; clear - F1 HB; lia).
  assert (F0 : 0 <= H <= H * D * B).
  { pose proof (mul_bounds H H 1 (D * B)).
    replace (H * (D * B)) with (H * D * B) in H0 by ring.
    clear - H0 Hh DB. lia. }
  assert (F1' : H * D <= H * D * B).
  { pose proof (mul_bounds (H * D) (H * D) 1 B). clear - H0 F1 HB. lia. }
  assert (F4 : 0 <= H * B * (q * x) <= H * D * B).
  { replace (H * D * B) with (H * B * D) by ring.
    apply mul_bounds; [|exact Qx].
    pose proof (mul_bounds H H B B). clear - H0 Hh HB. lia. }
  rewrite <- EM in F0, F1', F2, F4.
  assert (A1 : 0 <= blk * H <= blk * M)
    by (apply mul_bounds; clear - Hb F0; lia).
  assert (A2 : 0 <= blk * H * q <= blk * M).
  { replace (blk * H * q) with (blk * (H * q)) by ring.
    apply mul_bounds; clear - Hb F1 F1'; lia. }
  assert (A3 : 0 <= blk * H * q * B <= blk * M).
  { replace (blk * H * q * B) with (blk * (H * q * B)) by ring.
    apply mul_bounds; clear - Hb F2; lia. }
  assert (A4 : 0 <= blk * H * q * B * x <= blk * M).
  { replace (blk * H * q * B * x) with (blk * (H * B * (q * x))) by ring.
    apply mul_bounds; clear - Hb F4; lia. }
  (* the int products *)
  assert (G1 : 0 <= hd * q <= (H - 1) * D)
    by (apply mul_bounds; clear - Hh Qd; lia).
  assert (G2 : 0 <= hd * q * B <= (H - 1) * D * B)
    by (apply mul_bounds; clear - G1 HB; lia).
  assert (G1' : (H - 1) * D <= (H - 1) * D * B).
  { pose proof (mul_bounds ((H - 1) * D) ((H - 1) * D) 1 B).
    clear - H0 G1 HB. lia. }
  assert (G3 : 0 <= hd * q * B * x <= (H - 1) * D * B).
  { replace (hd * q * B * x) with (hd * B * (q * x)) by ring.
    replace ((H - 1) * D * B) with ((H - 1) * B * D) by ring.
    apply mul_bounds; [|exact Qx].
    apply mul_bounds; clear - Hh HB; lia. }
  replace ((H - 1) * D * B) with ((H - 1) * (D * B)) in G1', G2, G3 by ring.
  assert (K1 : 0 <= xi * B <= ho * B)
    by (apply mul_bounds; clear - Xi HB; lia).
  assert (K2 : 0 <= xi * B * x <= ho * B).
  { replace (xi * B * x) with (xi * x * B) by ring.
    apply mul_bounds; clear - Xx HB; lia. }
  assert (K0 : ho * B + B <= D * B).
  { pose proof (mul_bounds (ho + 1) D B B).
    replace ((ho + 1) * B) with (ho * B + B) in H0 by ring.
    clear - H0 Hho HB. lia. }
  assert (L1 : 0 <= bo * x /\ bo * x + x <= D * B).
  { pose proof (mul_bounds (bo + 1) B x D).
    replace ((bo + 1) * x) with (bo * x + x) in H0 by ring.
    replace (B * D) with (D * B) in H0 by ring.
    pose proof (mul_bounds bo bo x x).
    clear - H0 H1 Hbo Hx. lia. }
  clear Hq' Hxi' Qx Xx F1 F2 F4 F1' Hh Hho Hb Hbo Hq Xi Qd Hxi.
  rewrite (mul64_small blk H) by lia.
  rewrite (mul64_small (blk * H) q) by lia.
  rewrite (mul64_small (blk * H * q) B) by lia.
  rewrite (mul64_small (blk * H * q * B) x) by lia.
  rewrite (mul32_small hd q) by lia.
  rewrite (mul32_small (hd * q) B) by lia.
  rewrite (mul32_small (hd * q * B) x) by lia.
  rewrite (mul32_small xi B) by lia.
  rewrite (mul32_small (xi * B) x) by lia.
  rewrite (mul64_small bo x) by lia.
  rewrite (add64_small (blk * H * q * B * x)) by lia.
  rewrite (add64_small (_ + _) (xi * B * x)) by lia.
  rewrite (add64_small (_ + _) (bo * x)) by lia.
  rewrite add64_small by lia.
  reflexivity.
Qed.

Lemma tgt_value_idx_exact H D B nb blk bo hd ho :
  0 < D -> 0 < B ->
  H * D * B <= INT_MAX -> (nb + 1) * (H * D * B) <= INT64_MAX ->
  0 <= hd < H -> 0 <= ho < D -> 0 <= blk < nb -> 0 <= bo < B ->
  tgt_value_idx H D B blk bo hd ho
  = blk * H * D * B + hd * D * B + ho * B + bo.
Proof.
  intros HD HB HM HM64 Hh Hho Hb Hbo.
  pose proof INT_MAX_lt_INT64_MAX as HMM.
  unfold tgt_value_idx.
  remember (H * D * B) as M eqn:EM.
  assert (DB : 1 <= D * B).
  { pose proof (mul_bounds 1 D 1 B). clear - H0 HD HB. lia. }
  assert (HDB : 0 <= (H - 1) * (D * B)).
  { apply Z.mul_nonneg_nonneg; clear - Hh DB; lia. }
  assert (EM2 : M = (H - 1) * (D * B) + D * B) by (subst M; ring).
  assert (HM0 : D * B <= M) by (clear - EM2 HDB; lia).
  assert (HMB : blk * M + M <= INT64_MAX).
  { pose proof (mul_bounds (blk + 1) (nb + 1) M M).
    replace ((blk + 1) * M) with (blk * M + M) in H0 by ring.
    clear - H0 HM64 Hb HM0 DB. lia. }
  assert (F0 : 0 <= H <= M).
  { pose proof (mul_bounds H H 1 (D * B)).
    replace (H * (D * B)) with (H * D * B) in H0 by ring.
    rewrite <- EM in H0. clear - H0 Hh DB. lia. }
  assert (F1 : 0 <= H * D <= M).
  { pose proof (mul_bounds H H 1 D).
    pose proof (mul_bounds (H * D) (H * D) 1 B).
    rewrite <- EM in H1. clear - H0 H1 Hh HD HB. lia. }
  assert (A1 : 0 <= blk * H <= blk * M)
    by (apply mul_bounds; clear - Hb F0; lia).
  assert (A2 : 0 <= blk * H * D <= blk * M).
  { replace (blk * H * D) with (blk * (H * D)) by ring.
    apply mul_bounds; clear - Hb F1; lia. }
  assert (A3 : blk * H * D * B = blk * M) by (subst M; ring).
  assert (BM : 0 <= blk * M).
  { apply Z.mul_nonneg_nonneg; clear - Hb HM0 DB; lia. }
  assert (G1 : 0 <= hd * D <= (H - 1) * D)
    by (apply mul_bounds; clear - Hh HD; lia).
  assert (G2 : 0 <= hd * D * B <= (H - 1) * D * B)
    by (apply mul_bounds; clear - G1 HB; lia).
  assert (G1' : (H - 1) * D <= (H - 1) * D * B).
  { pose proof (mul_bounds ((H - 1) * D) ((H - 1) * D) 1 B).
    clear - H0 G1 HB. lia. }
  replace ((H - 1) * D * B) with ((H - 1) * (D * B)) in G1', G2 by ring.
  assert (K0 : 0 <= ho * B /\ ho * B + B <= D * B).
  { pose proof (mul_bounds (ho + 1) D B B).
    replace ((ho + 1) * B) with (ho * B + B) in H0 by ring.
    pose proof (mul_bounds ho ho B B).
    clear - H0 H1 Hho HB. lia. }
  clear Hh Hho Hb F0 F1.
  rewrite (mul64_small blk H) by lia.
  rewrite (mul64_small (blk * H) D) by lia.
  rewrite (mul64_small (blk * H * D) B) by lia.
  rewrite (mul32_small hd D) by lia.
  rewrite (mul32_small (hd * D) B) by lia.
  rewrite (mul32_small ho B) by lia.
  rewrite (add64_small (blk * H * D * B)) by lia.
  rewrite (add64_small (_ + _) (ho * B)) by lia.
  rewrite add64_small by lia.
  reflexivity.
Qed.

Section SplitAddressing.

Variables (num_heads head_size block_size x num_blocks : Z).
Hypothesis head_size_pos : 0 < head_size.
Hypothesis block_size_pos : 0 < block_size.
Hypothesis x_range : 0 < x <= head_size.
Hypothesis block_numel_int :
  num_heads * head_size * block_size <= INT_MAX.
Hypothesis cache_numel_int64 :
  (num_blocks + 1) * (num_heads * head_size * block_size) <= INT64_MAX.

Variables (slot i : Z).
Hypothesis slot_range : 0 <= slot < num_blocks * block_size.
Hypothesis channel_range : 0 <= i < num_heads * head_size.

Lemma split_ranges :
  0 <= i / head_size < num_heads /\ 0 <= i mod head_size < head_size /\
  0 <= i mod head_size / x /\ i mod head_size / x * x <= i mod head_size /\
  0 <= (i mod head_size) mod x < x /\
  0 <= slot / block_size < num_blocks /\ 0 <= slot mod block_size < block_size /\
  0 <= head_size / x /\ head_size / x * x <= head_size.
Proof.
  pose proof (Z.mod_pos_bound i head_size head_size_pos).
  pose proof (Z.div_mod i head_size ltac:(lia)).
  pose proof (Z.mod_pos_bound (i mod head_size) x ltac:(lia)).
  pose proof (Z.div_mod (i mod head_size) x ltac:(lia)).
  pose proof (Z.mod_pos_bound slot block_size block_size_pos).
  pose proof (Z.div_mod slot block_size ltac:(lia)).
  pose proof (Z.mod_pos_bound head_size x ltac:(lia)).
  pose proof (Z.div_mod head_size x ltac:(lia)).
  assert (0 <= i / head_size) by (apply Z.div_pos; lia).
  assert (0 <= i mod head_size / x) by (apply Z.div_pos; lia).
  assert (0 <= slot / block_size) by (apply Z.div_pos; lia).
  assert (0 <= head_size / x) by (apply Z.div_pos; lia).
  assert (i / head_size < num_heads) by (apply Z.div_lt_upper_bound; lia).
  assert (slot / block_size < num_blocks) by (apply Z.div_lt_upper_bound; lia).
  repeat split; lia.
Qed.

(** The machine quantities of the kernel are the mathematical ones. *)
Lemma split_decomposition :
  Z.quot i head_size = i / head_size /\
  Z.rem i head_size = i mod head_size /\
  Z.quot (Z.rem i head_size) x = i mod head_size / x /\
  Z.rem (Z.rem i head_size) x = (i mod head_size) mod x /\
  block_idx_of slot block_size = slot / block_size /\
  block_offset_of slot block_size = slot mod block_size /\
  Z.quot head_size x = head_size / x.
Proof.
  destruct split_ranges as (Hh & Hho & Hxi & Hxi' & Hxo & Hb & Hbo & Hq & Hq').
  pose proof INT_MAX_lt_INT64_MAX.
  assert (E1 : Z.rem i head_size = i mod head_size)
    by (apply Z.rem_mod_nonneg; lia).
  unfold block_idx_of, block_offset_of.
  rewrite E1, !Z.quot_div_nonneg, !Z.rem_mod_nonneg by lia.
  assert (Hbs : block_size <= num_heads * head_size * block_size).
  { pose proof (mul_bounds 1 (num_heads * head_size) block_size block_size).
    lia. }
  assert (Hs : slot <= INT64_MAX).
  { pose proof (mul_bounds num_blocks num_blocks block_size
                  (num_heads * head_size * block_size)).
    lia. }
  assert (Hd : slot / block_size <= slot).
  { apply Z.div_le_upper_bound; [lia|].
    pose proof (mul_bounds 1 block_size slot slot). lia. }
  rewrite !int64_t_small by (unfold INT64_MAX, INT_MAX in *; lia).
  repeat split; reflexivity.
Qed.

Lemma tgt_key_idx_spec :
  tgt_key_idx num_heads head_size block_size x
    (block_idx_of slot block_size) (block_offset_of slot block_size)
    (Z.quot i head_size) (Z.quot (Z.rem i head_size) x)
    (Z.rem (Z.rem i head_size) x)
  = spec_key_offset num_heads head_size block_size x slot i.
Proof.
  destruct split_decomposition as (-> & -> & -> & -> & -> & -> & Eq).
  destruct split_ranges as (Hh & Hho & Hxi & Hxi' & Hxo & Hb & Hbo & Hq & Hq').
  unfold spec_key_offset.
  apply (tgt_key_idx_exact _ _ _ _ num_blocks _ _ _ (i mod head_size));
    assumption.
Qed.

Lemma tgt_value_idx_spec :
  tgt_value_idx num_heads head_size block_size
    (block_idx_of slot block_size) (block_offset_of slot block_size)
    (Z.quot i head_size) (Z.rem i head_size)
  = spec_value_offset num_heads head_size block_size slot i.
Proof.
  destruct split_decomposition as (-> & -> & _ & _ & -> & -> & _).
  destruct split_ranges as (Hh & Hho & Hxi & Hxi' & Hxo & Hb & Hbo & Hq & Hq').
  unfold spec_value_offset.
  apply (tgt_value_idx_exact _ _ _ num_blocks); assumption.
Qed.

End SplitAddressing.

(* ================================================================== *)
(** * Cache Scatter Engine: the split-layout kernel *)
(* ================================================================== *)

Section SplitKernel.

Variable scaled_convert :
  CType -> CType -> Fp8KVCacheDataType -> Z -> Q -> Z.

Variables (scalar_t cache_t : CType) (kv_dt : Fp8KVCacheDataType).
Variables (key value key_cache value_cache : Pointer) (slot_mapping : list Z).
Variables (key_stride value_stride num_heads head_size block_size x : Z).
Variable kv_scale : Q.

Local Abbreviation kernel :=
  (reshape_and_cache_kernel scaled_convert scalar_t cache_t kv_dt
     key value key_cache value_cache slot_mapping
     key_stride value_stride num_heads head_size block_size x kv_scale).

Local Abbreviation conv :=
  (match kv_dt with
   | kAuto => fun v : Z => v
   | _ => fun v : Z =>
            scaled_convert cache_t scalar_t kv_dt v kv_scale
   end).

(** A token whose slot is negative is skipped by every thread of its
    block. *)
Lemma reshape_and_cache_kernel_skips token ty tx bd :
  nth (Z.to_nat token) slot_mapping 0 < 0 -> kernel token ty tx bd = [].
Proof.
  intros H. unfold reshape_and_cache_kernel.
  destruct (Z.ltb_spec (nth (Z.to_nat token) slot_mapping 0) 0); [reflexivity | lia].
Qed.

(** The transfers of the block of a token with a valid slot: two per
    channel, at the indices the kernel computes. *)
Lemma in_reshape_and_cache_block token ty bd tr :
  0 <= nth (Z.to_nat token) slot_mapping 0 ->
  0 <= num_heads * head_size -> 0 < bd ->
  num_heads * head_size + bd <= INT_MAX ->
  let slot := nth (Z.to_nat token) slot_mapping 0 in
  In tr (flat_map (fun tx => kernel token ty tx bd) (upto bd)) <->
  exists i, 0 <= i < num_heads * head_size /\
    (tr = mkTransfer
            (key_cache,
             tgt_key_idx num_heads head_size block_size x
               (block_idx_of slot block_size) (block_offset_of slot block_size)
               (Z.quot i head_size) (Z.quot (Z.rem i head_size) x)
               (Z.rem (Z.rem i head_size) x))
            (key, add64 (mul64 token key_stride) i) conv \/
     tr = mkTransfer
            (value_cache,
             tgt_value_idx num_heads head_size block_size
               (block_idx_of slot block_size) (block_offset_of slot block_size)
               (Z.quot i head_size) (Z.rem i head_size))
            (value, add64 (mul64 token value_stride) i) conv).
Proof.
  intros Hslot Hn Hbd Hmax slot.
  unfold reshape_and_cache_kernel. fold slot.
  destruct (Z.ltb_spec slot 0) as [|_]; [unfold slot in *; lia|].
  rewrite (mul32_small num_heads head_size) by lia.
  rewrite block_loop_in by assumption.
  split; intros [i [Hi H]]; exists i; (split; [exact Hi|]).
  - destruct H as [<- | [<- | []]]; auto.
  - destruct H as [-> | ->]; simpl; auto.
Qed.


End SplitKernel.

(** The scenario of the specification, computed: 3 tokens with slots 5, -1
    and 20, 2 heads of size 4, blocks of 16 slots and x = 2.  Token 0 fills
    block 0 at offset 5, token 1 writes nothing and token 2 fills block 1 at
    offset 4; each line lists (destination cell, source cell). *)
Example reshape_and_cache_scenario :
  map (fun t => (address (fst (t_dst t)), snd (t_dst t),
                 (address (fst (t_src t)), snd (t_src t))))
    (launch 3 1 8
       (reshape_and_cache_kernel Scenario.no_fp8 c_uint16_t c_uint16_t kAuto
          (pointer_to c_uint16_t 1000) (pointer_to c_uint16_t 2000)
          (pointer_to c_uint16_t 3000) (pointer_to c_uint16_t 4000)
          [5; -1; 20] 8 8 2 4 16 2 1))
  = [ (3000, 10, (1000, 0)); (4000, 5, (2000, 0));
      (3000, 11, (1000, 1)); (4000, 21, (2000, 1));
      (3000, 42, (1000, 2)); (4000, 37, (2000, 2));
      (3000, 43, (1000, 3)); (4000, 53, (2000, 3));
      (3000, 74, (1000, 4)); (4000, 69, (2000, 4));
      (3000, 75, (1000, 5)); (4000, 85, (2000, 5));
      (3000, 106, (1000, 6)); (4000, 101, (2000, 6));
      (3000, 107, (1000, 7)); (4000, 117, (2000, 7));
      (3000, 136, (1000, 16)); (4000, 132, (2000, 16));
      (3000, 137, (1000, 17)); (4000, 148, (2000, 17));
      (3000, 168, (1000, 18)); (4000, 164, (2000, 18));
      (3000, 169, (1000, 19)); (4000, 180, (2000, 19));
      (3000, 200, (1000, 20)); (4000, 196, (2000, 20));
      (3000, 201, (1000, 21)); (4000, 212, (2000, 21));
      (3000, 232, (1000, 22)); (4000, 228, (2000, 22));
      (3000, 233, (1000, 23)); (4000, 244, (2000, 23)) ].
Proof. vm_compute. reflexivity. Qed.


(* ================================================================== *)
(** * Cache Scatter Engine: padding tokens *)
(* ================================================================== *)

Lemma no_element_nil {A : Type} (l : list A) : (forall a, ~ In a l) -> l = [].
Proof.
  destruct l as [|a l]; [reflexivity|]. intros H. destruct (H a). now left.
Qed.

(** A launch in which every block of an accepted grid does nothing does
    nothing. *)
Lemma launch_idle gx gy bx (k : Kernel) :
  (forall x y tx, 0 <= x < gx -> gx <= MAX_GRID_X -> k x y tx bx = []) ->
  launch gx gy bx k = [].
Proof.
  intros H. unfold launch.
  destruct (launch_config_ok gx gy bx) eqn:Eok; [|reflexivity].
  assert (Hgx : gx <= MAX_GRID_X).
  { unfold launch_config_ok in Eok.
    destruct (Z.leb_spec gx MAX_GRID_X); [assumption|].
    rewrite andb_false_r in Eok. discriminate Eok. }
  apply no_element_nil. intros t Ht.
  apply in_grid_threads in Ht. destruct Ht as [x [y [Hx [_ Ht]]]].
  apply in_flat_map in Ht. destruct Ht as [tx [_ Ht]].
  rewrite (H x y tx Hx Hgx) in Ht. exact Ht.
Qed.

Lemma int_range z : - 2 ^ 31 <= int z < 2 ^ 31.
Proof.
  unfold int, wrap_signed. change (2 ^ (32 - 1)) with (2 ^ 31).
  pose proof (Z.mod_pos_bound (z + 2 ^ 31) (2 ^ 32) ltac:(lia)). lia.
Qed.

(** The grid of a launch whose token count is negative at type [int] is
    beyond what a launch accepts. *)
Lemma token_grid_bound n x :
  0 <= x < unsigned_int (int n) -> unsigned_int (int n) <= MAX_GRID_X ->
  0 <= x < int n.
Proof.
  intros Hx Hmax. pose proof (int_range n) as Hr.
  destruct (Z.lt_ge_cases (int n) 0) as [Hneg | Hpos].
  - exfalso. unfold unsigned_int, MAX_GRID_X in *.
    replace (int n) with (int n + 2 ^ 32 - 1 * 2 ^ 32) in Hmax by ring.
    rewrite Zminus_mod, Z_mod_mult, Z.sub_0_r, Z.mod_mod in Hmax by lia.
    rewrite Z.mod_small in Hmax by lia. lia.
  - rewrite unsigned_int_small in Hx by (unfold INT_MAX; lia). exact Hx.
Qed.

Lemma reshape_and_cache_flash_kernel_skips
    key value k_cache v_cache slot_mapping block_stride key_stride value_stride
    num_heads head_size block_size token ty tx bd :
  nth (Z.to_nat token) slot_mapping 0 < 0 ->
  reshape_and_cache_flash_kernel key value k_cache v_cache slot_mapping
    block_stride key_stride value_stride num_heads head_size block_size
    token ty tx bd = [].
Proof.
  intros H. unfold reshape_and_cache_flash_kernel.
  destruct (Z.ltb_spec (nth (Z.to_nat token) slot_mapping 0) 0); [reflexivity | lia].
Qed.

(** A successful count has read one entry per token. *)
Lemma for_each_item_ok (slot_mapping : MappingTensor Z)
    (f : Z -> Z * Z -> Z * Z) (l : list Z) : forall acc s st s',
  for_each l (fun i acc => slot_idx <- item slot_mapping i ;; ret (f slot_idx acc))
    acc s = (Ok st, s') ->
  forall i, In i l -> (Z.to_nat i < List.length (rows slot_mapping))%nat.
Proof.
  induction l as [|a l IH]; intros acc s st s' H i Hi; [destruct Hi|].
  simpl in H. unfold bind at 1 in H. unfold bind at 1 in H. unfold item at 1 in H.
  destruct (nth_error (rows slot_mapping) (Z.to_nat a)) eqn:E.
  - destruct Hi as [<- | Hi].
    + apply nth_error_Some. congruence.
    + unfold ret at 1 2 in H. eapply IH; eauto.
  - discriminate H.
Qed.

Lemma count_tokens_ok_length slot_mapping num_tokens s st s' :
  count_tokens slot_mapping num_tokens s = (Ok st, s') ->
  num_tokens <= Z.of_nat (List.length (rows slot_mapping)).
Proof.
  intros H. destruct (Z.le_gt_cases num_tokens 0) as [|Hpos]; [lia|].
  unfold count_tokens in H.
  pose proof (for_each_item_ok slot_mapping
                (fun slot_idx acc => if slot_idx <? 0 then (add64 (fst acc) 1, snd acc)
                                     else (fst acc, add64 (snd acc) 1))
                (upto num_tokens) _ _ _ _ H (num_tokens - 1)) as Hi.
  specialize (Hi ltac:(apply in_upto; lia)). lia.
Qed.

Lemma all_negative_nth (slots : list Z) (x : Z) :
  Forall (fun slot => slot < 0) slots ->
  0 <= x < Z.of_nat (List.length slots) ->
  nth (Z.to_nat x) slots 0 < 0.
Proof.
  intros Hall Hx. rewrite Forall_forall in Hall. apply Hall.
  apply nth_In. lia.
Qed.

(** Sequencing preserves "whatever has been enqueued writes nothing" when
    the first computation enqueues nothing. *)
Lemma bind_quiet {A B : Type} (h : Host A) (k : A -> Host B) s :
  stream (snd (h s)) = stream s ->
  (forall a s1, h s = (Ok a, s1) ->
     exists ops, stream (snd (k a s1)) = stream s1 ++ ops /\
                 flat_map op_transfers ops = []) ->
  exists ops, stream (snd (bind h k s)) = stream s ++ ops /\
              flat_map op_transfers ops = [].
Proof.
  intros Hs Hk. unfold bind. destruct (h s) as [[a|e] s1] eqn:E.
  - destruct (Hk a s1 eq_refl) as [ops [E1 E2]]. exists ops.
    simpl in Hs. rewrite <- Hs. auto.
  - exists []. simpl in *. rewrite app_nil_r. auto.
Qed.

Lemma size_stream t d s : stream (snd (size t d s)) = stream s.
Proof. destruct (size_cases t d s) as [[n [_ ->]] | [_ ->]]; reflexivity. Qed.

Lemma stride_stream t d s : stream (snd (stride t d s)) = stream s.
Proof. destruct (stride_cases t d s) as [[n [_ ->]] | [_ ->]]; reflexivity. Qed.

Lemma count_tokens_stream slot_mapping n s :
  stream (snd (count_tokens slot_mapping n s)) = stream s.
Proof. now rewrite count_tokens_pure. Qed.

Lemma TORCH_CHECK_stream c msg s : stream (snd (TORCH_CHECK c msg s)) = stream s.
Proof. unfold TORCH_CHECK. destruct c; reflexivity. Qed.

Lemma data_ptr_as_stream scalar_t t s :
  stream (snd (data_ptr_as scalar_t t s)) = stream s.
Proof.
  unfold data_ptr_as, bind, TORCH_CHECK. destruct (ScalarType_eqb _ _); reflexivity.
Qed.

Lemma raise_quiet {A : Type} (e : Failure) s :
  exists ops, stream (snd (@raise A e s)) = stream s ++ ops /\
              flat_map op_transfers ops = [].
Proof. exists []. simpl. now rewrite app_nil_r. Qed.

Ltac quiet_step :=
  apply bind_quiet;
  [ first [ apply size_stream | apply stride_stream | apply count_tokens_stream
          | apply TORCH_CHECK_stream | apply data_ptr_as_stream | reflexivity ]
  | ].

Section Padding.

Variable scaled_convert : CType -> CType -> Fp8KVCacheDataType -> Z -> Q -> Z.
Variable DISPATCH_BY_KV_CACHE_DTYPE :
  ScalarType -> string -> Result (CType * CType * Fp8KVCacheDataType).
Variable double_to_float : Q -> Q.

Local Abbreviation reshape_and_cache :=
  (reshape_and_cache scaled_convert DISPATCH_BY_KV_CACHE_DTYPE
     double_to_float).

(** With only padding tokens, whatever [reshape_and_cache] enqueues writes
    no cell. *)
Lemma reshape_and_cache_padding key value key_cache value_cache slot_mapping
    kv_cache_dtype kv_scale s :
  Forall (fun slot => slot < 0) (rows slot_mapping) ->
  exists ops,
    stream (snd (reshape_and_cache key value key_cache value_cache slot_mapping
                   kv_cache_dtype kv_scale s)) = stream s ++ ops /\
    flat_map op_transfers ops = [].
Proof.
  intros Hneg. unfold reshape_and_cache.
  quiet_step. intros [] s0 _.
  quiet_step. intros n0 s1 _.
  quiet_step. intros n1 s2 _.
  quiet_step. intros n2 s3 _.
  quiet_step. intros n3 s4 _.
  quiet_step. intros n4 s5 _.
  quiet_step. intros k0 s6 _.
  quiet_step. intros v0 s7 _.
  quiet_step. intros st s8 Ecount. apply count_tokens_ok_length in Ecount.
  quiet_step. intros [] s9 _.
  quiet_step. intros [] s10 _.
  destruct (DISPATCH_BY_KV_CACHE_DTYPE (dtype key) kv_cache_dtype)
    as [[[KV_T CACHE_T] KV_DTYPE] | e]; [|apply raise_quiet].
  unfold enqueue. simpl. eexists. split; [reflexivity|].
  simpl. rewrite app_nil_r. apply launch_idle.
  intros x0 y tx Hx Hmax. apply reshape_and_cache_kernel_skips.
  apply all_negative_nth; [exact Hneg|].
  pose proof (token_grid_bound _ _ Hx Hmax). lia.
Qed.

Lemma reshape_and_cache_flash_padding key value k_cache v_cache slot_mapping
    kv_cache_dtype s :
  Forall (fun slot => slot < 0) (rows slot_mapping) ->
  exists ops,
    stream (snd (reshape_and_cache_flash key value k_cache v_cache slot_mapping
                   kv_cache_dtype s)) = stream s ++ ops /\
    flat_map op_transfers ops = [].
Proof.
  intros Hneg. unfold reshape_and_cache_flash.
  quiet_step. intros [] s0 _.
  apply bind_quiet.
  { destruct (negb (String.eqb kv_cache_dtype "auto")); reflexivity. }
  intros [] s0' _.
  quiet_step. intros n0 s1 _.
  quiet_step. intros n1 s2 _.
  quiet_step. intros n2 s3 _.
  quiet_step. intros n3 s4 _.
  quiet_step. intros k0 s5 _.
  quiet_step. intros v0 s6 _.
  quiet_step. intros b0 s7 _.
  quiet_step. intros ks s8 _.
  quiet_step. intros vs s9 _.
  quiet_step. intros [] s10 _.
  quiet_step. intros st s11 Ecount. apply count_tokens_ok_length in Ecount.
  quiet_step. intros [] s12 _.
  quiet_step. intros [] s13 _.
  destruct (VLLM_DISPATCH_FLOATING_TYPES (dtype key)); [|apply raise_quiet].
  quiet_step. intros kp s14 _.
  quiet_step. intros vp s15 _.
  quiet_step. intros kcp s16 _.
  quiet_step. intros vcp s17 _.
  unfold enqueue. simpl. eexists. split; [reflexivity|].
  simpl. rewrite app_nil_r. apply launch_idle.
  intros x0 y tx Hx Hmax. apply reshape_and_cache_flash_kernel_skips.
  apply all_negative_nth; [exact Hneg|].
  pose proof (token_grid_bound _ _ Hx Hmax). lia.
Qed.

(** C5: a token whose slot is negative is skipped by both scatter kernels:
    no thread of its block writes anything (and a kernel thread has no
    failure to report); hence with a slot mapping that holds only negative
    entries, whatever [reshape_and_cache] and [reshape_and_cache_flash]
    enqueue leaves every byte of memory, so the key and value caches,
    unchanged. *)
Theorem negative_slots_are_skipped :
  (forall scalar_t cache_t kv_dt key value key_cache value_cache
          (slot_mapping : list Z) block_stride key_stride value_stride
          num_heads head_size block_size x kv_scale token ty tx bd,
     nth (Z.to_nat token) slot_mapping 0 < 0 ->
     reshape_and_cache_kernel scaled_convert scalar_t cache_t kv_dt
       key value key_cache value_cache slot_mapping key_stride value_stride
       num_heads head_size block_size x kv_scale token ty tx bd = [] /\
     reshape_and_cache_flash_kernel key value key_cache value_cache slot_mapping
       block_stride key_stride value_stride num_heads head_size block_size
       token ty tx bd = []) /\
  (forall key value key_cache value_cache (slot_mapping : MappingTensor Z)
          kv_cache_dtype kv_scale s m,
     Forall (fun slot => slot < 0) (rows slot_mapping) ->
     (exists ops,
        stream (snd (reshape_and_cache key value key_cache value_cache
                       slot_mapping kv_cache_dtype kv_scale s))
        = stream s ++ ops /\
        synchronize ops m = m) /\
     (exists ops,
        stream (snd (reshape_and_cache_flash key value key_cache value_cache
                       slot_mapping kv_cache_dtype s))
        = stream s ++ ops /\
        synchronize ops m = m)).
Proof.
  split.
  - intros. split.
    + now apply reshape_and_cache_kernel_skips.
    + now apply reshape_and_cache_flash_kernel_skips.
  - intros key value key_cache value_cache slot_mapping kv_cache_dtype kv_scale
      s m Hneg.
    split.
    + destruct (reshape_and_cache_padding key value key_cache value_cache
                  slot_mapping kv_cache_dtype kv_scale s Hneg)
        as [ops [E Hnil]].
      exists ops. split; [exact E|]. unfold synchronize. now rewrite Hnil.
    + destruct (reshape_and_cache_flash_padding key value key_cache value_cache
                  slot_mapping kv_cache_dtype s Hneg) as [ops [E Hnil]].
      exists ops. split; [exact E|]. unfold synchronize. now rewrite Hnil.
Qed.

End Padding.

Lemma negative_slots_are_skipped_witness :
  (reshape_and_cache_kernel Scenario.no_fp8 c_uint16_t c_uint16_t kAuto
     (pointer_to c_uint16_t 1000) (pointer_to c_uint16_t 2000)
     (pointer_to c_uint16_t 3000) (pointer_to c_uint16_t 4000)
     [5; -1; 20] 8 8 2 4 16 2 1 1 0 3 8 = [] /\
   reshape_and_cache_flash_kernel
     (pointer_to c_uint16_t 1000) (pointer_to c_uint16_t 2000)
     (pointer_to c_uint16_t 3000) (pointer_to c_uint16_t 4000) [5; -1; 20]
     128 8 8 2 4 16 1 0 3 8 = []) /\
  (exists ops,
     stream (snd (reshape_and_cache Scenario.no_fp8 Scenario.dispatch_direct
                    Scenario.same_scale
                    Scenario.tokens_key Scenario.tokens_value
                    Scenario.split_key_cache Scenario.split_value_cache
                    Scenario.padding_only "auto" 1 Scenario.idle))
     = stream Scenario.idle ++ ops /\
     synchronize ops Scenario.numbered = Scenario.numbered) /\
  (exists ops,
     stream (snd (reshape_and_cache_flash
                    Scenario.tokens_key Scenario.tokens_value
                    Scenario.split_key_cache Scenario.split_value_cache
                    Scenario.padding_only "auto" Scenario.idle))
     = stream Scenario.idle ++ ops /\
     synchronize ops Scenario.numbered = Scenario.numbered).
Proof.
  split.
  - apply (proj1 (negative_slots_are_skipped Scenario.no_fp8
                    Scenario.dispatch_direct Scenario.same_scale)).
    simpl. lia.
  - apply (proj2 (negative_slots_are_skipped Scenario.no_fp8
                    Scenario.dispatch_direct Scenario.same_scale)).
    repeat constructor.
Defined.

(* ================================================================== *)
(** * Block Transfer Engine: further properties *)
(* ================================================================== *)

(** The bytes the copies of [swap_blocks] read and write lie inside the
    buffers, for blocks that fit them. *)
Lemma swap_cells_inside src dst B pairs p k :
  blocks_inside B (nbytes src) (nbytes dst) pairs ->
  In p pairs -> 0 <= k < B ->
  cell_in (char_ptr (data_ptr src + fst p * B), k) (buffer src) /\
  cell_in (char_ptr (data_ptr dst + snd p * B), k) (buffer dst).
Proof.
  intros Hrange Hp Hk. destruct (Hrange p Hp) as (H1 & H2 & H3 & H4).
  unfold cell_in, buffer. simpl.
  destruct (swap_cell_address (data_ptr dst) B (snd p) k) as [-> ->].
  destruct (swap_cell_address (data_ptr src) B (fst p) k) as [-> ->].
  assert (0 <= snd p * B) by nia. assert (0 <= fst p * B) by nia. lia.
Qed.

(** X1: [swap_blocks] changes nothing but the destination blocks that its
    mapping names: every cell of memory that meets no byte of these blocks,
    inside or outside the two buffers, is after synchronization as it was
    before the call. *)
Theorem swap_blocks_frame (src dst : Tensor)
    (block_mapping : MappingTensor (Z * Z)) (s : HostState) (m : Memory)
    (kind : cudaMemcpyKind) (n : Z) (rest : list Z) :
  let block_size_in_bytes := element_size src * prod rest in
  swap_direction (device src) (device dst) kind ->
  is_cpu (map_device block_mapping) = true ->
  sizes src = n :: rest -> 0 < n -> 0 < prod rest ->
  nbytes src <= INT64_MAX -> nbytes dst <= INT64_MAX ->
  blocks_inside block_size_in_bytes (nbytes src) (nbytes dst)
    (rows block_mapping) ->
  exists ops,
    fst (swap_blocks src dst block_mapping s) = Ok tt /\
    stream (snd (swap_blocks src dst block_mapping s)) = stream s ++ ops /\
    forall c,
      (forall p k, In p (rows block_mapping) -> 0 <= k < block_size_in_bytes ->
         ~ overlap (block_byte (data_ptr dst) block_size_in_bytes (snd p) k) c) ->
      load (synchronize ops m) c = load m c.
Proof.
  intros B Hdir Hmap Hsz Hn Hrest Hsb Hdb Hrange.
  destruct (swap_blocks_ops src dst block_mapping s kind n rest
              Hdir Hmap Hsz Hn Hrest Hsb Hdb Hrange) as (HB & [out E] & Hin).
  fold B in E, Hin. eexists. rewrite E. simpl.
  split; [reflexivity|]. split; [reflexivity|].
  intros c Hc. unfold synchronize. apply run_frame.
  intros t Ht. apply (Hin (rows block_mapping) t (incl_refl _)) in Ht.
  destruct Ht as [p [k [Hp [Hk ->]]]]. simpl. intros Ov.
  apply (Hc p k Hp Hk). unfold overlap in *.
  destruct (swap_cell_address (data_ptr dst) B (snd p) k) as [A1 S1].
  destruct (block_byte_address (data_ptr dst) B (snd p) k) as [A2 S2].
  rewrite A1, S1 in Ov. rewrite A2, S2. exact Ov.
Qed.

(** X2: The copies of [swap_blocks] are enqueued in mapping order on one
    stream, so when several pairs name one destination block the last of
    them wins: between buffers that do not overlap, the block ends up equal
    to the source block of the last pair that names it. *)
Theorem swap_blocks_last_write_wins (src dst : Tensor)
    (block_mapping : MappingTensor (Z * Z)) (s : HostState) (m : Memory)
    (kind : cudaMemcpyKind) (n : Z) (rest : list Z)
    (earlier later : list (Z * Z)) (p : Z * Z) :
  let block_size_in_bytes := element_size src * prod rest in
  swap_direction (device src) (device dst) kind ->
  is_cpu (map_device block_mapping) = true ->
  sizes src = n :: rest -> 0 < n -> 0 < prod rest ->
  nbytes src <= INT64_MAX -> nbytes dst <= INT64_MAX ->
  blocks_inside block_size_in_bytes (nbytes src) (nbytes dst)
    (rows block_mapping) ->
  disjoint (buffer src) (buffer dst) ->
  rows block_mapping = earlier ++ p :: later ->
  (forall q, In q later -> snd q <> snd p) ->
  exists ops,
    fst (swap_blocks src dst block_mapping s) = Ok tt /\
    stream (snd (swap_blocks src dst block_mapping s)) = stream s ++ ops /\
    forall k, 0 <= k < block_size_in_bytes ->
      load (synchronize ops m)
        (block_byte (data_ptr dst) block_size_in_bytes (snd p) k)
      = load m (block_byte (data_ptr src) block_size_in_bytes (fst p) k).
Proof.
  intros B Hdir Hmap Hsz Hn Hrest Hsb Hdb Hrange Hsep Hrows Hlast.
  destruct (swap_blocks_ops src dst block_mapping s kind n rest
              Hdir Hmap Hsz Hn Hrest Hsb Hdb Hrange) as (HB & [out E] & Hin).
  fold B in E, Hin. eexists. rewrite E. simpl.
  split; [reflexivity|]. split; [reflexivity|].
  intros k Hk. unfold synchronize. rewrite Hrows.
  change (p :: later) with ([p] ++ later).
  rewrite !swap_copies_app, !flat_map_app, !run_app.
  assert (I1 : incl earlier (rows block_mapping))
    by (rewrite Hrows; apply incl_appl, incl_refl).
  assert (I2 : incl [p] (rows block_mapping)).
  { rewrite Hrows. intros q [<- | []]. apply in_or_app. right. now left. }
  assert (I3 : incl later (rows block_mapping)).
  { rewrite Hrows. intros q Hq. apply in_or_app. right. now right. }
  assert (Hp : In p (rows block_mapping)) by (apply I2; now left).
  rewrite <- (load_same_bytes _ _ _ (swap_cell_bytes (data_ptr dst) B (snd p) k)).
  rewrite <- (load_same_bytes _ _ _ (swap_cell_bytes (data_ptr src) B (fst p) k)).
  (* the later copies leave the block alone *)
  rewrite run_frame.
  2:{ intros t Ht. apply (Hin later t I3) in Ht.
      destruct Ht as [q [j [Hq [Hj ->]]]]. simpl. intros Ov.
      unfold overlap in Ov.
      destruct (swap_cell_address (data_ptr dst) B (snd q) j) as [A1 S1].
      destruct (swap_cell_address (data_ptr dst) B (snd p) k) as [A2 S2].
      rewrite A1, A2, S1, S2 in Ov.
      assert (E' : snd q * B + j = snd p * B + k) by lia.
      destruct (block_offset_unique B _ _ _ _ Hj Hk E') as [Eb _].
      exact (Hlast q Hq Eb). }
  (* the copy of the pair itself *)
  set (m1 := run (flat_map op_transfers
                    (swap_copies (data_ptr src) (data_ptr dst) B kind earlier)) m).
  assert (Ht : In (copy_cell (char_ptr (data_ptr dst + snd p * B), k)
                             (char_ptr (data_ptr src + fst p * B), k))
                  (flat_map op_transfers
                     (swap_copies (data_ptr src) (data_ptr dst) B kind [p]))).
  { apply (Hin [p] _ I2). exists p, k.
    split; [now left | split; [exact Hk | reflexivity]]. }
  apply (run_written _ m1) in Ht.
  - simpl t_dst in Ht. rewrite Ht.
    rewrite stored_copy by (first [reflexivity | unfold cell_size; simpl; lia]).
    (* the earlier copies leave the source alone *)
    unfold m1. apply run_frame. intros t Ht'. apply (Hin earlier t I1) in Ht'.
    destruct Ht' as [q [j [Hq [Hj ->]]]]. simpl.
    apply (disjoint_no_overlap _ _ (buffer dst) (buffer src));
      [ apply (swap_cells_inside src dst B (rows block_mapping) q j Hrange
                 (I1 q Hq) Hj)
      | apply (swap_cells_inside src dst B (rows block_mapping) p k Hrange Hp Hk)
      | now apply disjoint_sym ].
  - intros t u Hu Hv. apply (Hin [p] t I2) in Hu. apply (Hin [p] u I2) in Hv.
    destruct Hu as [q1 [k1 [[<- | []] [Hk1 ->]]]].
    destruct Hv as [q2 [k2 [[<- | []] [Hk2 ->]]]].
    simpl.
    apply (disjoint_no_overlap _ _ (buffer dst) (buffer src));
      [ apply (swap_cells_inside src dst B (rows block_mapping) p k1 Hrange Hp Hk1)
      | apply (swap_cells_inside src dst B (rows block_mapping) p k2 Hrange Hp Hk2)
      | now apply disjoint_sym ].
  - intros t u Hu Hv. apply (Hin [p] t I2) in Hu. apply (Hin [p] u I2) in Hv.
    destruct Hu as [q1 [k1 [[<- | []] [Hk1 ->]]]].
    destruct Hv as [q2 [k2 [[<- | []] [Hk2 ->]]]].
    simpl. intros Ov. unfold overlap in Ov.
    destruct (swap_cell_address (data_ptr dst) B (snd p) k1) as [A1 S1].
    destruct (swap_cell_address (data_ptr dst) B (snd p) k2) as [A2 S2].
    rewrite A1, A2, S1, S2 in Ov.
    assert (k1 = k2) by lia. subst. split; [split|]; reflexivity.
  - simpl. unfold cell_size. simpl. lia.
Qed.

Lemma swap_blocks_frame_witness :
  exists ops,
    fst (swap_blocks Scenario.device_buffer Scenario.host_buffer
           Cases.contended_mapping Scenario.idle) = Ok tt /\
    stream (snd (swap_blocks Scenario.device_buffer Scenario.host_buffer
                   Cases.contended_mapping Scenario.idle)) = [] ++ ops /\
    forall c,
      (forall p k, In p [(0, 3); (1, 3); (2, 4)] -> 0 <= k < 8 ->
         ~ overlap (block_byte 12288 8 (snd p) k) c) ->
      load (synchronize ops Scenario.numbered) c = load Scenario.numbered c.
Proof.
  apply (swap_blocks_frame Scenario.device_buffer Scenario.host_buffer
           Cases.contended_mapping Scenario.idle Scenario.numbered
           cudaMemcpyDeviceToHost 8 [4]).
  - right; left. repeat split.
  - reflexivity.
  - reflexivity.
  - lia.
  - simpl. lia.
  - vm_compute. discriminate.
  - vm_compute. discriminate.
  - intros p [<- | [<- | [<- | []]]]; vm_compute; repeat split; discriminate.
Defined.

Lemma swap_blocks_last_write_wins_witness :
  exists ops,
    fst (swap_blocks Scenario.device_buffer Scenario.host_buffer
           Cases.contended_mapping Scenario.idle) = Ok tt /\
    stream (snd (swap_blocks Scenario.device_buffer Scenario.host_buffer
                   Cases.contended_mapping Scenario.idle)) = [] ++ ops /\
    forall k, 0 <= k < 8 ->
      load (synchronize ops Scenario.numbered) (block_byte 12288 8 (snd (1, 3)) k)
      = load Scenario.numbered (block_byte 4096 8 (fst (1, 3)) k).
Proof.
  apply (swap_blocks_last_write_wins Scenario.device_buffer Scenario.host_buffer
           Cases.contended_mapping Scenario.idle Scenario.numbered
           cudaMemcpyDeviceToHost 8 [4] [(0, 3)] [(2, 4)] (1, 3)).
  - right; left. repeat split.
  - reflexivity.
  - reflexivity.
  - lia.
  - simpl. lia.
  - vm_compute. discriminate.
  - vm_compute. discriminate.
  - intros p [<- | [<- | [<- | []]]]; vm_compute; repeat split; discriminate.
  - left. vm_compute. discriminate.
  - reflexivity.
  - intros q [<- | []]. simpl. lia.
Defined.

(** X3: With an empty block mapping, [swap_blocks] on an accepted residency
    combination succeeds and enqueues nothing, whatever the block size (the
    statistics that divide by the block size are computed per pair). *)
Theorem swap_blocks_empty_mapping (src dst : Tensor)
    (block_mapping : MappingTensor (Z * Z)) (s : HostState)
    (kind : cudaMemcpyKind) (n : Z) (rest : list Z) :
  swap_direction (device src) (device dst) kind ->
  is_cpu (map_device block_mapping) = true ->
  sizes src = n :: rest -> 0 < n ->
  rows block_mapping = [] ->
  fst (swap_blocks src dst block_mapping s) = Ok tt /\
  stream (snd (swap_blocks src dst block_mapping s)) = stream s.
Proof.
  intros Hdir Hmap Hsz Hn Hrows.
  destruct (swap_blocks_accept src dst block_mapping s kind n rest
              Hdir Hmap Hsz Hn (or_intror Hrows)) as [out ->].
  rewrite Hrows. simpl. now rewrite app_nil_r.
Qed.

Lemma swap_blocks_empty_mapping_witness :
  fst (swap_blocks Cases.hollow_buffer Scenario.host_buffer
         Cases.no_pairs Scenario.idle) = Ok tt /\
  stream (snd (swap_blocks Cases.hollow_buffer Scenario.host_buffer
                 Cases.no_pairs Scenario.idle)) = [].
Proof.
  apply (swap_blocks_empty_mapping Cases.hollow_buffer Scenario.host_buffer
           Cases.no_pairs Scenario.idle cudaMemcpyDeviceToHost 8 [0]).
  - right; left. repeat split.
  - reflexivity.
  - reflexivity.
  - lia.
  - reflexivity.
Defined.

(** X4: Degenerate source buffers stop [swap_blocks] after the residency checks
    and before any copy: a source without a block 0 fails in [src[0]] with
    an IndexError, even when the mapping is empty; a source whose blocks
    have zero bytes makes the first pair divide by zero in the
    fragmentation statistics. *)
Theorem swap_blocks_degenerate_source (src dst : Tensor)
    (block_mapping : MappingTensor (Z * Z)) (s : HostState)
    (kind : cudaMemcpyKind) :
  swap_direction (device src) (device dst) kind ->
  is_cpu (map_device block_mapping) = true ->
  (hd 0 (sizes src) <= 0 ->
   (exists msg, fst (swap_blocks src dst block_mapping s) = Raise (IndexError msg)) /\
   stream (snd (swap_blocks src dst block_mapping s)) = stream s) /\
  (0 < hd 0 (sizes src) ->
   mul64 (element_size src) (prod (tl (sizes src))) = 0 ->
   rows block_mapping <> [] ->
   (exists msg, fst (swap_blocks src dst block_mapping s)
                = Raise (ArithmeticTrap msg)) /\
   stream (snd (swap_blocks src dst block_mapping s)) = stream s).
Proof.
  intros Hdir Hmap. split.
  - intros Hno.
    assert (E : exists msg out, swap_blocks src dst block_mapping s
                = (Raise (IndexError msg), mkHost (stream s) out)).
    { unfold swap_blocks.
      unfold bind at 1. unfold printf at 1. unfold bind at 1.
      rewrite (memcpy_type_ok _ _ _ _ Hdir). unfold bind at 1.
      unfold TORCH_CHECK at 1. rewrite Hmap. unfold ret at 1.
      unfold bind at 1. unfold select0.
      destruct (sizes src) as [|n rest]; simpl in *.
      - do 2 eexists. reflexivity.
      - destruct (Z.ltb_spec 0 n); [lia|]. do 2 eexists. reflexivity. }
    destruct E as [msg [out ->]]. simpl. split; [eexists|]; reflexivity.
  - intros Hn HB Hrows.
    assert (E : exists msg out, swap_blocks src dst block_mapping s
                = (Raise (ArithmeticTrap msg), mkHost (stream s) out)).
    { unfold swap_blocks.
      unfold bind at 1. unfold printf at 1. unfold bind at 1.
      rewrite (memcpy_type_ok _ _ _ _ Hdir). unfold bind at 1.
      unfold TORCH_CHECK at 1. rewrite Hmap. unfold ret at 1.
      unfold bind at 1. unfold select0.
      destruct (sizes src) as [|n rest] eqn:Hsz; simpl in Hn, HB; [lia|].
      destruct (Z.ltb_spec 0 n); [|lia]. unfold ret at 1.
      unfold numel. simpl sizes. rewrite HB.
      destruct (rows block_mapping) as [|p pairs]; [contradiction|].
      unfold bind at 1.
      match goal with |- context [for_each (p :: pairs) ?f ?a ?b] =>
        destruct (swap_loop_trap src (data_ptr src) (data_ptr dst) kind p pairs a b
                    n rest Hsz)
          as [msg ->] end.
      do 2 eexists. reflexivity. }
    destruct E as [msg [out ->]]. simpl. split; [eexists|]; reflexivity.
Qed.

Lemma swap_blocks_degenerate_source_witness :
  ((exists msg, fst (swap_blocks Cases.blockless_buffer Scenario.host_buffer
                       Cases.no_pairs Scenario.idle) = Raise (IndexError msg)) /\
   stream (snd (swap_blocks Cases.blockless_buffer Scenario.host_buffer
                  Cases.no_pairs Scenario.idle)) = []) /\
  ((exists msg, fst (swap_blocks Cases.hollow_buffer Scenario.host_buffer
                       Scenario.host_mapping Scenario.idle)
                = Raise (ArithmeticTrap msg)) /\
   stream (snd (swap_blocks Cases.hollow_buffer Scenario.host_buffer
                  Scenario.host_mapping Scenario.idle)) = []).
Proof.
  split.
  - apply (proj1 (swap_blocks_degenerate_source Cases.blockless_buffer
             Scenario.host_buffer Cases.no_pairs Scenario.idle
             cudaMemcpyDeviceToHost
             (or_intror (or_introl (conj eq_refl (conj eq_refl eq_refl))))
             eq_refl)).
    simpl. lia.
  - apply (proj2 (swap_blocks_degenerate_source Cases.hollow_buffer
             Scenario.host_buffer Scenario.host_mapping Scenario.idle
             cudaMemcpyDeviceToHost
             (or_intror (or_introl (conj eq_refl (conj eq_refl eq_refl))))
             eq_refl)).
    + simpl. lia.
    + reflexivity.
    + discriminate.
Defined.

Lemma count_free_used pairs :
  count_free pairs + count_used pairs = Z.of_nat (List.length pairs).
Proof.
  unfold count_free, count_used.
  induction pairs as [|p pairs IH]; [reflexivity|].
  simpl. destruct (fst p =? 0); simpl List.length; lia.
Qed.

Lemma int64_t_zero : int64_t 0 = 0.
Proof. reflexivity. Qed.

(** The counters after the copy loop of [swap_blocks], in closed form: each
    holds the wrapped value of the exact count. *)
Lemma swap_loop_stats src sp dp B kind n rest :
  sizes src = n :: rest -> B <> 0 -> forall pairs f u g s,
  for_each pairs (swap_blocks_step src sp dp B kind)
    (mkStats (int64_t f) (int64_t u) (int64_t g)) s =
  (Ok (mkStats
         (int64_t (f + count_free pairs))
         (int64_t (u + count_used pairs))
         (int64_t (g + Z.of_nat (List.length pairs)
                       * (if 0 <? Z.rem n B then B - Z.rem n B else 0)))),
   mkHost (stream s ++ swap_copies sp dp B kind pairs) (stdout s)).
Proof.
  intros Hsz HB. induction pairs as [|p pairs IH]; intros f u g s.
  - simpl. unfold ret, count_free, count_used. simpl.
    rewrite !Z.add_0_r, app_nil_r. now destruct s.
  - simpl for_each. unfold bind at 1.
    unfold swap_blocks_step at 1.
    rewrite (size_ok src 0 n) by (now rewrite Hsz).
    unfold bind, host_rem, enqueue, ret.
    destruct (Z.eqb_spec B 0) as [|_]; [contradiction|].
    change (swap_copies sp dp B kind (p :: pairs))
      with ([MemcpyAsync (dp + mul64 (snd p) B) (sp + mul64 (fst p) B) B kind]
            ++ swap_copies sp dp B kind pairs).
    unfold count_free, count_used. simpl filter.
    destruct (fst p =? 0); destruct (0 <? Z.rem n B);
      simpl negb; cbv iota; cbn [free_tokens used_tokens internal_fragmentation];
      unfold sub64; rewrite ?add64_wrapped, ?int64_t_add_r;
      rewrite IH; simpl stream; simpl stdout; rewrite <- app_assoc;
      do 2 f_equal; cbn [List.length]; rewrite ?Nat2Z.inj_succ;
      unfold count_free, count_used;
      apply (f_equal3 mkStats); f_equal; ring.
Qed.

(** X5: What a successful [swap_blocks] prints: the banner, then three
    [int64_t] counters: the number of pairs whose source block number is
    zero as free tokens, the number of the others as used tokens (together
    the number of pairs), and as internal fragmentation, for every pair, the
    gap between the block size and the remainder of [src.size(0)] by it when
    that remainder is positive. *)
Theorem swap_blocks_statistics (src dst : Tensor)
    (block_mapping : MappingTensor (Z * Z)) (s : HostState)
    (kind : cudaMemcpyKind) (n : Z) (rest : list Z) :
  let B := mul64 (element_size src) (prod rest) in
  let r := Z.rem n B in
  swap_direction (device src) (device dst) kind ->
  is_cpu (map_device block_mapping) = true ->
  sizes src = n :: rest -> 0 < n -> B <> 0 ->
  stdout (snd (swap_blocks src dst block_mapping s)) =
    stdout s ++
    [ ("swap_blocks function called\n", []);
      ("Free Tokens: %ld\n", [int64_t (count_free (rows block_mapping))]);
      ("Used Tokens: %ld\n", [int64_t (count_used (rows block_mapping))]);
      ("Internal Fragmentation: %ld bytes\n",
       [int64_t (Z.of_nat (List.length (rows block_mapping))
                 * (if 0 <? r then B - r else 0))]) ] /\
  count_free (rows block_mapping) + count_used (rows block_mapping)
    = Z.of_nat (List.length (rows block_mapping)).
Proof.
  intros B r Hdir Hmap Hsz Hn HB. split; [|apply count_free_used].
  unfold swap_blocks.
  unfold bind at 1. unfold printf at 1. unfold bind at 1.
  rewrite (memcpy_type_ok _ _ _ _ Hdir). unfold bind at 1.
  unfold TORCH_CHECK at 1. rewrite Hmap. unfold ret at 1.
  unfold bind at 1. unfold select0. rewrite Hsz.
  destruct (Z.ltb_spec 0 n); [|lia]. unfold ret at 1.
  unfold numel. simpl sizes. fold B.
  unfold bind at 1.
  rewrite <- int64_t_zero at 1 2 3.
  rewrite (swap_loop_stats src _ _ B kind n rest Hsz HB).
  unfold bind, printf. simpl. fold r.
  rewrite <- !app_assoc. reflexivity.
Qed.

Lemma swap_blocks_statistics_witness :
  stdout (snd (swap_blocks Scenario.device_buffer Scenario.host_buffer
                 Cases.contended_mapping Scenario.idle)) =
    [] ++
    [ ("swap_blocks function called\n", []);
      ("Free Tokens: %ld\n", [int64_t (count_free [(0, 3); (1, 3); (2, 4)])]);
      ("Used Tokens: %ld\n", [int64_t (count_used [(0, 3); (1, 3); (2, 4)])]);
      ("Internal Fragmentation: %ld bytes\n",
       [int64_t (Z.of_nat 3 * (if 0 <? Z.rem 8 (mul64 2 4)
                               then mul64 2 4 - Z.rem 8 (mul64 2 4) else 0))]) ] /\
  count_free [(0, 3); (1, 3); (2, 4)] + count_used [(0, 3); (1, 3); (2, 4)]
    = Z.of_nat 3.
Proof.
  apply (swap_blocks_statistics Scenario.device_buffer Scenario.host_buffer
           Cases.contended_mapping Scenario.idle cudaMemcpyDeviceToHost 8 [4]).
  - right; left. repeat split.
  - reflexivity.
  - reflexivity.
  - lia.
  - vm_compute. discriminate.
Defined.

(* ================================================================== *)
(** * Block Replication Engine: further properties *)
(* ================================================================== *)

(** X6: [copy_blocks] changes nothing but the destination blocks of its mapping
    in the key and value buffers of its layers: every cell that meets no
    element of these blocks is, after the launch has run in whatever order,
    as it was before the call. *)
Theorem copy_blocks_frame (key_caches value_caches : list Tensor)
    (block_mapping : MappingTensor (Z * Z)) (s : HostState) (m : Memory)
    (n : Z) (rest : list Z) :
  let key0 := hd null_tensor key_caches in
  let scalar_t := dtype key0 in
  let numel_per_block := prod rest in
  Z.of_nat (List.length key_caches) <= INT_MAX ->
  List.length key_caches = List.length value_caches ->
  key_caches <> [] ->
  Z.of_nat (List.length (rows block_mapping)) <= MAX_GRID_Y ->
  (rows block_mapping <> [] ->
   forall layer, In layer key_caches -> sizes layer <> []) ->
  is_cuda (device key0) = true ->
  VLLM_DISPATCH_FLOATING_AND_BYTE_TYPES scalar_t = true ->
  sizes key0 = n :: rest -> 0 < n ->
  0 < numel_per_block -> numel_per_block + 1024 <= INT_MAX ->
  n * numel_per_block <= INT64_MAX ->
  blocks_in_range n (rows block_mapping) ->
  exists op,
    fst (copy_blocks key_caches value_caches block_mapping s) = Ok tt /\
    stream (snd (copy_blocks key_caches value_caches block_mapping s))
      = stream s ++ [op] /\
    forall sched, Permutation sched (op_transfers op) ->
    forall c,
      (forall layer p i,
         In layer (key_caches ++ value_caches) -> In p (rows block_mapping) ->
         0 <= i < numel_per_block ->
         ~ overlap (block_element scalar_t layer numel_per_block (snd p) i) c) ->
      load (run sched m) c = load m c.
Proof.
  intros key0 scalar_t npb HL Hlen Hne HP Hrank Hcuda Hdisp Hsz Hn Hnpb Hmax
    Hnb Hrange.
  destruct (copy_blocks_ops key_caches value_caches block_mapping s n rest
              HL Hlen Hne HP Hrank Hcuda Hdisp Hsz Hn Hnpb Hmax Hnb Hrange)
    as [op [out [E Hin]]].
  fold key0 scalar_t npb in Hin.
  exists op. rewrite E. simpl. split; [reflexivity|]. split; [reflexivity|].
  intros sched Hperm c Hc. apply run_frame. intros t Ht.
  apply (Permutation_in _ Hperm), Hin in Ht.
  destruct Ht as [layer [p [i [Hl [Hp [Hi ->]]]]]].
  rewrite replica_cells. simpl. now apply Hc.
Qed.

Lemma copy_blocks_frame_witness :
  exists op,
    fst (copy_blocks Scenario.key_layers Scenario.value_layers
           Scenario.fork_mapping Scenario.idle) = Ok tt /\
    stream (snd (copy_blocks Scenario.key_layers Scenario.value_layers
                   Scenario.fork_mapping Scenario.idle)) = [] ++ [op] /\
    forall sched, Permutation sched (op_transfers op) ->
    forall c,
      (forall layer p i,
         In layer (Scenario.key_layers ++ Scenario.value_layers) ->
         In p [(2, 5)] -> 0 <= i < 4 ->
         ~ overlap (block_element Half layer 4 (snd p) i) c) ->
      load (run sched Scenario.numbered) c = load Scenario.numbered c.
Proof.
  apply (copy_blocks_frame Scenario.key_layers Scenario.value_layers
           Scenario.fork_mapping Scenario.idle Scenario.numbered 8 [4]).
  - vm_compute. discriminate.
  - reflexivity.
  - discriminate.
  - vm_compute. discriminate.
  - intros _ layer [<- | [<- | []]]; discriminate.
  - reflexivity.
  - reflexivity.
  - reflexivity.
  - lia.
  - simpl. lia.
  - vm_compute. discriminate.
  - vm_compute. discriminate.
  - intros p [<- | []]. simpl. lia.
Defined.



Lemma for_each_ext {A S : Type} (l : list A) (f g : A -> S -> Host S) :
  (forall a acc s, f a acc s = g a acc s) ->
  forall acc s, for_each l f acc s = for_each l g acc s.
Proof.
  intros H. induction l as [|a l IH]; intros acc s; [reflexivity|].
  simpl. unfold bind. rewrite H. destruct (g a acc s) as [[acc'|e] s'];
    [apply IH | reflexivity].
Qed.

Lemma for_each_map {A B S : Type} (h : A -> B) (l : list A)
    (f : B -> S -> Host S) :
  forall acc s, for_each (map h l) f acc s = for_each l (fun a => f (h a)) acc s.
Proof.
  induction l as [|a l IH]; intros acc s; [reflexivity|].
  simpl. unfold bind. destruct (f (h a) acc s) as [[acc'|e] s'];
    [apply IH | reflexivity].
Qed.

Lemma bind_ext {A B : Type} (c : Host A) (k k' : A -> Host B) s :
  (forall a s', k a s' = k' a s') -> bind c k s = bind c k' s.
Proof.
  intros H. unfold bind. destruct (c s) as [[a|e] s']; [apply H | reflexivity].
Qed.

Lemma bind_cong {A B : Type} (c c' : Host A) (k : A -> Host B) s :
  c s = c' s -> bind c k s = bind c' k s.
Proof. intros H. unfold bind. now rewrite H. Qed.

(** X8: [copy_blocks] looks at the device of its first key buffer and at no
    other: moving the other key buffers and the value buffers to any other
    devices, host included, changes neither the outcome nor what is
    enqueued. *)
Theorem copy_blocks_checks_first_key_only (key0 : Tensor)
    (keys values : list Tensor) (elsewhere : Tensor -> Device)
    (block_mapping : MappingTensor (Z * Z)) (s : HostState) :
  copy_blocks (key0 :: map (fun t => with_device (elsewhere t) t) keys)
              (map (fun t => with_device (elsewhere t) t) values)
              block_mapping s
  = copy_blocks (key0 :: keys) values block_mapping s.
Proof.
  unfold copy_blocks. simpl hd. simpl List.length.
  rewrite !length_map. cbn [map]. rewrite !map_map. simpl data_ptr.
  apply bind_ext. intros _ s0.
  apply bind_ext. intros _ s1.
  destruct (_ =? 0); [reflexivity|].
  apply bind_ext. intros _ s2.
  apply bind_ext. intros key00 s3.
  apply bind_cong. cbn [for_each].
  apply bind_ext. intros st s4.
  rewrite for_each_map. apply for_each_ext. reflexivity.
Qed.

(** In particular a layer whose value buffer is on the host is launched on
    like any other. *)
Example copy_blocks_mixed_residency_accepted :
  fst (copy_blocks [mkTensor Scenario.gpu0 Half [8; 4] [4; 1] 100000]
                   [mkTensor Scenario.host Half [8; 4] [4; 1] 300000]
                   Scenario.fork_mapping Scenario.idle) = Ok tt /\
  List.length
    (stream (snd (copy_blocks [mkTensor Scenario.gpu0 Half [8; 4] [4; 1] 100000]
                              [mkTensor Scenario.host Half [8; 4] [4; 1] 300000]
                              Scenario.fork_mapping Scenario.idle))) = 1%nat.
Proof. split; reflexivity. Qed.

Lemma copy_blocks_stats_trap layer layers p pairs st s n rest :
  sizes layer = n :: rest ->
  exists msg,
    for_each (layer :: layers) (fun layer st =>
      for_each (p :: pairs) (copy_blocks_stat 0 layer) st) st s
    = (Raise (ArithmeticTrap msg), s).
Proof.
  intros Hsz. simpl. unfold copy_blocks_stat.
  rewrite (size_ok layer 0 n) by (now rewrite Hsz).
  eexists. reflexivity.
Qed.




(* ================================================================== *)
(** * Thread loops: every index once *)
(* ================================================================== *)

Lemma NoDup_upto n : NoDup (upto n).
Proof.
  unfold upto. apply Finite.Injective_map_NoDup.
  - intros a b H. lia.
  - apply seq_NoDup.
Qed.

Lemma NoDup_flat_map_disjoint {A B : Type} (f : A -> list B) (l : list A) :
  NoDup l ->
  (forall a, In a l -> NoDup (f a)) ->
  (forall a b x, In a l -> In b l -> a <> b -> In x (f a) -> ~ In x (f b)) ->
  NoDup (flat_map f l).
Proof.
  induction l as [|a l IH]; intros Hl Hf Hd; simpl; [constructor|].
  inversion Hl as [|? ? Hnotin Hl']; subst.
  apply NoDup_app.
  - apply Hf. now left.
  - apply IH; auto.
    + intros b Hb. apply Hf. now right.
    + intros b c x Hb Hc. apply Hd; now right.
  - intros x Hx Hx'. apply in_flat_map in Hx'. destruct Hx' as [b [Hb Hxb]].
    apply (Hd a b x); auto; [now left | now right | congruence].
Qed.

(** The indices one thread visits are distinct. *)
Lemma thread_loop_NoDup n bd : 0 < bd -> n + bd <= INT_MAX ->
  forall fuel i, 0 <= i -> n - i <= Z.of_nat fuel ->
  NoDup (thread_loop fuel i n bd (fun j => [j])).
Proof.
  intros Hbd Hmax. induction fuel as [|fuel IH]; intros i Hi Hfuel; simpl;
    [constructor|].
  destruct (Z.ltb_spec i n) as [Hlt|]; [|constructor].
  rewrite int_small by (unfold INT_MAX in *; lia).
  simpl. constructor; [|apply IH; lia].
  intros Hin. apply thread_loop_in in Hin; try lia.
  destruct Hin as [k [Hk [_ [E | []]]]]. nia.
Qed.

(** X10: The strided loops of the kernels split the work of a block exactly:
    over the [blockDim] threads of a block, the loop
    [for (i = threadIdx.x; i < n; i += blockDim.x)] visits every index below
    [n] once and no index twice. *)
Theorem thread_loops_partition (n blockDim_x : Z) :
  0 < blockDim_x -> 0 <= n -> n + blockDim_x <= INT_MAX ->
  Permutation
    (flat_map (fun threadIdx_x =>
                 thread_loop (Z.to_nat n) (int threadIdx_x) n blockDim_x
                   (fun i => [i]))
       (upto blockDim_x))
    (upto n).
Proof.
  intros Hbd Hn Hmax. apply NoDup_Permutation.
  - apply NoDup_flat_map_disjoint.
    + apply NoDup_upto.
    + intros tx Htx. apply in_upto in Htx.
      rewrite int_small by (unfold INT_MAX in *; lia).
      apply thread_loop_NoDup; lia.
    + intros a b j Ha Hb Hab Hja Hjb. apply in_upto in Ha, Hb.
      rewrite int_small in Hja, Hjb by (unfold INT_MAX in *; lia).
      apply thread_loop_in in Hja; try lia. apply thread_loop_in in Hjb; try lia.
      destruct Hja as [k [Hk [_ [Ea | []]]]].
      destruct Hjb as [k' [Hk' [_ [Eb | []]]]].
      apply Hab.
      assert (a + k * blockDim_x = b + k' * blockDim_x) by lia.
      assert (k = k') by nia. subst. lia.
  - apply NoDup_upto.
  - intros j. rewrite block_loop_in by assumption. rewrite in_upto. split.
    + intros [i [Hi [<- | []]]]. exact Hi.
    + intros Hj. exists j. split; [exact Hj | now left].
Qed.

Lemma thread_loops_partition_witness :
  Permutation
    (flat_map (fun threadIdx_x =>
                 thread_loop (Z.to_nat 10) (int threadIdx_x) 10 4 (fun i => [i]))
       (upto 4))
    (upto 10).
Proof.
  apply (thread_loops_partition 10 4); [lia | lia | vm_compute; discriminate].
Defined.

(* ================================================================== *)
(** * Cache Scatter Engine: flat-layout addressing *)
(* ================================================================== *)

(** Within the bounds of the cache the index arithmetic of
    [reshape_and_cache_flash_kernel] does not wrap around. *)
Lemma flat_idx_exact bs H D B nb blk bo hd ho :
  0 < D -> 0 < B -> 0 <= bs ->
  H * D * B <= INT_MAX -> nb * bs + H * D * B <= INT64_MAX ->
  0 <= hd < H -> 0 <= ho < D -> 0 <= blk < nb -> 0 <= bo < B ->
  add64 (add64 (add64 (mul64 blk bs) (mul64 (mul64 bo H) D)) (mul32 hd D)) ho
  = blk * bs + bo * H * D + hd * D + ho.
Proof.
  intros HD HB Hbs HM HM64 Hh Hho Hb Hbo.
  pose proof INT_MAX_lt_INT64_MAX as HMM.
  assert (A1 : 0 <= blk * bs <= (nb - 1) * bs)
    by (apply mul_bounds; clear - Hb Hbs; lia).
  assert (A1' : (nb - 1) * bs = nb * bs - bs) by ring.
  assert (B1 : 0 <= bo * H <= (B - 1) * H)
    by (apply mul_bounds; clear - Hbo Hh; lia).
  assert (B2 : 0 <= bo * H * D <= (B - 1) * H * D)
    by (apply mul_bounds; clear - B1 HD; lia).
  assert (C1 : 0 <= hd * D <= (H - 1) * D)
    by (apply mul_bounds; clear - Hh HD; lia).
  assert (E1 : (B - 1) * H * D + (H - 1) * D + D = H * D * B) by ring.
  assert (E2 : 0 <= (B - 1) * H).
  { apply Z.mul_nonneg_nonneg; clear - HB Hh; lia. }
  assert (E3 : (B - 1) * H <= (B - 1) * H * D).
  { pose proof (mul_bounds ((B - 1) * H) ((B - 1) * H) 1 D).
    clear - H0 E2 HD. lia. }
  clear Hh Hb Hbo.
  rewrite (mul64_small blk bs) by lia.
  rewrite (mul64_small bo H) by lia.
  rewrite (mul64_small (bo * H) D) by lia.
  rewrite (mul32_small hd D) by lia.
  rewrite (add64_small (blk * bs)) by lia.
  rewrite (add64_small (_ + _) (hd * D)) by lia.
  rewrite add64_small by lia.
  reflexivity.
Qed.

Section FlatKernel.

Variables (key value k_cache v_cache : Pointer) (slot_mapping : list Z).
Variables (block_stride key_stride value_stride : Z).
Variables (num_heads head_size block_size num_blocks : Z).

Local Abbreviation kernel :=
  (reshape_and_cache_flash_kernel key value k_cache v_cache slot_mapping
     block_stride key_stride value_stride num_heads head_size block_size).

Hypothesis heads_nonneg : 0 <= num_heads.
Hypothesis head_size_pos : 0 < head_size.
Hypothesis block_size_pos : 0 < block_size.
Hypothesis block_stride_nonneg : 0 <= block_stride.
Hypothesis block_numel_int : num_heads * head_size * block_size <= INT_MAX.
Hypothesis cache_numel_int64 :
  num_blocks * block_stride + num_heads * head_size * block_size <= INT64_MAX.

(** The transfers of the block of a token with a valid slot, at the
    offsets of the flat-layout formula. *)
Lemma in_reshape_and_cache_flash_block token ty bd tr :
  let slot := nth (Z.to_nat token) slot_mapping 0 in
  0 <= slot < num_blocks * block_size -> slot <= INT64_MAX ->
  0 < bd -> num_heads * head_size + bd <= INT_MAX ->
  In tr (flat_map (fun tx => kernel token ty tx bd) (upto bd)) <->
  exists i, 0 <= i < num_heads * head_size /\
    (tr = copy_cell
            (k_cache, spec_flat_offset block_stride num_heads head_size
                        block_size slot i)
            (key, add64 (mul64 token key_stride) i) \/
     tr = copy_cell
            (v_cache, spec_flat_offset block_stride num_heads head_size
                        block_size slot i)
            (value, add64 (mul64 token value_stride) i)).
Proof.
  intros slot Hslot Hslot64 Hbd Hmax.
  assert (Hn : 0 <= num_heads * head_size) by (apply Z.mul_nonneg_nonneg; lia).
  unfold reshape_and_cache_flash_kernel. fold slot.
  destruct (Z.ltb_spec slot 0) as [|_]; [lia|].
  rewrite (mul32_small num_heads head_size) by lia.
  rewrite block_loop_in by assumption.
  assert (Hidx : forall i, 0 <= i < num_heads * head_size ->
    add64 (add64 (add64
      (mul64 (block_idx_of slot block_size) block_stride)
      (mul64 (mul64 (block_offset_of slot block_size) num_heads) head_size))
      (mul32 (Z.quot i head_size) head_size)) (Z.rem i head_size)
    = spec_flat_offset block_stride num_heads head_size block_size slot i).
  { intros i Hi.
    pose proof (Z.mod_pos_bound i head_size head_size_pos) as Hho.
    pose proof (Z.div_mod i head_size ltac:(lia)) as Hdm.
    assert (Hhd0 : 0 <= i / head_size) by (apply Z.div_pos; lia).
    assert (Hhd1 : i / head_size < num_heads)
      by (apply Z.div_lt_upper_bound; lia).
    pose proof (Z.mod_pos_bound slot block_size block_size_pos) as Hbo.
    assert (Hb0 : 0 <= slot / block_size) by (apply Z.div_pos; lia).
    assert (Hb1 : slot / block_size < num_blocks)
      by (apply Z.div_lt_upper_bound; lia).
    assert (Hd : slot / block_size <= slot).
    { apply Z.div_le_upper_bound; [lia|].
      pose proof (mul_bounds 1 block_size slot slot). lia. }
    unfold block_idx_of, block_offset_of.
    rewrite !Z.quot_div_nonneg, !Z.rem_mod_nonneg by lia.
    rewrite !int64_t_small
      by (pose proof INT_MAX_lt_INT64_MAX;
          assert (block_size <= INT_MAX)
            by (pose proof (mul_bounds 1 (num_heads * head_size)
                              block_size block_size); lia);
          unfold INT64_MAX, INT_MAX in *; lia).
    unfold spec_flat_offset.
    apply flat_idx_exact with (B := block_size) (nb := num_blocks);
      assumption || lia. }
  split; intros [i [Hi H]]; exists i; (split; [exact Hi|]).
  - rewrite <- (Hidx i Hi). destruct H as [<- | [<- | []]]; auto.
  - rewrite <- (Hidx i Hi) in H. destruct H as [-> | ->]; simpl; auto.
Qed.

End FlatKernel.

(* ================================================================== *)
(** * Cache Scatter Engine: what the caches hold after a launch *)
(* ================================================================== *)

Lemma array_cell_in p count idx :
  0 < pointee_size p -> 0 <= idx < count ->
  cell_in (p, idx) (array_region p count).
Proof.
  intros Hw Hidx. unfold cell_in, array_region, cell_address, cell_size. simpl.
  pose proof (mul_bounds idx (count - 1) (pointee_size p) (pointee_size p)
                ltac:(lia) ltac:(lia)) as Hb.
  replace ((count - 1) * pointee_size p)
    with (count * pointee_size p - pointee_size p) in Hb by ring.
  lia.
Qed.

Lemma cell_outside_no_overlap d c r :
  cell_in d r -> cell_outside c r -> ~ overlap d c.
Proof. unfold cell_in, cell_outside, overlap. lia. Qed.

(** A scatter: every token of [P] writes [n] channels of a key array and of
    a value array, each to a cell of its own, none of which is read.
    Whatever the order of the writes, each addressed cell ends up with its
    converted input and every cell that meets none of them is as before. *)
Lemma scatter_run (T : list Transfer) (P : Z -> Prop) (n : Z)
    (kc vc kp vp : Pointer) (ko vo ks vs : Z -> Z -> Z) (f : Z -> Z) sched m :
  0 < pointee_size kc -> 0 < pointee_size vc ->
  (forall tr, In tr T <->
     exists t i, P t /\ 0 <= i < n /\
       (tr = mkTransfer (kc, ko t i) (kp, ks t i) f \/
        tr = mkTransfer (vc, vo t i) (vp, vs t i) f)) ->
  (forall t i t' i', P t -> P t' -> 0 <= i < n -> 0 <= i' < n ->
     ko t i = ko t' i' -> t = t' /\ i = i') ->
  (forall t i t' i', P t -> P t' -> 0 <= i < n -> 0 <= i' < n ->
     vo t i = vo t' i' -> t = t' /\ i = i') ->
  (forall t i t' i', P t -> P t' -> 0 <= i < n -> 0 <= i' < n ->
     ~ overlap (kc, ko t i) (vc, vo t' i')) ->
  (forall d t i t' i', P t -> P t' -> 0 <= i < n -> 0 <= i' < n ->
     d = (kc, ko t i) \/ d = (vc, vo t i) ->
     ~ overlap d (kp, ks t' i') /\ ~ overlap d (vp, vs t' i')) ->
  Permutation sched T ->
  (forall t i, P t -> 0 <= i < n ->
     load (run sched m) (kc, ko t i)
     = f (load m (kp, ks t i)) mod 256 ^ pointee_size kc /\
     load (run sched m) (vc, vo t i)
     = f (load m (vp, vs t i)) mod 256 ^ pointee_size vc) /\
  (forall c,
     (forall t i, P t -> 0 <= i < n ->
        ~ overlap (kc, ko t i) c /\ ~ overlap (vc, vo t i) c) ->
     load (run sched m) c = load m c).
Proof.
  intros Hwk Hwv HT Hko Hvo Hkv Hrd Hperm.
  assert (Hin : forall tr, In tr sched <->
     exists t i, P t /\ 0 <= i < n /\
       (tr = mkTransfer (kc, ko t i) (kp, ks t i) f \/
        tr = mkTransfer (vc, vo t i) (vp, vs t i) f)).
  { intros tr. rewrite <- HT. split; apply Permutation_in;
      [exact Hperm | now apply Permutation_sym]. }
  assert (HR : reads_untouched sched).
  { intros t u Ht Hu. apply Hin in Ht, Hu.
    destruct Ht as [a [i [Pa [Hi Ht]]]], Hu as [b [j [Pb [Hj Hu]]]].
    assert (Hd : t_dst t = (kc, ko a i) \/ t_dst t = (vc, vo a i))
      by (destruct Ht as [-> | ->]; simpl; auto).
    destruct (Hrd (t_dst t) a i b j Pa Pb Hi Hj Hd) as [N1 N2].
    destruct Hu as [-> | ->]; simpl; assumption. }
  assert (HW : writes_agree m sched).
  { intros t u Ht Hu E. apply Hin in Ht, Hu.
    destruct Ht as [a [i [Pa [Hi [-> | ->]]]]],
             Hu as [b [j [Pb [Hj [-> | ->]]]]]; simpl in E.
    - apply overlap_same_pointer in E; [|exact Hwk].
      destruct (Hko a i b j Pa Pb Hi Hj E) as [-> ->].
      split; [split|]; reflexivity.
    - destruct (Hkv a i b j Pa Pb Hi Hj E).
    - apply overlap_sym in E. destruct (Hkv b j a i Pb Pa Hj Hi E).
    - apply overlap_same_pointer in E; [|exact Hwv].
      destruct (Hvo a i b j Pa Pb Hi Hj E) as [-> ->].
      split; [split|]; reflexivity. }
  split.
  - intros t i Pt Hi. split.
    + apply (run_written sched m (mkTransfer (kc, ko t i) (kp, ks t i) f) HR HW).
      * apply Hin. exists t, i. auto.
      * simpl. unfold cell_size. simpl. lia.
    + apply (run_written sched m (mkTransfer (vc, vo t i) (vp, vs t i) f) HR HW).
      * apply Hin. exists t, i. auto.
      * simpl. unfold cell_size. simpl. lia.
  - intros c Hc. apply run_frame. intros tr Htr. apply Hin in Htr.
    destruct Htr as [t [i [Pt [Hi [-> | ->]]]]]; simpl;
      destruct (Hc t i Pt Hi) as [H1 H2]; assumption.
Qed.

(** The flat-layout offset, regrouped as block and position in the block. *)
Lemma spec_flat_offset_split bs H D B slot i :
  0 < D ->
  spec_flat_offset bs H D B slot i
  = (slot / B) * bs + ((slot mod B) * (H * D) + i).
Proof.
  intros HD. unfold spec_flat_offset.
  pose proof (Z.div_mod i D ltac:(lia)) as E.
  rewrite E at 3. ring.
Qed.

Lemma flat_block_position H D B bs b j :
  H * D * B <= bs -> 0 <= b < B -> 0 <= j < H * D ->
  0 <= b * (H * D) + j < bs.
Proof.
  intros Hbs Hb Hj.
  pose proof (mul_bounds b (B - 1) (H * D) (H * D)).
  assert ((B - 1) * (H * D) = H * D * B - H * D) by ring. lia.
Qed.

(** Distinct pairs of an in-range slot and a channel have distinct
    flat-layout offsets when a block's stride covers its slots. *)
Lemma spec_flat_offset_inj bs H D B slot i slot' i' :
  0 < D -> 0 < B -> 0 <= H -> H * D * B <= bs ->
  0 <= i < H * D -> 0 <= i' < H * D ->
  spec_flat_offset bs H D B slot i = spec_flat_offset bs H D B slot' i' ->
  slot = slot' /\ i = i'.
Proof.
  intros HD HB HH Hbs Hi Hi' E.
  rewrite !spec_flat_offset_split in E by assumption.
  pose proof (Z.mod_pos_bound slot B HB) as Hb.
  pose proof (Z.mod_pos_bound slot' B HB) as Hb'.
  destruct (block_offset_unique bs _ _ _ _
              (flat_block_position H D B bs _ _ Hbs Hb Hi)
              (flat_block_position H D B bs _ _ Hbs Hb' Hi') E)
    as [Eq Er].
  destruct (block_offset_unique (H * D) _ _ _ _ Hi Hi' Er) as [Em Ei].
  split; [|exact Ei].
  rewrite (Z.div_mod slot B), (Z.div_mod slot' B) by lia. congruence.
Qed.

(** The flat-layout offsets of the slots of [nb] blocks lie inside a cache
    of [nb] blocks. *)
Lemma spec_flat_offset_range bs H D B nb slot i :
  0 < D -> 0 < B -> H * D * B <= bs ->
  0 <= slot < nb * B -> 0 <= i < H * D ->
  0 <= spec_flat_offset bs H D B slot i < nb * bs.
Proof.
  intros HD HB Hbs Hslot Hi.
  rewrite spec_flat_offset_split by assumption.
  pose proof (Z.mod_pos_bound slot B HB) as Hb.
  pose proof (flat_block_position H D B bs _ _ Hbs Hb Hi) as Hp.
  assert (Hq0 : 0 <= slot / B) by (apply Z.div_pos; lia).
  assert (Hq1 : slot / B < nb) by (apply Z.div_lt_upper_bound; lia).
  pose proof (mul_bounds (slot / B) (nb - 1) bs bs ltac:(lia) ltac:(lia)) as Hm.
  replace ((nb - 1) * bs) with (nb * bs - bs) in Hm by ring.
  lia.
Qed.

Section FlatScatter.

Variables (scalar_t : ScalarType) (key value k_cache v_cache : Z).
Variable slot_mapping : list Z.
Variables (block_stride key_stride value_stride : Z).
Variables (num_heads head_size block_size num_blocks num_tokens blockDim_x : Z).

Local Abbreviation elements a := (mkPointer a (elementSize scalar_t)).
Local Abbreviation kernel :=
  (reshape_and_cache_flash_kernel (elements key) (elements value)
     (elements k_cache) (elements v_cache) slot_mapping
     block_stride key_stride value_stride num_heads head_size block_size).
Local Abbreviation slot_of token := (nth (Z.to_nat token) slot_mapping 0).
Local Abbreviation offset :=
  (spec_flat_offset block_stride num_heads head_size block_size).
Local Abbreviation k_region :=
  (array_region (elements k_cache) (num_blocks * block_stride)).
Local Abbreviation v_region :=
  (array_region (elements v_cache) (num_blocks * block_stride)).

(** X11: after a launch of [reshape_and_cache_flash_kernel] over tokens
    whose non-negative slots are in range and pairwise distinct, with
    caches whose block stride covers a block and whose bytes meet neither
    each other nor an element the launch reads, every channel [i] of such a
    token is found in both caches at
    [block * block_stride + boff * heads * head_size + i]
    (block = slot / block_size, boff = slot % block_size), unconverted, and
    every cell that meets none of the elements so addressed is as before,
    in any order of execution. *)
Theorem reshape_and_cache_flash_kernel_read_back (sched : list Transfer)
    (m : Memory) :
  0 < num_heads -> 0 < head_size -> 0 < block_size ->
  num_heads * head_size * block_size <= block_stride ->
  num_heads * head_size * block_size <= INT_MAX ->
  num_blocks * block_stride + num_heads * head_size * block_size
    <= INT64_MAX ->
  1 <= num_tokens <= MAX_GRID_X -> 1 <= blockDim_x <= MAX_BLOCK_X ->
  num_heads * head_size + blockDim_x <= INT_MAX ->
  (forall t, 0 <= t < num_tokens -> slot_of t < num_blocks * block_size) ->
  (forall t t', 0 <= t < num_tokens -> 0 <= t' < num_tokens ->
     0 <= slot_of t -> slot_of t = slot_of t' -> t = t') ->
  disjoint k_region v_region ->
  (forall t i r, 0 <= t < num_tokens -> 0 <= slot_of t ->
     0 <= i < num_heads * head_size -> r = k_region \/ r = v_region ->
     cell_outside (elements key, add64 (mul64 t key_stride) i) r /\
     cell_outside (elements value, add64 (mul64 t value_stride) i) r) ->
  Permutation sched (launch num_tokens 1 blockDim_x kernel) ->
  (forall t i, 0 <= t < num_tokens -> 0 <= slot_of t ->
     0 <= i < num_heads * head_size ->
     load (run sched m) (elements k_cache, offset (slot_of t) i)
     = load m (elements key, add64 (mul64 t key_stride) i) /\
     load (run sched m) (elements v_cache, offset (slot_of t) i)
     = load m (elements value, add64 (mul64 t value_stride) i)) /\
  (forall c,
     (forall t i, 0 <= t < num_tokens -> 0 <= slot_of t ->
        0 <= i < num_heads * head_size ->
        ~ overlap (elements k_cache, offset (slot_of t) i) c /\
        ~ overlap (elements v_cache, offset (slot_of t) i) c) ->
     load (run sched m) c = load m c).
Proof.
  intros HH HD HB Hbs HM HM64 Hgrid Hblock Hmax Hrange Hdistinct
    Hkv Hinputs Hperm.
  pose proof (elementSize_pos scalar_t) as Hw.
  assert (Hn : 0 < num_heads * head_size) by (apply Z.mul_pos_pos; lia).
  assert (HBn : block_size <= num_heads * head_size * block_size).
  { pose proof (mul_bounds 1 (num_heads * head_size) block_size block_size).
    lia. }
  assert (Hslot64 : forall t, 0 <= t < num_tokens -> 0 <= slot_of t ->
            slot_of t <= INT64_MAX).
  { intros t Ht H0. specialize (Hrange t Ht).
    assert (0 < num_blocks).
    { destruct (Z.le_gt_cases num_blocks 0) as [Hle|]; [|assumption].
      pose proof (Z.mul_nonpos_nonneg num_blocks block_size Hle). lia. }
    pose proof (mul_bounds num_blocks num_blocks block_size block_stride).
    lia. }
  rewrite launch_accepted in Hperm by (unfold MAX_GRID_Y; lia).
  pose (P := fun t => 0 <= t < num_tokens /\ 0 <= slot_of t).
  assert (Hcell : forall a t i, P t -> 0 <= i < num_heads * head_size ->
            cell_in (elements a, offset (slot_of t) i)
                    (array_region (elements a) (num_blocks * block_stride))).
  { intros a t i [Ht Hs] Hi. apply array_cell_in; [exact Hw|].
    apply spec_flat_offset_range; try assumption.
    split; [exact Hs | now apply Hrange]. }
  destruct (scatter_run (grid_threads num_tokens 1 blockDim_x kernel) P
              (num_heads * head_size)
              (elements k_cache) (elements v_cache) (elements key) (elements value)
              (fun t i => offset (slot_of t) i)
              (fun t i => offset (slot_of t) i)
              (fun t i => add64 (mul64 t key_stride) i)
              (fun t i => add64 (mul64 t value_stride) i)
              (fun v => v) sched m Hw Hw) as [Hread Hframe];
    try exact Hperm.
  - intros tr. rewrite in_grid_threads. split.
    + intros [t [y [Ht [_ Hin]]]].
      destruct (Z.lt_ge_cases (slot_of t) 0) as [Hneg | Hpos].
      * exfalso. apply in_flat_map in Hin. destruct Hin as [tx [_ Hin]].
        rewrite reshape_and_cache_flash_kernel_skips in Hin by exact Hneg.
        exact Hin.
      * apply (in_reshape_and_cache_flash_block (elements key) (elements value)
                 (elements k_cache) (elements v_cache)
                 slot_mapping block_stride key_stride value_stride
                 num_heads head_size block_size num_blocks) in Hin;
          try lia.
        -- destruct Hin as [i [Hi H]]. exists t, i. unfold P. auto.
        -- split; [exact Hpos | now apply Hrange].
        -- now apply Hslot64.
    + intros [t [i [[Ht Hpos] [Hi H]]]]. exists t, 0.
      split; [exact Ht | split; [lia|]].
      apply (in_reshape_and_cache_flash_block (elements key) (elements value)
               (elements k_cache) (elements v_cache)
               slot_mapping block_stride key_stride value_stride
               num_heads head_size block_size num_blocks); try lia.
      * split; [exact Hpos | now apply Hrange].
      * now apply Hslot64.
      * exists i. auto.
  - intros t i t' i' [Ht Hs] [Ht' Hs'] Hi Hi' E.
    apply spec_flat_offset_inj in E; try lia.
    destruct E as [Es Ei]. split; [|exact Ei]. now apply Hdistinct.
  - intros t i t' i' [Ht Hs] [Ht' Hs'] Hi Hi' E.
    apply spec_flat_offset_inj in E; try lia.
    destruct E as [Es Ei]. split; [|exact Ei]. now apply Hdistinct.
  - intros t i t' i' Pt Pt' Hi Hi'.
    apply (disjoint_no_overlap _ _ k_region v_region);
      [now apply Hcell | now apply Hcell | exact Hkv].
  - intros d t i t' i' Pt [Ht' Hs'] Hi Hi' Hd.
    destruct Hd as [-> | ->].
    + destruct (Hinputs t' i' k_region Ht' Hs' Hi' (or_introl eq_refl))
        as [O1 O2].
      split; apply (cell_outside_no_overlap _ _ k_region);
        first [now apply Hcell | assumption].
    + destruct (Hinputs t' i' v_region Ht' Hs' Hi' (or_intror eq_refl))
        as [O1 O2].
      split; apply (cell_outside_no_overlap _ _ v_region);
        first [now apply Hcell | assumption].
  - split.
    + intros t i Ht Hs Hi.
      destruct (Hread t i (conj Ht Hs) Hi) as [R1 R2].
      rewrite R1, R2. simpl pointee_size.
      split; apply Z.mod_small;
        apply (load_range m (elements _, _)); unfold cell_size; simpl; lia.
    + intros c Hc. apply Hframe. intros t i [Ht Hs] Hi. now apply Hc.
Qed.

End FlatScatter.

Lemma reshape_and_cache_flash_kernel_read_back_witness :
  let elements a := mkPointer a (elementSize Half) in
  let sched :=
    launch 3 1 8
      (reshape_and_cache_flash_kernel (elements 1000) (elements 2000)
         (elements 3000) (elements 4000) [5; -1; 20] 128 8 8 2 4 16) in
  (forall t i, 0 <= t < 3 -> 0 <= nth (Z.to_nat t) [5; -1; 20] 0 ->
     0 <= i < 2 * 4 ->
     load (run sched Scenario.numbered)
       (elements 3000,
        spec_flat_offset 128 2 4 16 (nth (Z.to_nat t) [5; -1; 20] 0) i)
     = load Scenario.numbered (elements 1000, add64 (mul64 t 8) i) /\
     load (run sched Scenario.numbered)
       (elements 4000,
        spec_flat_offset 128 2 4 16 (nth (Z.to_nat t) [5; -1; 20] 0) i)
     = load Scenario.numbered (elements 2000, add64 (mul64 t 8) i)) /\
  (forall c,
     (forall t i, 0 <= t < 3 -> 0 <= nth (Z.to_nat t) [5; -1; 20] 0 ->
        0 <= i < 2 * 4 ->
        ~ overlap (elements 3000,
                   spec_flat_offset 128 2 4 16
                     (nth (Z.to_nat t) [5; -1; 20] 0) i) c /\
        ~ overlap (elements 4000,
                   spec_flat_offset 128 2 4 16
                     (nth (Z.to_nat t) [5; -1; 20] 0) i) c) ->
     load (run sched Scenario.numbered) c = load Scenario.numbered c).
Proof.
  assert (Hcases : forall t, 0 <= t < 3 -> t = 0 \/ t = 1 \/ t = 2) by lia.
  apply (reshape_and_cache_flash_kernel_read_back Half 1000 2000 3000 4000
           [5; -1; 20] 128 8 8 2 4 16 2 3 8).
  - lia.
  - lia.
  - lia.
  - lia.
  - vm_compute. discriminate.
  - vm_compute. discriminate.
  - vm_compute. split; discriminate.
  - vm_compute. split; discriminate.
  - vm_compute. discriminate.
  - intros t Ht.
    destruct (Hcases t Ht) as [-> | [-> | ->]]; vm_compute; reflexivity.
  - intros t t' Ht Ht'.
    destruct (Hcases t Ht) as [-> | [-> | ->]];
      destruct (Hcases t' Ht') as [-> | [-> | ->]];
      vm_compute; intros H0 E; try reflexivity;
      try (exfalso; apply H0; reflexivity); discriminate E.
  - left. vm_compute. discriminate.
  - intros t i r Ht _ Hi Hr.
    rewrite (mul64_small t 8), (add64_small (t * 8) i)
      by (unfold INT64_MAX; lia).
    destruct Hr as [-> | ->];
      unfold cell_outside, cell_address, cell_size, array_region;
      cbn [fst snd address pointee_size start len];
      change (elementSize Half) with 2; lia.
  - apply Permutation_refl.
Defined.

(** Distinct pairs of a slot and a channel have distinct value offsets in
    the split layout. *)
Lemma spec_value_offset_inj H D B slot i slot' i' :
  0 < D -> 0 < B ->
  0 <= i < H * D -> 0 <= i' < H * D ->
  spec_value_offset H D B slot i = spec_value_offset H D B slot' i' ->
  slot = slot' /\ i = i'.
Proof.
  intros HD HB Hi Hi' E. unfold spec_value_offset in E. cbv zeta in E.
  pose proof (Z.mod_pos_bound slot B HB) as Hb.
  pose proof (Z.mod_pos_bound slot' B HB) as Hb'.
  pose proof (Z.mod_pos_bound i D HD) as Hho.
  pose proof (Z.mod_pos_bound i' D HD) as Hho'.
  assert (Hhd : 0 <= i / D < H)
    by (split; [apply Z.div_pos | apply Z.div_lt_upper_bound]; lia).
  assert (Hhd' : 0 <= i' / D < H)
    by (split; [apply Z.div_pos | apply Z.div_lt_upper_bound]; lia).
  assert (E1 : ((slot / B * H + i / D) * D + i mod D) * B + slot mod B
               = ((slot' / B * H + i' / D) * D + i' mod D) * B + slot' mod B)
    by (etransitivity; [|etransitivity; [exact E|]]; ring).
  clear E.
  destruct (block_offset_unique B _ _ _ _ Hb Hb' E1) as [E2 Ebo].
  destruct (block_offset_unique D _ _ _ _ Hho Hho' E2) as [E3 Eho].
  destruct (block_offset_unique H _ _ _ _ Hhd Hhd' E3) as [Eblk Ehd].
  split.
  - rewrite (Z.div_mod slot B), (Z.div_mod slot' B) by lia. congruence.
  - rewrite (Z.div_mod i D), (Z.div_mod i' D) by lia. congruence.
Qed.

(** The same for the key offsets, when the group width [x] divides the head
    size. *)
Lemma spec_key_offset_inj H D B x slot i slot' i' :
  0 < D -> 0 < B -> 0 < x -> D mod x = 0 ->
  0 <= i < H * D -> 0 <= i' < H * D ->
  spec_key_offset H D B x slot i = spec_key_offset H D B x slot' i' ->
  slot = slot' /\ i = i'.
Proof.
  intros HD HB Hx Hdiv Hi Hi' E. unfold spec_key_offset in E. cbv zeta in E.
  assert (Eq : D = x * (D / x)).
  { pose proof (Z.div_mod D x ltac:(lia)). lia. }
  pose proof (Z.mod_pos_bound slot B HB) as Hb.
  pose proof (Z.mod_pos_bound slot' B HB) as Hb'.
  pose proof (Z.mod_pos_bound i D HD) as Hho.
  pose proof (Z.mod_pos_bound i' D HD) as Hho'.
  pose proof (Z.mod_pos_bound (i mod D) x Hx) as Hxo.
  pose proof (Z.mod_pos_bound (i' mod D) x Hx) as Hxo'.
  assert (Hxi : 0 <= i mod D / x < D / x)
    by (split; [apply Z.div_pos | apply Z.div_lt_upper_bound]; lia).
  assert (Hxi' : 0 <= i' mod D / x < D / x)
    by (split; [apply Z.div_pos | apply Z.div_lt_upper_bound]; lia).
  assert (Hhd : 0 <= i / D < H)
    by (split; [apply Z.div_pos | apply Z.div_lt_upper_bound]; lia).
  assert (Hhd' : 0 <= i' / D < H)
    by (split; [apply Z.div_pos | apply Z.div_lt_upper_bound]; lia).
  remember (D / x) as q eqn:Hq.
  assert (E1 : (((slot / B * H + i / D) * q + i mod D / x) * B + slot mod B) * x
                 + i mod D mod x
               = (((slot' / B * H + i' / D) * q + i' mod D / x) * B
                    + slot' mod B) * x + i' mod D mod x)
    by (etransitivity; [|etransitivity; [exact E|]]; ring).
  clear E.
  destruct (block_offset_unique x _ _ _ _ Hxo Hxo' E1) as [E2 Exo].
  destruct (block_offset_unique B _ _ _ _ Hb Hb' E2) as [E3 Ebo].
  destruct (block_offset_unique q _ _ _ _ Hxi Hxi' E3) as [E4 Exi].
  destruct (block_offset_unique H _ _ _ _ Hhd Hhd' E4) as [Eblk Ehd].
  assert (Eho : i mod D = i' mod D).
  { rewrite (Z.div_mod (i mod D) x), (Z.div_mod (i' mod D) x) by lia.
    congruence. }
  split.
  - rewrite (Z.div_mod slot B), (Z.div_mod slot' B) by lia. congruence.
  - rewrite (Z.div_mod i D), (Z.div_mod i' D) by lia. congruence.
Qed.

Lemma radix_bound a A b B :
  0 <= a < A -> 0 <= b < B -> 0 <= a * B + b < A * B.
Proof.
  intros Ha Hb.
  pose proof (mul_bounds a (A - 1) B B ltac:(lia) ltac:(lia)) as Hm.
  replace ((A - 1) * B) with (A * B - B) in Hm by ring. lia.
Qed.

(** The split-layout offsets of the slots of [nb] blocks lie inside a
    cache of [nb] blocks. *)
Lemma spec_value_offset_range H D B nb slot i :
  0 < D -> 0 < B -> 0 <= slot < nb * B -> 0 <= i < H * D ->
  0 <= spec_value_offset H D B slot i < nb * (H * D * B).
Proof.
  intros HD HB Hslot Hi. unfold spec_value_offset. cbv zeta.
  pose proof (Z.mod_pos_bound slot B HB) as Hb.
  pose proof (Z.mod_pos_bound i D HD) as Hho.
  assert (Hhd : 0 <= i / D < H)
    by (split; [apply Z.div_pos | apply Z.div_lt_upper_bound]; lia).
  assert (Hblk : 0 <= slot / B < nb)
    by (split; [apply Z.div_pos | apply Z.div_lt_upper_bound]; lia).
  pose proof (radix_bound _ _ _ _ Hblk Hhd) as R1.
  pose proof (radix_bound _ _ _ _ R1 Hho) as R2.
  pose proof (radix_bound _ _ _ _ R2 Hb) as R3.
  replace (slot / B * H * D * B + i / D * D * B + i mod D * B + slot mod B)
    with (((slot / B * H + i / D) * D + i mod D) * B + slot mod B) by ring.
  replace (nb * (H * D * B)) with (nb * H * D * B) by ring.
  exact R3.
Qed.

Lemma spec_key_offset_range H D B x nb slot i :
  0 < D -> 0 < B -> 0 < x -> D mod x = 0 ->
  0 <= slot < nb * B -> 0 <= i < H * D ->
  0 <= spec_key_offset H D B x slot i < nb * (H * D * B).
Proof.
  intros HD HB Hx Hdiv Hslot Hi. unfold spec_key_offset. cbv zeta.
  assert (Eq : D = D / x * x).
  { pose proof (Z.div_mod D x ltac:(lia)). lia. }
  pose proof (Z.mod_pos_bound slot B HB) as Hb.
  pose proof (Z.mod_pos_bound i D HD) as Hho.
  pose proof (Z.mod_pos_bound (i mod D) x Hx) as Hxo.
  assert (Hxi : 0 <= i mod D / x < D / x)
    by (split; [apply Z.div_pos | apply Z.div_lt_upper_bound]; lia).
  assert (Hhd : 0 <= i / D < H)
    by (split; [apply Z.div_pos | apply Z.div_lt_upper_bound]; lia).
  assert (Hblk : 0 <= slot / B < nb)
    by (split; [apply Z.div_pos | apply Z.div_lt_upper_bound]; lia).
  remember (D / x) as q eqn:Hq.
  pose proof (radix_bound _ _ _ _ Hblk Hhd) as R1.
  pose proof (radix_bound _ _ _ _ R1 Hxi) as R2.
  pose proof (radix_bound _ _ _ _ R2 Hb) as R3.
  pose proof (radix_bound _ _ _ _ R3 Hxo) as R4.
  replace (slot / B * H * q * B * x + i / D * q * B * x + i mod D / x * B * x
           + slot mod B * x + i mod D mod x)
    with ((((slot / B * H + i / D) * q + i mod D / x) * B + slot mod B) * x
          + i mod D mod x) by ring.
  replace (nb * (H * D * B)) with (nb * H * q * B * x)
    by (rewrite Eq; ring).
  exact R4.
Qed.

Section SplitScatter.

Variable scaled_convert :
  CType -> CType -> Fp8KVCacheDataType -> Z -> Q -> Z.

Variables (scalar_t cache_t : CType) (kv_dt : Fp8KVCacheDataType).
Variables (key value key_cache value_cache : Z) (slot_mapping : list Z).
Variables (key_stride value_stride num_heads head_size block_size x : Z).
Variable kv_scale : Q.
Variables (num_blocks num_tokens blockDim_x : Z).

Local Abbreviation inputs a := (pointer_to scalar_t a).
Local Abbreviation cache a := (pointer_to cache_t a).
Local Abbreviation kernel :=
  (reshape_and_cache_kernel scaled_convert scalar_t cache_t kv_dt
     (inputs key) (inputs value) (cache key_cache) (cache value_cache)
     slot_mapping key_stride value_stride num_heads head_size block_size x
     kv_scale).

Local Abbreviation conv :=
  (match kv_dt with
   | kAuto => fun v : Z => v
   | _ => fun v : Z => scaled_convert cache_t scalar_t kv_dt v kv_scale
   end).

Local Abbreviation slot_of token := (nth (Z.to_nat token) slot_mapping 0).
Local Abbreviation key_offset :=
  (spec_key_offset num_heads head_size block_size x).
Local Abbreviation value_offset :=
  (spec_value_offset num_heads head_size block_size).
Local Abbreviation cache_numel :=
  (num_blocks * (num_heads * head_size * block_size)).
Local Abbreviation key_region := (array_region (cache key_cache) cache_numel).
Local Abbreviation value_region := (array_region (cache value_cache) cache_numel).

(** X12: after a launch of [reshape_and_cache_kernel] over tokens whose
    non-negative slots are in range and pairwise distinct, with a group
    width [x] that divides the head size and caches whose bytes meet
    neither each other nor an element the launch reads, every channel of
    such a token is found, converted to the element type of the cache
    (unchanged in pass-through mode, where the cache has the element type
    of the inputs), at its split-layout key offset in the key cache and at
    its value offset in the value cache; distinct (slot, channel) pairs
    have distinct key offsets and distinct value offsets; and every cell
    that meets none of the elements so addressed is as before, in any order
    of execution. *)
Theorem reshape_and_cache_kernel_read_back (sched : list Transfer)
    (m : Memory) :
  0 <= num_heads -> 0 < head_size -> 0 < block_size ->
  0 < x -> head_size mod x = 0 ->
  num_heads * head_size * block_size <= INT_MAX ->
  (num_blocks + 1) * (num_heads * head_size * block_size) <= INT64_MAX ->
  1 <= num_tokens <= MAX_GRID_X -> 1 <= blockDim_x <= MAX_BLOCK_X ->
  num_heads * head_size + blockDim_x <= INT_MAX ->
  (kv_dt = kAuto -> cache_t = scalar_t) ->
  (forall t, 0 <= t < num_tokens -> slot_of t < num_blocks * block_size) ->
  (forall t t', 0 <= t < num_tokens -> 0 <= t' < num_tokens ->
     0 <= slot_of t -> slot_of t = slot_of t' -> t = t') ->
  disjoint key_region value_region ->
  (forall t i r, 0 <= t < num_tokens -> 0 <= slot_of t ->
     0 <= i < num_heads * head_size -> r = key_region \/ r = value_region ->
     cell_outside (inputs key, add64 (mul64 t key_stride) i) r /\
     cell_outside (inputs value, add64 (mul64 t value_stride) i) r) ->
  Permutation sched (launch num_tokens 1 blockDim_x kernel) ->
  (forall t i, 0 <= t < num_tokens -> 0 <= slot_of t ->
     0 <= i < num_heads * head_size ->
     load (run sched m) (cache key_cache, key_offset (slot_of t) i)
     = conv (load m (inputs key, add64 (mul64 t key_stride) i))
       mod 256 ^ sizeof cache_t /\
     load (run sched m) (cache value_cache, value_offset (slot_of t) i)
     = conv (load m (inputs value, add64 (mul64 t value_stride) i))
       mod 256 ^ sizeof cache_t) /\
  (kv_dt = kAuto ->
   forall t i, 0 <= t < num_tokens -> 0 <= slot_of t ->
     0 <= i < num_heads * head_size ->
     load (run sched m) (cache key_cache, key_offset (slot_of t) i)
     = load m (inputs key, add64 (mul64 t key_stride) i) /\
     load (run sched m) (cache value_cache, value_offset (slot_of t) i)
     = load m (inputs value, add64 (mul64 t value_stride) i)) /\
  (forall slot i slot' i',
     0 <= i < num_heads * head_size -> 0 <= i' < num_heads * head_size ->
     (key_offset slot i = key_offset slot' i' -> slot = slot' /\ i = i') /\
     (value_offset slot i = value_offset slot' i' -> slot = slot' /\ i = i')) /\
  (forall c,
     (forall t i, 0 <= t < num_tokens -> 0 <= slot_of t ->
        0 <= i < num_heads * head_size ->
        ~ overlap (cache key_cache, key_offset (slot_of t) i) c /\
        ~ overlap (cache value_cache, value_offset (slot_of t) i) c) ->
     load (run sched m) c = load m c).
Proof.
  intros HH HD HB Hx Hdiv HM HM64 Hgrid Hblock Hmax Hauto Hrange Hdistinct
    Hkv Hinputs Hperm.
  pose proof (sizeof_pos cache_t) as Hw.
  assert (Hn : 0 <= num_heads * head_size)
    by (apply Z.mul_nonneg_nonneg; lia).
  assert (Hx' : 0 < x <= head_size).
  { split; [exact Hx|]. pose proof (Z.div_mod head_size x ltac:(lia)) as E.
    rewrite Hdiv in E.
    destruct (Z.le_gt_cases (head_size / x) 0) as [Hle|Hgt].
    - pose proof (Z.mul_nonneg_nonpos x (head_size / x) ltac:(lia) Hle). lia.
    - pose proof (mul_bounds x x 1 (head_size / x)). lia. }
  rewrite launch_accepted in Hperm by (unfold MAX_GRID_Y; lia).
  pose (P := fun t => 0 <= t < num_tokens /\ 0 <= slot_of t).
  assert (Hkcell : forall t i, P t -> 0 <= i < num_heads * head_size ->
            cell_in (cache key_cache, key_offset (slot_of t) i) key_region).
  { intros t i [Ht Hs] Hi. apply array_cell_in; [exact Hw|].
    apply spec_key_offset_range; try assumption.
    split; [exact Hs | now apply Hrange]. }
  assert (Hvcell : forall t i, P t -> 0 <= i < num_heads * head_size ->
            cell_in (cache value_cache, value_offset (slot_of t) i) value_region).
  { intros t i [Ht Hs] Hi. apply array_cell_in; [exact Hw|].
    apply spec_value_offset_range; try assumption.
    split; [exact Hs | now apply Hrange]. }
  destruct (scatter_run (grid_threads num_tokens 1 blockDim_x kernel) P
              (num_heads * head_size)
              (cache key_cache) (cache value_cache) (inputs key) (inputs value)
              (fun t i => key_offset (slot_of t) i)
              (fun t i => value_offset (slot_of t) i)
              (fun t i => add64 (mul64 t key_stride) i)
              (fun t i => add64 (mul64 t value_stride) i)
              conv sched m Hw Hw) as [Hread Hframe];
    try exact Hperm.
  - intros tr. rewrite in_grid_threads. split.
    + intros [t [y [Ht [_ Hin]]]].
      destruct (Z.lt_ge_cases (slot_of t) 0) as [Hneg | Hpos].
      * exfalso. apply in_flat_map in Hin. destruct Hin as [tx [_ Hin]].
        rewrite reshape_and_cache_kernel_skips in Hin by exact Hneg.
        exact Hin.
      * apply in_reshape_and_cache_block in Hin; try assumption; try lia.
        destruct Hin as [i [Hi H]]. exists t, i.
        split; [split; assumption|]. split; [exact Hi|].
        rewrite (tgt_key_idx_spec num_heads head_size block_size x num_blocks
                   HD HB Hx' HM HM64 (slot_of t) i
                   (conj Hpos (Hrange t Ht)) Hi),
                (tgt_value_idx_spec num_heads head_size block_size x num_blocks
                   HD HB Hx' HM HM64 (slot_of t) i
                   (conj Hpos (Hrange t Ht)) Hi) in H.
        exact H.
    + intros [t [i [[Ht Hpos] [Hi H]]]]. exists t, 0.
      split; [exact Ht | split; [lia|]].
      apply in_reshape_and_cache_block; try assumption; try lia.
      exists i. split; [exact Hi|].
      rewrite (tgt_key_idx_spec num_heads head_size block_size x num_blocks
                 HD HB Hx' HM HM64 (slot_of t) i
                 (conj Hpos (Hrange t Ht)) Hi),
              (tgt_value_idx_spec num_heads head_size block_size x num_blocks
                 HD HB Hx' HM HM64 (slot_of t) i
                 (conj Hpos (Hrange t Ht)) Hi).
      exact H.
  - intros t i t' i' [Ht Hs] [Ht' Hs'] Hi Hi' E.
    apply spec_key_offset_inj in E; try assumption.
    destruct E as [Es Ei]. split; [|exact Ei]. now apply Hdistinct.
  - intros t i t' i' [Ht Hs] [Ht' Hs'] Hi Hi' E.
    apply spec_value_offset_inj in E; try assumption.
    destruct E as [Es Ei]. split; [|exact Ei]. now apply Hdistinct.
  - intros t i t' i' Pt Pt' Hi Hi'.
    apply (disjoint_no_overlap _ _ key_region value_region);
      [now apply Hkcell | now apply Hvcell | exact Hkv].
  - intros d t i t' i' Pt [Ht' Hs'] Hi Hi' Hd.
    destruct Hd as [-> | ->].
    + destruct (Hinputs t' i' key_region Ht' Hs' Hi' (or_introl eq_refl))
        as [O1 O2].
      split; apply (cell_outside_no_overlap _ _ key_region);
        first [now apply Hkcell | assumption].
    + destruct (Hinputs t' i' value_region Ht' Hs' Hi' (or_intror eq_refl))
        as [O1 O2].
      split; apply (cell_outside_no_overlap _ _ value_region);
        first [now apply Hvcell | assumption].
  - repeat apply conj.
    + intros t i Ht Hs Hi. apply Hread; [split|]; assumption.
    + intros Ea t i Ht Hs Hi.
      destruct (Hread t i (conj Ht Hs) Hi) as [R1 R2].
      rewrite R1, R2. simpl pointee_size. rewrite Ea. rewrite (Hauto Ea).
      split; apply Z.mod_small;
        apply (load_range m (pointer_to scalar_t _, _));
        unfold cell_size; simpl; pose proof (sizeof_pos scalar_t); lia.
    + intros slot i slot' i' Hi Hi'. split; intros E.
      * now apply spec_key_offset_inj in E.
      * now apply spec_value_offset_inj in E.
    + intros c Hc. apply Hframe. intros t i [Ht Hs] Hi. now apply Hc.
Qed.

End SplitScatter.

Lemma reshape_and_cache_kernel_read_back_witness :
  let inputs a := pointer_to c_uint16_t a in
  let cache a := pointer_to c_uint16_t a in
  let slot_of t := nth (Z.to_nat t) [5; -1; 20] 0 in
  let sched :=
    launch 3 1 8
      (reshape_and_cache_kernel Scenario.no_fp8 c_uint16_t c_uint16_t kAuto
         (inputs 1000) (inputs 2000) (cache 3000) (cache 4000)
         [5; -1; 20] 8 8 2 4 16 2 1) in
  (forall t i, 0 <= t < 3 -> 0 <= slot_of t -> 0 <= i < 2 * 4 ->
     load (run sched Scenario.numbered)
       (cache 3000, spec_key_offset 2 4 16 2 (slot_of t) i)
     = load Scenario.numbered (inputs 1000, add64 (mul64 t 8) i)
       mod 256 ^ sizeof c_uint16_t /\
     load (run sched Scenario.numbered)
       (cache 4000, spec_value_offset 2 4 16 (slot_of t) i)
     = load Scenario.numbered (inputs 2000, add64 (mul64 t 8) i)
       mod 256 ^ sizeof c_uint16_t) /\
  (kAuto = kAuto ->
   forall t i, 0 <= t < 3 -> 0 <= slot_of t -> 0 <= i < 2 * 4 ->
     load (run sched Scenario.numbered)
       (cache 3000, spec_key_offset 2 4 16 2 (slot_of t) i)
     = load Scenario.numbered (inputs 1000, add64 (mul64 t 8) i) /\
     load (run sched Scenario.numbered)
       (cache 4000, spec_value_offset 2 4 16 (slot_of t) i)
     = load Scenario.numbered (inputs 2000, add64 (mul64 t 8) i)) /\
  (forall slot i slot' i',
     0 <= i < 2 * 4 -> 0 <= i' < 2 * 4 ->
     (spec_key_offset 2 4 16 2 slot i = spec_key_offset 2 4 16 2 slot' i' ->
      slot = slot' /\ i = i') /\
     (spec_value_offset 2 4 16 slot i = spec_value_offset 2 4 16 slot' i' ->
      slot = slot' /\ i = i')) /\
  (forall c,
     (forall t i, 0 <= t < 3 -> 0 <= slot_of t -> 0 <= i < 2 * 4 ->
        ~ overlap (cache 3000, spec_key_offset 2 4 16 2 (slot_of t) i) c /\
        ~ overlap (cache 4000, spec_value_offset 2 4 16 (slot_of t) i) c) ->
     load (run sched Scenario.numbered) c = load Scenario.numbered c).
Proof.
  assert (Hcases : forall t, 0 <= t < 3 -> t = 0 \/ t = 1 \/ t = 2) by lia.
  apply (reshape_and_cache_kernel_read_back Scenario.no_fp8
           c_uint16_t c_uint16_t kAuto 1000 2000 3000 4000 [5; -1; 20]
           8 8 2 4 16 2 1 2 3 8).
  - lia.
  - lia.
  - lia.
  - lia.
  - reflexivity.
  - vm_compute. discriminate.
  - vm_compute. discriminate.
  - vm_compute. split; discriminate.
  - vm_compute. split; discriminate.
  - vm_compute. discriminate.
  - reflexivity.
  - intros t Ht.
    destruct (Hcases t Ht) as [-> | [-> | ->]]; vm_compute; reflexivity.
  - intros t t' Ht Ht'.
    destruct (Hcases t Ht) as [-> | [-> | ->]];
      destruct (Hcases t' Ht') as [-> | [-> | ->]];
      vm_compute; intros H0 E; try reflexivity;
      try (exfalso; apply H0; reflexivity); discriminate E.
  - left. vm_compute. discriminate.
  - intros t i r Ht _ Hi Hr.
    rewrite (mul64_small t 8), (add64_small (t * 8) i)
      by (unfold INT64_MAX; lia).
    destruct Hr as [-> | ->];
      unfold cell_outside, cell_address, cell_size, array_region, pointer_to;
      cbn [fst snd address pointee_size start len sizeof]; lia.
  - apply Permutation_refl.
Defined.

(* ================================================================== *)
(** * Cache Scatter Engine: the host side *)
(* ================================================================== *)

Lemma padding_cached_tokens slots :
  padding_tokens slots + cached_tokens slots = Z.of_nat (List.length slots).
Proof.
  unfold padding_tokens, cached_tokens.
  induction slots as [|a slots IH]; [reflexivity|].
  simpl. destruct (a <? 0); simpl List.length; lia.
Qed.

Lemma padding_tokens_range slots :
  0 <= padding_tokens slots <= Z.of_nat (List.length slots) /\
  0 <= cached_tokens slots <= Z.of_nat (List.length slots).
Proof.
  pose proof (padding_cached_tokens slots).
  unfold padding_tokens, cached_tokens in *. lia.
Qed.

Lemma skipn_nth_error {A : Type} (l : list A) : forall a x,
  nth_error l a = Some x -> skipn a l = x :: skipn (S a) l.
Proof.
  induction l as [|y l IH]; intros [|a] x H; simpl in *; try discriminate.
  - congruence.
  - now apply IH.
Qed.

(** The counting loop over the slots [a, a + k) of the mapping: each
    counter holds the wrapped value of the exact count. *)
Lemma count_loop_value (slot_mapping : MappingTensor Z) : forall k a f u s,
  (a + k <= List.length (rows slot_mapping))%nat ->
  for_each (map Z.of_nat (seq a k)) (fun i acc =>
    slot_idx <- item slot_mapping i ;;
    ret (if slot_idx <? 0 then (add64 (fst acc) 1, snd acc)
         else (fst acc, add64 (snd acc) 1))) (int64_t f, int64_t u) s
  = (Ok (int64_t (f + padding_tokens (firstn k (skipn a (rows slot_mapping)))),
         int64_t (u + cached_tokens (firstn k (skipn a (rows slot_mapping))))),
     s).
Proof.
  induction k as [|k IH]; intros a f u s Hlen.
  - simpl. unfold ret, padding_tokens, cached_tokens. simpl.
    now rewrite !Z.add_0_r.
  - simpl for_each. unfold bind at 1. unfold bind at 1. unfold item at 1.
    rewrite Nat2Z.id.
    destruct (nth_error (rows slot_mapping) a) as [x|] eqn:E.
    2:{ apply nth_error_None in E. lia. }
    unfold ret at 1 2. cbv beta iota.
    rewrite (skipn_nth_error _ _ _ E).
    destruct (x <? 0) eqn:Ex; cbn [fst snd];
      rewrite add64_wrapped, IH by lia;
      generalize (skipn (S a) (rows slot_mapping)); intros rest;
      unfold padding_tokens, cached_tokens; simpl firstn; simpl filter;
      rewrite Ex; simpl negb; cbv iota;
      cbn [List.length]; rewrite ?Nat2Z.inj_succ;
      (apply f_equal2; [apply f_equal; apply f_equal2; f_equal; ring
                       | reflexivity]).
Qed.

(** The statistics of the two scatter entry points, in closed form. *)
Lemma count_tokens_value slot_mapping num_tokens s :
  num_tokens <= Z.of_nat (List.length (rows slot_mapping)) ->
  num_tokens <= INT64_MAX ->
  count_tokens slot_mapping num_tokens s
  = (Ok (padding_tokens (firstn (Z.to_nat num_tokens) (rows slot_mapping)),
         cached_tokens (firstn (Z.to_nat num_tokens) (rows slot_mapping))),
     s).
Proof.
  intros H Hmax. unfold count_tokens, upto.
  change (0, 0) with (int64_t 0, int64_t 0).
  rewrite count_loop_value by lia. simpl skipn. rewrite !Z.add_0_l.
  pose proof (padding_tokens_range
                (firstn (Z.to_nat num_tokens) (rows slot_mapping))) as [R1 R2].
  rewrite length_firstn in R1, R2.
  rewrite !int64_t_small by (unfold INT64_MAX in *; lia).
  reflexivity.
Qed.

(** The counting loop stops with an index error at the first token that
    has no slot. *)
Lemma count_loop_short (slot_mapping : MappingTensor Z) : forall k a acc s,
  (a <= List.length (rows slot_mapping) < a + k)%nat ->
  for_each (map Z.of_nat (seq a k)) (fun i acc =>
    slot_idx <- item slot_mapping i ;;
    ret (if slot_idx <? 0 then (add64 (fst acc) 1, snd acc)
         else (fst acc, add64 (snd acc) 1))) acc s
  = (Raise (IndexError "index out of range"), s).
Proof.
  induction k as [|k IH]; intros a acc s Hlen; [lia|].
  simpl for_each. unfold bind at 1. unfold bind at 1. unfold item at 1.
  rewrite Nat2Z.id.
  destruct (nth_error (rows slot_mapping) a) as [x|] eqn:E.
  - unfold ret at 1 2. cbv beta iota. apply IH.
    assert (a < List.length (rows slot_mapping))%nat
      by (apply nth_error_Some; congruence).
    lia.
  - reflexivity.
Qed.

Lemma count_tokens_short slot_mapping num_tokens s :
  Z.of_nat (List.length (rows slot_mapping)) < num_tokens ->
  count_tokens slot_mapping num_tokens s
  = (Raise (IndexError "index out of range"), s).
Proof.
  intros H. unfold count_tokens, upto. apply count_loop_short. lia.
Qed.

(** A dimension a tensor has is read without failure. *)
Lemma size_ranked t d :
  (d < List.length (sizes t))%nat -> size t d = ret (nth d (sizes t) 0).
Proof. intros H. apply size_ok. now apply nth_error_nth'. Qed.

Lemma stride_ranked t d :
  (d < List.length (strides t))%nat -> stride t d = ret (nth d (strides t) 0).
Proof. intros H. apply stride_ok. now apply nth_error_nth'. Qed.

(** Reading a dimension keeps a computation that ends in an index error
    with a given state ending so. *)
Lemma size_bind_index_error {B : Type} t d (k : Z -> Host B) s :
  (forall n, nth_error (sizes t) d = Some n ->
     exists msg, k n s = (Raise (IndexError msg), s)) ->
  exists msg, bind (size t d) k s = (Raise (IndexError msg), s).
Proof.
  intros H. unfold bind.
  destruct (size_cases t d s) as [[n [E ->]] | [E ->]]; eauto.
Qed.

Lemma stride_bind_index_error {B : Type} t d (k : Z -> Host B) s :
  (forall n, nth_error (strides t) d = Some n ->
     exists msg, k n s = (Raise (IndexError msg), s)) ->
  exists msg, bind (stride t d) k s = (Raise (IndexError msg), s).
Proof.
  intros H. unfold bind.
  destruct (stride_cases t d s) as [[n [E ->]] | [E ->]]; eauto.
Qed.

Section ScatterHost.

Variable scaled_convert :
  CType -> CType -> Fp8KVCacheDataType -> Z -> Q -> Z.
Variable DISPATCH_BY_KV_CACHE_DTYPE :
  ScalarType -> string -> Result (CType * CType * Fp8KVCacheDataType).
Variable double_to_float : Q -> Q.

Local Abbreviation reshape_and_cache :=
  (reshape_and_cache scaled_convert DISPATCH_BY_KV_CACHE_DTYPE
     double_to_float).



End ScatterHost.





(* ================================================================== *)
(** * Precision Conversion Engine: the kernel *)
(* ================================================================== *)

(** An elementwise pass from the array at [sp] to the array at [dp], whose
    first [N] elements occupy bytes that do not meet: once every transfer
    has run, in whatever order, each destination element holds the
    converted source element and every cell outside the destination is as
    it was. *)
Lemma elementwise_run (T : list Transfer) (sp dp : Pointer) (N : Z)
    (f : Z -> Z) sched m :
  0 < pointee_size sp -> 0 < pointee_size dp ->
  disjoint (array_region sp N) (array_region dp N) ->
  (forall t, In t T <->
     exists idx, 0 <= idx < N /\ t = mkTransfer (dp, idx) (sp, idx) f) ->
  Permutation sched T ->
  (forall idx, 0 <= idx < N ->
     load (run sched m) (dp, idx)
     = f (load m (sp, idx)) mod 256 ^ pointee_size dp) /\
  (forall c, cell_outside c (array_region dp N) ->
     load (run sched m) c = load m c).
Proof.
  intros Hws Hwd Hsep HT Hperm.
  assert (Hin : forall t, In t sched ->
            exists idx, 0 <= idx < N /\ t = mkTransfer (dp, idx) (sp, idx) f).
  { intros t Ht. apply HT. eapply Permutation_in; eauto. }
  split.
  - intros idx Hidx.
    change (dp, idx) with (t_dst (mkTransfer (dp, idx) (sp, idx) f)).
    rewrite run_written; [reflexivity | | | |].
    + intros t u Ht Hu. destruct (Hin t Ht) as [a [Ha ->]].
      destruct (Hin u Hu) as [b [Hb ->]]. simpl.
      apply (disjoint_no_overlap _ _ (array_region dp N) (array_region sp N));
        [now apply array_cell_in | now apply array_cell_in
        | now apply disjoint_sym].
    + intros t u Ht Hu. destruct (Hin t Ht) as [a [_ ->]].
      destruct (Hin u Hu) as [b [_ ->]]. simpl. intros E.
      apply overlap_same_pointer in E; [|exact Hwd]. subst b.
      split; [split|]; reflexivity.
    + eapply Permutation_in; [apply Permutation_sym; exact Hperm|].
      apply HT. exists idx. auto.
    + simpl. unfold cell_size. simpl. lia.
  - intros c Hc. apply run_frame. intros t Ht.
    destruct (Hin t Ht) as [a [Ha ->]]. simpl.
    apply (cell_outside_no_overlap _ _ (array_region dp N));
      [now apply array_cell_in | exact Hc].
Qed.

Lemma block_index_split bs idx :
  0 < bs -> 0 <= idx ->
  0 <= idx / bs /\ 0 <= idx mod bs < bs /\ idx = idx / bs * bs + idx mod bs.
Proof.
  intros Hbs Hidx.
  pose proof (Z.mod_pos_bound idx bs Hbs).
  pose proof (Z.div_mod idx bs ltac:(lia)).
  assert (0 <= idx / bs) by (apply Z.div_pos; lia).
  lia.
Qed.

Section ConvertDispatch.

Variable scaled_convert :
  CType -> CType -> Fp8KVCacheDataType -> Z -> Q -> Z.
Variable double_to_float : Q -> Q.

Local Abbreviation convert_fp8 :=
  (convert_fp8 scaled_convert double_to_float).

(** The threads of a grid of [nb] blocks of [convert_fp8_kernel] convert
    each of the first [nb * bs] elements once. *)
Lemma in_convert_fp8_launch Tout Tin kv_dt sp dp kv_scale nb bs t :
  0 <= nb -> 0 < bs -> bs + 512 <= INT_MAX -> nb * bs <= INT64_MAX ->
  In t (grid_threads nb 1 (Z.min bs 512)
          (convert_fp8_kernel scaled_convert Tout Tin kv_dt sp dp
             kv_scale bs))
  <-> exists idx, 0 <= idx < nb * bs /\
        t = mkTransfer (dp, idx) (sp, idx)
              (fun v => scaled_convert Tout Tin kv_dt v kv_scale).
Proof.
  intros Hnb Hbs Hmax Hnbs.
  rewrite in_grid_threads. unfold convert_fp8_kernel. split.
  - intros [x [y [Hx [_ Hin]]]].
    apply block_loop_in in Hin; try lia.
    destruct Hin as [i [Hi [<- | []]]].
    pose proof (mul_bounds x (nb - 1) bs bs ltac:(lia) ltac:(lia)) as Hxb.
    assert (Hidx : 0 <= x * bs + i < nb * bs) by lia.
    rewrite mul64_small, add64_small by lia.
    exists (x * bs + i). auto.
  - intros [idx [Hidx ->]].
    destruct (block_index_split bs idx Hbs ltac:(lia)) as (Hq & Hr & E).
    assert (Hqn : idx / bs < nb) by (apply Z.div_lt_upper_bound; lia).
    exists (idx / bs), 0. split; [lia|]. split; [lia|].
    apply block_loop_in; try lia.
    exists (idx mod bs). split; [exact Hr|].
    pose proof (mul_bounds (idx / bs) (nb - 1) bs bs ltac:(lia) ltac:(lia)) as Hxb.
    rewrite mul64_small, add64_small by lia.
    rewrite <- E. now left.
Qed.

(** The launch [convert_fp8] enqueues for an instance, over a source of
    [nb] blocks with leading stride [bs]. *)
Local Abbreviation conversion_launch dst_cache src_cache kv_scale nb bs
    Tout Tin kv_dt :=
  (KernelLaunch "convert_fp8_kernel"
     (unsigned_int nb) 1 (unsigned_int (Z.min bs 512))
     (convert_fp8_kernel scaled_convert Tout Tin kv_dt
        (pointer_to Tin (data_ptr src_cache))
        (pointer_to Tout (data_ptr dst_cache))
        (double_to_float kv_scale) bs)).

(** Past the residency checks, [convert_fp8] reads the block count and the
    block stride of its source and is then a table lookup. *)
Lemma convert_fp8_table dst_cache src_cache kv_scale kv_cache_dtype s :
  is_cuda (device src_cache) = true -> is_cuda (device dst_cache) = true ->
  index (device src_cache) = index (device dst_cache) ->
  convert_fp8 dst_cache src_cache kv_scale kv_cache_dtype s
  = match nth_error (sizes src_cache) 0, nth_error (strides src_cache) 0 with
    | Some nb, Some bs =>
        match encoding_of_tag kv_cache_dtype with
        | None =>
            (Raise (UnsupportedOperation
                      ("Unsupported data type: " ++ kv_cache_dtype)), s)
        | Some kv_dt =>
            match convert_fp8_instance (dtype src_cache) (dtype dst_cache) with
            | Some (Tout, Tin) =>
                (Ok tt,
                 mkHost
                   (stream s ++
                    [conversion_launch dst_cache src_cache kv_scale nb bs
                       Tout Tin kv_dt])
                   (stdout s))
            | None => (Ok tt, s)
            end
        end
    | _, _ => (Raise (IndexError "Dimension out of range"), s)
    end.
Proof.
  intros Hs Hd Hi. unfold convert_fp8, bind, TORCH_CHECK, size, stride.
  rewrite Hs, Hd, (proj2 (Z.eqb_eq _ _) Hi). unfold ret at 1 2 3.
  destruct (nth_error (sizes src_cache) 0) as [nb|]; [|reflexivity].
  unfold ret at 1.
  destruct (nth_error (strides src_cache) 0) as [bs|]; [|reflexivity].
  unfold ret at 1.
  unfold encoding_of_tag, convert_fp8_instance, CALL_CONVERT_FP8, enqueue,
    TORCH_CHECK_unsupported, raise, ret.
  destruct (String.eqb kv_cache_dtype "auto");
    [|destruct (String.eqb kv_cache_dtype "fp8"
                || String.eqb kv_cache_dtype "fp8_e4m3")];
    try reflexivity;
    destruct (dtype src_cache); try reflexivity;
    destruct (dtype dst_cache); reflexivity.
Qed.

(** X16: on device buffers of one device, [convert_fp8] with a known tag
    and a wide source encodes to 8 bits without looking at the element
    type of the destination (it is not required to be the narrow one, and a
    wide destination does not turn the call into a decoding); only with a
    source that is not wide does the destination decide, and then the
    element type of the source is not looked at beyond that. *)
Theorem convert_fp8_source_decides dst_cache src_cache kv_scale
    kv_cache_dtype s (d : ScalarType) :
  is_cuda (device src_cache) = true -> is_cuda (device dst_cache) = true ->
  index (device src_cache) = index (device dst_cache) ->
  (is_wide (dtype src_cache) = true ->
   convert_fp8 (with_dtype d dst_cache) src_cache kv_scale kv_cache_dtype s
   = convert_fp8 dst_cache src_cache kv_scale kv_cache_dtype s) /\
  (is_wide (dtype src_cache) = false -> is_wide d = false ->
   convert_fp8 dst_cache (with_dtype d src_cache) kv_scale kv_cache_dtype s
   = convert_fp8 dst_cache src_cache kv_scale kv_cache_dtype s).
Proof.
  intros Hs Hd Hi. split.
  - intros Hw. rewrite !convert_fp8_table by assumption.
    unfold convert_fp8_instance.
    destruct (dtype src_cache); try discriminate Hw; reflexivity.
  - intros Hw Hw'. rewrite !convert_fp8_table by assumption.
    unfold convert_fp8_instance. simpl dtype. simpl sizes. simpl strides.
    destruct (dtype src_cache); try discriminate Hw;
      destruct d; try discriminate Hw'; reflexivity.
Qed.

(** X17: with a known tag, [convert_fp8] on device buffers of one device
    none of which has a wide element type, over a source that has a
    leading dimension, succeeds and does nothing: no launch, no
    failure. *)
Theorem convert_fp8_silent_no_op dst_cache src_cache kv_scale
    kv_cache_dtype s :
  is_cuda (device src_cache) = true -> is_cuda (device dst_cache) = true ->
  index (device src_cache) = index (device dst_cache) ->
  sizes src_cache <> [] -> strides src_cache <> [] ->
  supported_encoding kv_cache_dtype = true ->
  is_wide (dtype src_cache) = false -> is_wide (dtype dst_cache) = false ->
  convert_fp8 dst_cache src_cache kv_scale kv_cache_dtype s = (Ok tt, s).
Proof.
  intros Hs Hd Hi Hsz Hst Htag Hw Hw'. rewrite convert_fp8_table by assumption.
  destruct (sizes src_cache) as [|nb sz]; [contradiction|].
  destruct (strides src_cache) as [|bs st]; [contradiction|].
  cbn [nth_error].
  unfold supported_encoding in Htag. unfold encoding_of_tag.
  destruct (String.eqb kv_cache_dtype "auto");
    [|destruct (String.eqb kv_cache_dtype "fp8");
      [|destruct (String.eqb kv_cache_dtype "fp8_e4m3");
        [|discriminate Htag]]];
    simpl orb; cbv iota; unfold convert_fp8_instance;
    destruct (dtype src_cache); try discriminate Hw;
    destruct (dtype dst_cache); try discriminate Hw'; reflexivity.
Qed.

(** X18: the effect of a [convert_fp8] call that launches.  For a known
    tag and an instance [(Tout, Tin)] of the table, over a source of [nb]
    blocks with leading stride [bs] and a destination whose first
    [nb * bs] elements occupy bytes that the first [nb * bs] elements of
    the source do not meet, the call enqueues one launch after which, in
    any order of execution, each of the first [nb * bs] elements of the
    destination holds the conversion of the source element at the same
    index, under the encoding of the tag and the scale narrowed to single
    precision, as an element of type [Tout] holds it, and every cell
    outside the destination, the source included, is as before.  The
    extents of the destination are not consulted. *)
Theorem convert_fp8_elementwise dst_cache src_cache kv_scale kv_cache_dtype
    (s : HostState) (m : Memory) (nb bs : Z) kv_dt Tout Tin :
  let src := pointer_to Tin (data_ptr src_cache) in
  let dst := pointer_to Tout (data_ptr dst_cache) in
  is_cuda (device src_cache) = true -> is_cuda (device dst_cache) = true ->
  index (device src_cache) = index (device dst_cache) ->
  encoding_of_tag kv_cache_dtype = Some kv_dt ->
  convert_fp8_instance (dtype src_cache) (dtype dst_cache) = Some (Tout, Tin) ->
  nth_error (sizes src_cache) 0 = Some nb ->
  nth_error (strides src_cache) 0 = Some bs ->
  1 <= nb <= MAX_GRID_X -> 0 < bs -> bs + 512 <= INT_MAX ->
  nb * bs <= INT64_MAX ->
  disjoint (array_region src (nb * bs)) (array_region dst (nb * bs)) ->
  exists op,
    convert_fp8 dst_cache src_cache kv_scale kv_cache_dtype s
    = (Ok tt, mkHost (stream s ++ [op]) (stdout s)) /\
    forall sched, Permutation sched (op_transfers op) ->
      (forall idx, 0 <= idx < nb * bs ->
         load (run sched m) (dst, idx)
         = scaled_convert Tout Tin kv_dt (load m (src, idx))
             (double_to_float kv_scale) mod 256 ^ sizeof Tout) /\
      (forall c, cell_outside c (array_region dst (nb * bs)) ->
         load (run sched m) c = load m c).
Proof.
  intros src dst Hs Hd Hi Htag Hinst Hsz Hst Hnb Hbs Hmax Hnbs Hsep.
  rewrite convert_fp8_table by assumption. rewrite Hsz, Hst, Htag, Hinst.
  eexists. split; [reflexivity|].
  intros sched Hperm. simpl op_transfers in Hperm.
  assert (Hblock : 0 <= Z.min bs 512 <= INT_MAX) by (unfold INT_MAX in *; lia).
  rewrite !unsigned_int_small in Hperm
    by (unfold MAX_GRID_X, INT_MAX in *; lia).
  rewrite launch_accepted in Hperm
    by (unfold MAX_GRID_X, MAX_GRID_Y, MAX_BLOCK_X in *; lia).
  exact (elementwise_run _ src dst (nb * bs) _ sched m
           (sizeof_pos Tin) (sizeof_pos Tout) Hsep
           (fun t => in_convert_fp8_launch Tout Tin kv_dt _ _ _ nb bs t
                       ltac:(lia) Hbs Hmax Hnbs) Hperm).
Qed.

(** X19: a [convert_fp8] call with a known tag over a source without
    blocks, or whose leading stride is zero, succeeds, and whatever it
    enqueues writes no cell. *)
Theorem convert_fp8_empty_source dst_cache src_cache kv_scale kv_cache_dtype
    (s : HostState) (m : Memory) (nb bs : Z) :
  is_cuda (device src_cache) = true -> is_cuda (device dst_cache) = true ->
  index (device src_cache) = index (device dst_cache) ->
  supported_encoding kv_cache_dtype = true ->
  nth_error (sizes src_cache) 0 = Some nb ->
  nth_error (strides src_cache) 0 = Some bs ->
  nb = 0 \/ bs = 0 ->
  exists ops,
    convert_fp8 dst_cache src_cache kv_scale kv_cache_dtype s
    = (Ok tt, mkHost (stream s ++ ops) (stdout s)) /\
    synchronize ops m = m.
Proof.
  intros Hs Hd Hi Htag Hsz Hst Hempty. rewrite convert_fp8_table by assumption.
  rewrite Hsz, Hst.
  assert (Henc : exists kv_dt, encoding_of_tag kv_cache_dtype = Some kv_dt).
  { unfold supported_encoding in Htag. unfold encoding_of_tag.
    destruct (String.eqb kv_cache_dtype "auto"); [eauto|].
    destruct (String.eqb kv_cache_dtype "fp8"); [simpl; eauto|].
    destruct (String.eqb kv_cache_dtype "fp8_e4m3"); [simpl; eauto|].
    simpl in Htag. discriminate Htag. }
  destruct Henc as [kv_dt ->].
  destruct (convert_fp8_instance (dtype src_cache) (dtype dst_cache))
    as [[Tout Tin]|].
  - eexists. split; [reflexivity|].
    unfold synchronize. simpl flat_map. rewrite app_nil_r.
    destruct Hempty as [-> | ->]; [reflexivity|].
    rewrite launch_idle; [reflexivity|]. intros x y tx _ _. reflexivity.
  - exists []. rewrite app_nil_r. split; [now destruct s | reflexivity].
Qed.

End ConvertDispatch.

Lemma convert_fp8_source_decides_witness :
  convert_fp8 Scenario.no_fp8 Scenario.same_scale
    (with_dtype Float Scenario.narrow_tmp) Scenario.wide_src 1 "fp8"
    Scenario.idle
  = convert_fp8 Scenario.no_fp8 Scenario.same_scale
      Scenario.narrow_tmp Scenario.wide_src 1 "fp8" Scenario.idle.
Proof.
  apply (proj1 (convert_fp8_source_decides Scenario.no_fp8 Scenario.same_scale
                  Scenario.narrow_tmp Scenario.wide_src 1 "fp8" Scenario.idle
                  Float eq_refl eq_refl eq_refl)).
  reflexivity.
Defined.

Lemma convert_fp8_silent_no_op_witness :
  convert_fp8 Scenario.no_fp8 Scenario.same_scale
    Scenario.int_dst Scenario.int_src 1 "fp8_e4m3" Scenario.idle
  = (Ok tt, Scenario.idle).
Proof.
  apply (convert_fp8_silent_no_op Scenario.no_fp8 Scenario.same_scale
           Scenario.int_dst Scenario.int_src 1 "fp8_e4m3" Scenario.idle);
    first [reflexivity | discriminate].
Defined.

Lemma convert_fp8_elementwise_witness :
  exists op,
    convert_fp8 Scenario.no_fp8 Scenario.same_scale
      Scenario.narrow_tmp Scenario.wide_src 1 "fp8" Scenario.idle
    = (Ok tt, mkHost ([] ++ [op]) []) /\
    forall sched, Permutation sched (op_transfers op) ->
      (forall idx, 0 <= idx < 8 * 4 ->
         load (run sched Scenario.numbered) (pointer_to c_uint8_t 800000, idx)
         = Scenario.no_fp8 c_uint8_t c_float kFp8E4M3
             (load Scenario.numbered (pointer_to c_float 700000, idx))
             (Scenario.same_scale 1) mod 256 ^ sizeof c_uint8_t) /\
      (forall c,
         cell_outside c (array_region (pointer_to c_uint8_t 800000) (8 * 4)) ->
         load (run sched Scenario.numbered) c = load Scenario.numbered c).
Proof.
  apply (convert_fp8_elementwise Scenario.no_fp8 Scenario.same_scale
           Scenario.narrow_tmp Scenario.wide_src 1 "fp8" Scenario.idle
           Scenario.numbered 8 4 kFp8E4M3 c_uint8_t c_float).
  - reflexivity.
  - reflexivity.
  - reflexivity.
  - reflexivity.
  - reflexivity.
  - reflexivity.
  - reflexivity.
  - vm_compute. split; discriminate.
  - lia.
  - vm_compute. discriminate.
  - vm_compute. discriminate.
  - left. vm_compute. discriminate.
Defined.

Lemma convert_fp8_empty_source_witness :
  exists ops,
    convert_fp8 Scenario.no_fp8 Scenario.same_scale
      Scenario.narrow_tmp Cases.blockless_buffer 1 "auto" Scenario.idle
    = (Ok tt, mkHost ([] ++ ops) []) /\
    synchronize ops Scenario.numbered = Scenario.numbered.
Proof.
  apply (convert_fp8_empty_source Scenario.no_fp8 Scenario.same_scale
           Scenario.narrow_tmp Cases.blockless_buffer 1 "auto" Scenario.idle
           Scenario.numbered 0 4).
  - reflexivity.
  - reflexivity.
  - reflexivity.
  - reflexivity.
  - reflexivity.
  - reflexivity.
  - left. reflexivity.
Defined.

(* ================================================================== *)
(** * Block Replication Engine: the statistics *)
(* ================================================================== *)

(** One step of the statistics loop on wrapped counters. *)
Lemma copy_blocks_stat_value npb layer p f u g s :
  npb <> 0 -> sizes layer <> [] ->
  copy_blocks_stat npb layer p
    (mkStats (int64_t f) (int64_t u) (int64_t g)) s
  = (Ok (mkStats
           (int64_t (f + (if fst p =? 0 then 1 else 0)))
           (int64_t (u + (if fst p =? 0 then 0 else 1)))
           (int64_t (g + block_gap npb layer))),
     s).
Proof.
  intros Hnpb Hs. unfold copy_blocks_stat, block_gap, size.
  destruct (sizes layer) as [|n0 rest0]; [contradiction|].
  cbn [nth_error hd]. unfold bind, host_rem, ret.
  destruct (Z.eqb_spec npb 0) as [|_]; [contradiction|].
  destruct (fst p =? 0); destruct (0 <? Z.rem n0 npb);
    simpl negb; cbv iota;
    cbn [free_tokens used_tokens internal_fragmentation];
    unfold sub64; rewrite ?add64_wrapped, ?int64_t_add_r, ?Z.add_0_r;
    reflexivity.
Qed.

(** The counters after the pairs of one layer: each holds the wrapped
    value of the exact count. *)
Lemma copy_blocks_stat_pairs npb layer : npb <> 0 -> forall pairs f u g s,
  (pairs <> [] -> sizes layer <> []) ->
  for_each pairs (copy_blocks_stat npb layer)
    (mkStats (int64_t f) (int64_t u) (int64_t g)) s
  = (Ok (mkStats
           (int64_t (f + count_free pairs))
           (int64_t (u + count_used pairs))
           (int64_t (g + Z.of_nat (List.length pairs) * block_gap npb layer))),
     s).
Proof.
  intros Hnpb. induction pairs as [|p pairs IH]; intros f u g s Hrank.
  - simpl. unfold ret, count_free, count_used. simpl.
    now rewrite !Z.add_0_r.
  - assert (Hs : sizes layer <> []) by (apply Hrank; discriminate).
    simpl for_each. unfold bind at 1.
    rewrite copy_blocks_stat_value by assumption.
    rewrite IH by (intros _; exact Hs).
    unfold count_free, count_used. simpl filter.
    destruct (fst p =? 0); simpl negb; cbv iota;
      cbn [List.length]; rewrite ?Nat2Z.inj_succ;
      do 2 f_equal; apply (f_equal3 mkStats); f_equal; ring.
Qed.

(** The counters after every layer. *)
Lemma copy_blocks_stat_layers npb pairs : npb <> 0 -> forall layers f u g s,
  (pairs <> [] -> forall layer, In layer layers -> sizes layer <> []) ->
  for_each layers (fun layer st =>
    for_each pairs (copy_blocks_stat npb layer) st)
    (mkStats (int64_t f) (int64_t u) (int64_t g)) s
  = (Ok (mkStats
           (int64_t (f + Z.of_nat (List.length layers) * count_free pairs))
           (int64_t (u + Z.of_nat (List.length layers) * count_used pairs))
           (int64_t (g + Z.of_nat (List.length pairs) * sum_gaps npb layers))),
     s).
Proof.
  intros Hnpb. induction layers as [|layer layers IH]; intros f u g s Hrank.
  - simpl. unfold ret. now rewrite !Z.mul_0_r, !Z.add_0_r.
  - simpl for_each. unfold bind at 1.
    rewrite copy_blocks_stat_pairs
      by (first [exact Hnpb | intros Hp; apply (Hrank Hp); now left]).
    rewrite IH by (intros Hp l Hl; apply (Hrank Hp); now right).
    change (sum_gaps npb (layer :: layers))
      with (block_gap npb layer + sum_gaps npb layers).
    cbn [List.length]. rewrite ?Nat2Z.inj_succ.
    do 2 f_equal. apply (f_equal3 mkStats); f_equal; ring.
Qed.



(* ================================================================== *)
(** * Block Replication Engine: the limit of the launch grid *)
(* ================================================================== *)

Lemma launch_refused_grid_y gx gy bx (k : Kernel) :
  MAX_GRID_Y < gy -> launch gx gy bx k = [].
Proof.
  intros H. unfold launch, launch_config_ok.
  destruct (Z.leb_spec gy MAX_GRID_Y); [lia|].
  now rewrite !andb_false_r, ?andb_false_l.
Qed.


